(** * radio-truyen-cua-me: cache, locking, cleanup and the TTS pipeline

    A shallow embedding of the core of the repository:

    - [modules/Tts.py]: percent-string validation, the text chunker, the
      bounded queue between producer and consumer, and [TTSEngine.stream];
    - [modules/Cache_manager.py]: the key-to-path mapping and the two
      cleanup passes (by age, by size);
    - [app.py]: the [/api/read] view [read_stream] and its response body
      [generate_and_cache].

    Conventions.  A Python [str] is the list of its characters, a character
    is its Unicode code point.  [bytes] are lists of [byte].  Generators are
    modelled by the list of values they yield together with the way they
    end; a run of a generator starts with the first value asked of it.
    Timestamps are rationals and their arithmetic is exact.  The float of
    the size target is an IEEE 754 double, computed with the roundings of
    the source. *)

From Stdlib Require Import Ascii String.
From Stdlib Require Import List Bool Arith NArith ZArith QArith Lia Lqa.
From Stdlib Require Import Permutation Sorted.
Import ListNotations.
Close Scope Q_scope.

Set Implicit Arguments.

(** ** Python strings *)

(** A character: its code point. *)
Definition char := N.

Definition str := list char.

(** The character written as an ASCII literal. *)
Definition chr (a : ascii) : char := N_of_ascii a.

(** The string written as an ASCII literal. *)
Definition lit (s : string) : str := map chr (list_ascii_of_string s).

Definition NL : char := 10%N.
Definition SP : char := 32%N.

(** [c] lies in one of the ranges [(first, count)]. *)
Definition in_ranges (ranges : list (N * N)) (c : char) : bool :=
  existsb (fun r => (fst r <=? c)%N && (c <? fst r + snd r)%N) ranges.

(** The characters [str.isspace] and [str.strip] take for whitespace:
    general category Zs or bidirectional class WS, B or S. *)
Definition WHITESPACE : list (N * N) :=
  [(0x9, 5); (0x1c, 5); (0x85, 1); (0xa0, 1); (0x1680, 1); (0x2000, 11);
   (0x2028, 2); (0x202f, 1); (0x205f, 1); (0x3000, 1)]%N.

(** [str.isspace] on one character. *)
Definition isspace (c : char) : bool := in_ranges WHITESPACE c.

Fixpoint lstrip (s : str) : str :=
  match s with
  | c :: s' => if isspace c then lstrip s' else s
  | [] => []
  end.

(** [s.strip()] *)
Definition strip (s : str) : str := rev (lstrip (rev (lstrip s))).

(** Truth value of a string: [bool(s)]. *)
Definition truthy (s : str) : bool :=
  match s with [] => false | _ :: _ => true end.

(** [s.split(sep)] for a one-character separator. *)
Fixpoint split (sep : char) (s : str) : list str :=
  match s with
  | [] => [[]]
  | c :: s' =>
      if N.eqb c sep then [] :: split sep s'
      else match split sep s' with
           | p :: ps => (c :: p) :: ps
           | [] => [[c]]
           end
  end.

(** [s[a:b]] for [0 <= a], [0 <= b]. *)
Definition slice (s : str) (a b : nat) : str := firstn (b - a) (skipn a s).

(** Highest index of [c] in [s], if any. *)
Fixpoint last_index (c : char) (s : str) : option nat :=
  match s with
  | [] => None
  | x :: s' =>
      match last_index c s' with
      | Some i => Some (S i)
      | None => if N.eqb x c then Some 0 else None
      end
  end.

(** [s.rfind(c, a, b)]; [None] stands for Python's [-1]. *)
Definition rfind (c : char) (s : str) (a b : nat) : option nat :=
  option_map (fun i => a + i) (last_index c (slice s a b)).

(** ** Results of fallible calls *)

Inductive result (E A : Type) : Type :=
| Ok (a : A)
| Raise (e : E).
Arguments Ok {E A} a.
Arguments Raise {E A} e.

(** ** modules/Tts.py: constants *)

Definition TEXT_CHUNK_SIZE : nat := 2500.
Definition QUEUE_MAX_SIZE : nat := 100.

(** ** modules/Tts.py: [_validate_percent_string]

    The pattern [^[+-]\d{1,3}%$] under [re.match], as a backtracking matcher
    in continuation style: each piece takes the matcher of what follows. *)

Definition re_cont := str -> bool.

Definition re_class (P : char -> bool) (k : re_cont) : re_cont :=
  fun s => match s with c :: s' => P c && k s' | [] => false end.

(** Greedy [x{lo,hi}] for a character class [P]: one more repetition is
    tried first, the continuation is tried on failure once [lo] is met. *)
Fixpoint re_repeat (P : char -> bool) (lo hi : nat) (k : re_cont) : re_cont :=
  fun s =>
    match hi with
    | O => k s
    | S hi' =>
        re_class P (re_repeat P (pred lo) hi' k) s
        || (if lo =? 0 then k s else false)
    end.

(** [$] without [re.MULTILINE]: the end of the string, or just before a
    newline that ends the string. *)
Definition re_dollar : re_cont :=
  fun s => match s with
           | [] => true
           | [c] => N.eqb c NL
           | _ => false
           end.

Definition is_sign (c : char) : bool :=
  N.eqb c (chr "+") || N.eqb c (chr "-").

(** The decimal digits of Unicode 14.0.0 (general category Nd), the
    database of CPython 3.11: [0] to [9] and the digits of the other
    scripts, ten to a range but for the fifty mathematical digits. *)
Definition DECIMAL_DIGITS : list (N * N) :=
  [(0x30, 10); (0x660, 10); (0x6f0, 10); (0x7c0, 10); (0x966, 10);
   (0x9e6, 10); (0xa66, 10); (0xae6, 10); (0xb66, 10); (0xbe6, 10);
   (0xc66, 10); (0xce6, 10); (0xd66, 10); (0xde6, 10); (0xe50, 10);
   (0xed0, 10); (0xf20, 10); (0x1040, 10); (0x1090, 10); (0x17e0, 10);
   (0x1810, 10); (0x1946, 10); (0x19d0, 10); (0x1a80, 10); (0x1a90, 10);
   (0x1b50, 10); (0x1bb0, 10); (0x1c40, 10); (0x1c50, 10); (0xa620, 10);
   (0xa8d0, 10); (0xa900, 10); (0xa9d0, 10); (0xa9f0, 10); (0xaa50, 10);
   (0xabf0, 10); (0xff10, 10); (0x104a0, 10); (0x10d30, 10); (0x11066, 10);
   (0x110f0, 10); (0x11136, 10); (0x111d0, 10); (0x112f0, 10); (0x11450, 10);
   (0x114d0, 10); (0x11650, 10); (0x116c0, 10); (0x11730, 10); (0x118e0, 10);
   (0x11950, 10); (0x11c50, 10); (0x11d50, 10); (0x11da0, 10); (0x16a60, 10);
   (0x16ac0, 10); (0x16b50, 10); (0x1d7ce, 50); (0x1e140, 10); (0x1e2f0, 10);
   (0x1e950, 10); (0x1fbf0, 10)]%N.

(** [\d] in a [str] pattern: any decimal digit of Unicode. *)
Definition is_digit (c : char) : bool := in_ranges DECIMAL_DIGITS c.

Definition is_percent (c : char) : bool := N.eqb c (chr "%").

Definition percent_re : re_cont :=
  re_class is_sign (re_repeat is_digit 1 3 (re_class is_percent re_dollar)).

Inductive ValueError : Type :=
| InvalidFormat (name : str) (value : str).

Definition _validate_percent_string (value name : str) : result ValueError str :=
  if negb (percent_re value) then Raise (InvalidFormat name value)
  else Ok value.

(** The format as the specification words it: a sign, one to three digits,
    a percent character, and nothing else. *)
Definition signed_percentage (s : str) : bool :=
  match s with
  | sg :: rest =>
      is_sign sg &&
      match rest with
      | [d1; p] => is_digit d1 && is_percent p
      | [d1; d2; p] => is_digit d1 && is_digit d2 && is_percent p
      | [d1; d2; d3; p] =>
          is_digit d1 && is_digit d2 && is_digit d3 && is_percent p
      | _ => false
      end
  | [] => false
  end.

Record TTSEngine : Type := mkTTSEngine {
  voice : str;
  rate : str;
  volume : str
}.

(** [TTSEngine.__init__] *)
Definition TTSEngine_init (v r vol : str) : result ValueError TTSEngine :=
  match _validate_percent_string r (lit "rate") with
  | Raise e => Raise e
  | Ok r' =>
      match _validate_percent_string vol (lit "volume") with
      | Raise e => Raise e
      | Ok vol' => Ok (mkTTSEngine v r' vol')
      end
  end.

(** ** modules/Tts.py: [_chunk_text] *)

(** The [while start < len(p)] loop of the oversized-paragraph branch.
    [start] grows at every turn, so [length p] turns are enough; see
    [force_split_loop_fuel]. *)
Fixpoint force_split_loop (size fuel : nat) (p : str) (start : nat) : list str :=
  match fuel with
  | O => []
  | S fuel' =>
      if start <? length p then
        let end_ :=
          match rfind SP p start (start + size) with
          | None => start + size
          | Some e => if e <=? start then start + size else e
          end in
        slice p start end_ :: force_split_loop size fuel' p (end_ + 1)
      else []
  end.

Definition force_split (size : nat) (p : str) : list str :=
  force_split_loop size (length p) p 0.

(** The [for p in paragraphs] loop, then the last [yield]. *)
Fixpoint chunk_paragraphs (size : nat) (paragraphs : list str)
    (current_chunk : str) : list str :=
  match paragraphs with
  | [] => if truthy (strip current_chunk) then [current_chunk] else []
  | p :: rest =>
      if size <=? length p then
        (if truthy current_chunk then [current_chunk] else [])
        ++ force_split size p
        ++ chunk_paragraphs size rest []
      else if length current_chunk + length p + 1 <? size then
        chunk_paragraphs size rest (current_chunk ++ p ++ [NL])
      else
        current_chunk :: chunk_paragraphs size rest (p ++ [NL])
  end.

Definition chunk_text_sized (size : nat) (text : str) : list str :=
  if negb (truthy text) then []
  else chunk_paragraphs size (split NL text) [].

Definition _chunk_text (text : str) : list str :=
  chunk_text_sized TEXT_CHUNK_SIZE text.

(** The characters of a text that are not whitespace, in order. *)
Definition non_space (s : str) : str := filter (fun c => negb (isspace c)) s.

(** ** modules/Tts.py: the bounded queue *)

Definition bytes := list Byte.byte.

Inductive TTSEngineError : Type :=
| ChunkTimedOut
| SynthesisFailed (exception_name : str)
| SupervisorFailed
| ConsumerStarved.

(** What travels through [audio_queue]: audio data, an exception object,
    or the [None] sentinel. *)
Inductive item : Type :=
| Audio (data : bytes)
| Failure (e : TTSEngineError)
| EndOfStream.

Definition queue := list item.

Inductive QueueFull : Type := Full.

(** [Queue.put_nowait]: [queue.Full] when [maxsize > 0] and the queue
    holds [maxsize] items. *)
Definition put_nowait (maxsize : nat) (q : queue) (x : item)
  : result QueueFull queue :=
  if (0 <? maxsize) && (maxsize <=? length q) then Raise Full
  else Ok (q ++ [x]).

(** [Queue.get_nowait]: [None] stands for [queue.Empty]. *)
Definition get_nowait (q : queue) : option (item * queue) :=
  match q with
  | [] => None
  | x :: q' => Some (x, q')
  end.

(** [_safe_put]: a second [queue.Full] is not caught by the inner
    [except queue.Empty] and leaves the function. *)
Definition _safe_put (maxsize : nat) (q : queue) (x : item)
  : result QueueFull queue :=
  match put_nowait maxsize q x with
  | Ok q' => Ok q'
  | Raise Full =>
      match get_nowait q with
      | Some (_, q1) => put_nowait maxsize q1 x
      | None => Ok q
      end
  end.

(** ** modules/Tts.py: the producer thread and the consumer loop *)

(** One element of [communicate.stream()]. *)
Inductive tts_chunk : Type :=
| AudioChunk (data : bytes)
| OtherChunk.

(** How the synthesis of one text chunk ends. *)
Inductive synth_end : Type :=
| SynthDone
| SynthTimeout
| SynthRaise (exception_name : str).

(** The external service: text chunk, voice, rate, volume. *)
Definition service := str -> str -> str -> str -> list tts_chunk * synth_end.

Inductive producer : Type :=
| PNextChunk (todo : list str)
| PInChunk (pending : list tts_chunk) (e : synth_end) (todo : list str)
| PHandler (e : TTSEngineError)
| PFinally (propagating : bool)
| PSupervisor
| PExited.

Inductive event : Type :=
| EvQueueCreated (maxsize : nat)
| EvThreadStarted
| EvServiceCalled (text_chunk : str)
| EvProducerAlive.

Section Pipeline.

Variable svc : service.
Variable final_voice final_rate final_volume : str.

(** One move of the producer thread on the queue; [None] when it cannot
    move: it has exited, or it sits in the blocking [audio_queue.put]. *)
Definition producer_step (p : producer) (q : queue)
  : option (producer * queue * list event) :=
  match p with
  | PNextChunk [] => Some (PFinally false, q, [])
  | PNextChunk (text_chunk :: todo) =>
      if negb (truthy (strip text_chunk)) then Some (PNextChunk todo, q, [])
      else
        let '(chunks, e) := svc text_chunk final_voice final_rate final_volume in
        Some (PInChunk chunks e todo, q, [EvServiceCalled text_chunk])
  | PInChunk (AudioChunk data :: pending) e todo =>
      if (0 <? QUEUE_MAX_SIZE) && (QUEUE_MAX_SIZE <=? length q) then None
      else Some (PInChunk pending e todo, q ++ [Audio data], [])
  | PInChunk (OtherChunk :: pending) e todo =>
      Some (PInChunk pending e todo, q, [])
  | PInChunk [] SynthDone todo => Some (PNextChunk todo, q, [])
  | PInChunk [] SynthTimeout todo => Some (PHandler ChunkTimedOut, q, [])
  | PInChunk [] (SynthRaise n) todo => Some (PHandler (SynthesisFailed n), q, [])
  | PHandler e =>
      match _safe_put QUEUE_MAX_SIZE q (Failure e) with
      | Ok q' => Some (PFinally false, q', [])
      | Raise Full => Some (PFinally true, q, [])
      end
  | PFinally propagating =>
      match _safe_put QUEUE_MAX_SIZE q EndOfStream with
      | Ok q' => Some (if propagating then PSupervisor else PExited, q', [])
      | Raise Full => Some (PSupervisor, q, [])
      end
  | PSupervisor =>
      match _safe_put QUEUE_MAX_SIZE q (Failure SupervisorFailed) with
      | Ok q' => Some (PExited, q', [])
      | Raise Full => Some (PExited, q, [])
      end
  | PExited => None
  end.

Inductive stream_end : Type :=
| Running
| Returned
| RaisedValueError (e : ValueError)
| RaisedEngineError (e : TTSEngineError)
| Closed.

Inductive consumer : Type :=
| CGet
| CYield
| CDrain (cause : stream_end)
| CJoin (cause : stream_end)
| CDone (cause : stream_end).

(** What can happen next: the producer thread runs, the consumer side is
    resumed, [audio_queue.get] times out, the client closes the stream. *)
Inductive action : Type :=
| Produce
| Consume
| GetTimeout
| Close.

Record pipeline : Type := mkPipeline {
  producer_of : producer;
  consumer_of : consumer;
  audio_queue : queue;
  yielded : list bytes;
  events : list event
}.

Definition pipeline_step (a : action) (s : pipeline) : pipeline :=
  match a, consumer_of s with
  | Produce, _ =>
      match producer_step (producer_of s) (audio_queue s) with
      | Some (p', q', evs) =>
          mkPipeline p' (consumer_of s) q' (yielded s) (events s ++ evs)
      | None => s
      end
  | Consume, CGet =>
      match audio_queue s with
      | [] => s
      | EndOfStream :: q' =>
          mkPipeline (producer_of s) (CDrain Returned) q' (yielded s) (events s)
      | Failure e :: q' =>
          mkPipeline (producer_of s) (CDrain (RaisedEngineError e)) q'
                     (yielded s) (events s)
      | Audio data :: q' =>
          mkPipeline (producer_of s) CYield q' (yielded s ++ [data]) (events s)
      end
  | GetTimeout, CGet =>
      match audio_queue s with
      | [] => mkPipeline (producer_of s)
                         (CDrain (RaisedEngineError ConsumerStarved))
                         (audio_queue s) (yielded s) (events s)
      | _ :: _ => s
      end
  | Consume, CYield =>
      mkPipeline (producer_of s) CGet (audio_queue s) (yielded s) (events s)
  | Close, CYield =>
      mkPipeline (producer_of s) (CDrain Closed) (audio_queue s) (yielded s) (events s)
  | Consume, CDrain c =>
      mkPipeline (producer_of s) (CJoin c) [] (yielded s) (events s)
  | Consume, CJoin c =>
      mkPipeline (producer_of s) (CDone c) (audio_queue s) (yielded s)
                 (events s ++ match producer_of s with
                              | PExited => []
                              | _ => [EvProducerAlive]
                              end)
  | _, _ => s
  end.

Definition run_pipeline (sched : list action) (s : pipeline) : pipeline :=
  fold_left (fun st a => pipeline_step a st) sched s.

End Pipeline.

(** What a caller of [stream] has seen once the schedule is used up. *)
Record stream_run : Type := mkRun {
  run_events : list event;
  run_yielded : list bytes;
  run_end : stream_end
}.

Definition override_given (o : option str) : bool :=
  match o with Some s => truthy s | None => false end.

(** [TTSEngine.stream] *)
Definition stream (svc : service) (self : TTSEngine) (text : str)
    (rate_arg volume_arg : option str) (sched : list action) : stream_run :=
  if negb (truthy text) || negb (truthy (strip text)) then mkRun [] [] Returned
  else
    match (if override_given rate_arg
           then _validate_percent_string (match rate_arg with Some r => r | None => [] end)
                                         (lit "rate")
           else Ok (rate self)) with
    | Raise e => mkRun [] [] (RaisedValueError e)
    | Ok final_rate =>
        match (if override_given volume_arg
               then _validate_percent_string
                      (match volume_arg with Some v => v | None => [] end)
                      (lit "volume")
               else Ok (volume self)) with
        | Raise e => mkRun [] [] (RaisedValueError e)
        | Ok final_volume =>
            let s0 := mkPipeline (PNextChunk (_chunk_text text)) CGet []
                                 [] [EvQueueCreated QUEUE_MAX_SIZE; EvThreadStarted] in
            let s := run_pipeline svc (voice self) final_rate final_volume sched s0 in
            mkRun (events s) (yielded s)
                  (match consumer_of s with CDone c => c | _ => Running end)
        end
    end.

(** ** Paths ([pathlib], POSIX flavour)

    A path is the list of its components below the root. *)

Definition Path := list str.

Definition str_eq_dec : forall a b : str, {a = b} + {a <> b} :=
  list_eq_dec N.eq_dec.

Definition path_eq_dec : forall a b : Path, {a = b} + {a <> b} :=
  list_eq_dec str_eq_dec.

Definition SLASH : char := chr "/".
Definition DOT : char := chr ".".

(** The components of one path segment: split at the separator, empty
    components and [.] dropped. *)
Definition parse_parts (segment : str) : list str :=
  filter (fun c => truthy c && negb (if str_eq_dec c [DOT] then true else false))
         (split SLASH segment).

(** [p / segment]: an absolute segment replaces [p]. *)
Definition joinpath (p : Path) (segment : str) : Path :=
  match segment with
  | c :: _ => if N.eqb c SLASH then parse_parts segment
              else p ++ parse_parts segment
  | [] => p
  end.

(** [p.name] *)
Definition name (p : Path) : str := last p [].

(** The suffix of a file name: from its last dot, unless that dot is the
    first or the last character. *)
Definition name_suffix (n : str) : str :=
  match last_index DOT n with
  | Some i => if (0 <? i) && (i <? length n - 1) then skipn i n else []
  | None => []
  end.

(** [p.suffix] *)
Definition suffix (p : Path) : str := name_suffix (name p).

(** [p.with_suffix(sfx)] for the two suffixes the application passes and a
    path with a name; [pathlib] raises [ValueError] on a path without a
    name, which [get_path_from_key] never returns. *)
Definition with_suffix (p : Path) (sfx : str) : Path :=
  match name p with
  | [] => p
  | n => removelast p ++ [firstn (length n - length (name_suffix n)) n ++ sfx]
  end.

(** ** modules/Cache_manager.py: paths and the cache store *)

Definition CACHE_DIR_NAME : str := lit "audio_cache".

Definition fs := Path -> option bytes.

Definition fs_empty : fs := fun _ => None.

Definition fs_write (p : Path) (data : bytes) (f : fs) : fs :=
  fun x => if path_eq_dec x p then Some data else f x.

Definition fs_remove (p : Path) (f : fs) : fs :=
  fun x => if path_eq_dec x p then None else f x.

Definition fs_exists (p : Path) (f : fs) : bool :=
  match f p with Some _ => true | None => false end.

(** [Path.touch()]: an absent file is created empty. *)
Definition fs_touch (p : Path) (f : fs) : fs :=
  if fs_exists p f then f else fs_write p [] f.

Section CacheStore.

(** The directory that holds the [modules] package:
    [Path(__file__).resolve().parent.parent]. *)
Variable app_root : Path.

Definition CACHE_DIR_PATH : Path := joinpath app_root CACHE_DIR_NAME.

Definition get_path_from_key (key : str) : Path :=
  joinpath CACHE_DIR_PATH (key ++ lit ".mp3").

Definition check_cache_exists (file_path : Path) (f : fs) : bool :=
  fs_exists file_path f.

(** [touch_cache_file]: only the times of the file change, which this
    store does not record. *)
Definition touch_cache_file (file_path : Path) (f : fs) : fs := f.

End CacheStore.

(** ** app.py: [generate_and_cache] *)

(** How the [for chunk in tts_engine.stream(content)] loop is left: the
    stream is exhausted, the stream raises, or the client closes the
    response at the last [yield]. *)
Inductive loop_end : Type :=
| StreamReturned
| StreamRaised (e : TTSEngineError)
| ClientClosed.

Inductive gen_end : Type :=
| GenNotStarted
| GenReturned
| GenRaisedEngine (e : TTSEngineError)
| GenRaisedFileNotFound
| GenClosed.

(** A run of the generator: the frames handed on, the state of the store
    after each file operation in order, and the way the run ended. *)
Record gen_run : Type := mkGenRun {
  gen_yielded : list bytes;
  gen_trace : list fs;
  gen_end_ : gen_end
}.

Definition gen_final (f0 : fs) (r : gen_run) : fs := last (gen_trace r) f0.

(** The [with temp_path.open('wb') as f] loop: every frame is appended to
    the temp file, then handed on. *)
Fixpoint write_frames (temp_path : Path) (frames : list bytes)
    (written : bytes) (f : fs) : list fs * bytes :=
  match frames with
  | [] => ([], written)
  | chunk :: rest =>
      let f' := fs_write temp_path (written ++ chunk) f in
      let '(tr, w) := write_frames temp_path rest (written ++ chunk) f' in
      (f' :: tr, w)
  end.

(** The [finally] block. *)
Definition gen_finally (temp_path : Path) (success : bool) (f : fs) : list fs :=
  if negb success && fs_exists temp_path f then [fs_remove temp_path f] else [].

Definition generate_and_cache (final_path : Path) (frames : list bytes)
    (e : loop_end) (f0 : fs) : gen_run :=
  match frames, e with
  | [], ClientClosed => mkGenRun [] [] GenNotStarted
  | _, _ =>
      let temp_path := with_suffix final_path (lit ".mp3.tmp") in
      let f1 := fs_write temp_path [] f0 in
      let '(tr, written) := write_frames temp_path frames [] f1 in
      let f2 := last tr f1 in
      match e with
      | StreamReturned =>
          match f2 temp_path with
          | Some data =>
              let f3 := fs_write final_path data (fs_remove temp_path f2) in
              mkGenRun frames (f1 :: tr ++ [f3] ++ gen_finally temp_path true f3)
                       GenReturned
          | None =>
              mkGenRun frames (f1 :: tr ++ gen_finally temp_path false f2)
                       GenRaisedFileNotFound
          end
      | StreamRaised err =>
          mkGenRun frames (f1 :: tr ++ gen_finally temp_path false f2)
                   (GenRaisedEngine err)
      | ClientClosed =>
          mkGenRun frames (f1 :: tr ++ gen_finally temp_path false f2) GenClosed
      end
  end.

(** ** app.py: [generate_and_cache] run by several requests

    Several response bodies at work in one cache directory.  The store is a
    POSIX file system as far as [open], [write], [close], [rename],
    [exists] and [unlink] show it: a path names a file, and a file that is
    open stays with whoever opened it, whatever becomes of its name.  Every
    file operation of a body is one step; between two steps of one body the
    others may take steps of theirs. *)

Record disk : Type := mkDisk {
  (** the file each path names *)
  names : Path -> option nat;
  (** what each file holds *)
  file_data : nat -> bytes;
  (** the number of the next file created *)
  next_file : nat
}.

(** The store as [read_stream] sees it. *)
Definition fs_of (d : disk) : fs :=
  fun p => option_map (file_data d) (names d p).

Definition bind (p : Path) (i : option nat) (n : Path -> option nat)
  : Path -> option nat :=
  fun x => if path_eq_dec x p then i else n x.

Definition store (i : nat) (b : bytes) (c : nat -> bytes) : nat -> bytes :=
  fun j => if Nat.eqb j i then b else c j.

(** A file object opened for writing: its file, the position of the next
    write of the operating system, and the bytes written to the object and
    not yet handed on. *)
Record file : Type := mkFile {
  f_file : nat;
  f_pos : nat;
  f_buffer : bytes
}.

(** [open(p, 'wb')]: a file of that name is emptied, else a new file gets
    the name. *)
Definition open_wb (p : Path) (d : disk) : file * disk :=
  match names d p with
  | Some i =>
      (mkFile i 0 [],
       mkDisk (names d) (store i [] (file_data d)) (next_file d))
  | None =>
      (mkFile (next_file d) 0 [],
       mkDisk (bind p (Some (next_file d)) (names d))
              (store (next_file d) [] (file_data d)) (S (next_file d)))
  end.

(** A write of the operating system at a position: the bytes replace what
    the file holds there, and a gap before them reads as zeros. *)
Definition pwrite (pos : nat) (b old : bytes) : bytes :=
  match b with
  | [] => old
  | _ => firstn pos old ++ repeat Byte.x00 (pos - length old) ++ b
         ++ skipn (pos + length b) old
  end.

Definition os_write (f : file) (b : bytes) (d : disk) : disk :=
  mkDisk (names d)
         (store (f_file f) (pwrite (f_pos f) b (file_data d (f_file f)))
                (file_data d))
         (next_file d).

(** [f.write(chunk)]: the bytes join the buffer, and the object hands a
    first part of the buffer to the operating system; how much is up to
    the object ([handed], from the size of the buffer and of the chunk). *)
Definition file_write (handed : nat -> nat -> nat) (f : file) (chunk : bytes)
    (d : disk) : file * disk :=
  let buffer := f_buffer f ++ chunk in
  let n := handed (length (f_buffer f)) (length chunk) in
  (mkFile (f_file f) (f_pos f + length (firstn n buffer)) (skipn n buffer),
   os_write f (firstn n buffer) d).

(** Closing the file hands on what the buffer still holds. *)
Definition file_close (f : file) (d : disk) : disk :=
  os_write f (f_buffer f) d.

(** [temp_path.rename(final_path)] for a temp path that names file [i]. *)
Definition rename_to (temp_path final_path : Path) (i : nat) (d : disk) : disk :=
  mkDisk (bind final_path (Some i) (bind temp_path None (names d)))
         (file_data d) (next_file d).

Definition unlink (p : Path) (d : disk) : disk :=
  mkDisk (bind p None (names d)) (file_data d) (next_file d).

(** One response body: its final path, the frames [tts_engine.stream]
    hands it before the loop is left, the way it is left, and the
    buffering of its file object. *)
Record generation : Type := mkGeneration {
  g_final_path : Path;
  g_frames : list bytes;
  g_end : loop_end;
  g_handed : nat -> nat -> nat
}.

(** Where a body stands. *)
Inductive gen_state : Type :=
| GOpen
| GLoop (f : file) (todo : list bytes)
| GRename
| GFinally (cause : gen_end)
| GUnlink (cause : gen_end)
| GDone (e : gen_end).

(** A body that the client closes before asking for a frame never runs. *)
Definition gen_start (g : generation) : gen_state :=
  match g_frames g, g_end g with
  | [], ClientClosed => GDone GenNotStarted
  | _, _ => GOpen
  end.

(** The next file operation of a body. *)
Definition gen_step (g : generation) (s : gen_state) (d : disk)
  : gen_state * disk :=
  let final_path := g_final_path g in
  let temp_path := with_suffix final_path (lit ".mp3.tmp") in
  match s with
  | GOpen =>
      let '(f, d') := open_wb temp_path d in (GLoop f (g_frames g), d')
  | GLoop f (chunk :: rest) =>
      let '(f', d') := file_write (g_handed g) f chunk d in (GLoop f' rest, d')
  | GLoop f [] =>
      let d' := file_close f d in
      match g_end g with
      | StreamReturned => (GRename, d')
      | StreamRaised err => (GFinally (GenRaisedEngine err), d')
      | ClientClosed => (GFinally GenClosed, d')
      end
  | GRename =>
      match names d temp_path with
      | Some i => (GDone GenReturned, rename_to temp_path final_path i d)
      | None => (GFinally GenRaisedFileNotFound, d)
      end
  | GFinally cause =>
      match names d temp_path with
      | Some _ => (GUnlink cause, d)
      | None => (GDone cause, d)
      end
  | GUnlink cause =>
      match names d temp_path with
      | Some _ => (GDone cause, unlink temp_path d)
      | None => (GDone GenRaisedFileNotFound, d)
      end
  | GDone e => (GDone e, d)
  end.

(** The steps a body takes while no other body takes one. *)
Fixpoint gen_steps (g : generation) (n : nat) (s : gen_state) (d : disk)
  : gen_state * disk :=
  match n with
  | O => (s, d)
  | S n' => let '(s', d') := gen_step g s d in gen_steps g n' s' d'
  end.

(** Two bodies and the store they share. *)
Inductive turn : Type :=
| First
| Second.

Record shared : Type := mkShared {
  first_body : gen_state;
  second_body : gen_state;
  the_disk : disk
}.

Definition shared_step (g1 g2 : generation) (s : shared) (t : turn) : shared :=
  match t with
  | First =>
      let '(b, d) := gen_step g1 (first_body s) (the_disk s) in
      mkShared b (second_body s) d
  | Second =>
      let '(b, d) := gen_step g2 (second_body s) (the_disk s) in
      mkShared (first_body s) b d
  end.

Definition shared_run (g1 g2 : generation) (sched : list turn) (s : shared)
  : shared :=
  fold_left (shared_step g1 g2) sched s.

(** A file system without hard links: no two paths name one file, and
    every file that has a name was created. *)
Definition disk_ok (d : disk) : Prop :=
  (forall p q i, names d p = Some i -> names d q = Some i -> p = q)
  /\ (forall p i, names d p = Some i -> i < next_file d).



(** ** app.py: [get_metadata_with_cache] and [read_stream] *)

Record metadata : Type := mkMetadata {
  title : str;
  content : str;
  next_url : option str;
  prev_url : option str
}.

(** The module-level dict [metadata_cache]. *)
Definition metadata_cache := list (str * metadata).

Fixpoint cache_get (url : str) (c : metadata_cache) : option metadata :=
  match c with
  | [] => None
  | (k, v) :: c' => if str_eq_dec k url then Some v else cache_get url c'
  end.

Definition cache_set (url : str) (m : metadata) (c : metadata_cache)
  : metadata_cache :=
  (url, m) :: filter (fun kv => if str_eq_dec (fst kv) url then false else true) c.

Record world : Type := mkWorld {
  files : fs;
  cached_metadata : metadata_cache
}.

Inductive body : Type :=
| FromCache (final_path : Path)
| Generate (final_path : Path) (text : str).

Inductive response : Type :=
| Json (status : nat)
| Streaming (b : body).

(** [s[:n]] for any integer [n]: a negative [n] counts from the end of
    the string. *)
Definition slice_to (s : str) (n : Z) : str :=
  if (n <? 0)%Z then firstn (length s - Z.to_nat (- n)) s
  else firstn (Z.to_nat n) s.

(** The limit on the length of a text when the environment sets none. *)
Definition DEFAULT_MAX_CONTENT_LENGTH : Z := 200000.

Section App.

Variable app_root : Path.
(** [hashlib.md5(url.encode()).hexdigest()]; the URL is decoded from the
    query string and holds no lone surrogate, so [encode] does not raise. *)
Variable md5_hexdigest : str -> str.
(** [modules.Extractor.fetch_and_parse] *)
Variable fetch_and_parse : str -> option metadata.
(** The engine built at start-up, if that succeeded. *)
Variable tts_engine : option TTSEngine.
(** The module constant [int(os.getenv('MAX_CONTENT_LENGTH', 200000))]:
    whichever integer the environment gave when app.py was imported. *)
Variable MAX_CONTENT_LENGTH : Z.
(** The sentence appended to a text that was cut. *)
Variable truncation_notice : str.

Definition get_metadata_with_cache (url : str) (c : metadata_cache)
  : option metadata * metadata_cache :=
  match cache_get url c with
  | Some m => (Some m, c)
  | None =>
      match fetch_and_parse url with
      | Some m => if truthy (content m) then (Some m, cache_set url m c)
                  else (Some m, c)
      | None => (None, c)
      end
  end.

(** The view behind [/api/read].  The response is built and returned
    before its body is iterated; the [finally] block of the view runs at
    that return. *)
Definition read_stream (url : option str) (w : world) : response * world :=
  match url with
  | None | Some [] => (Json 400, w)
  | Some u =>
      match tts_engine with
      | None => (Json 503, w)
      | Some _ =>
          let cache_key := md5_hexdigest u in
          let final_path := get_path_from_key app_root cache_key in
          if check_cache_exists final_path (files w) then
            (Streaming (FromCache final_path),
             mkWorld (touch_cache_file final_path (files w)) (cached_metadata w))
          else
            let lock_path := with_suffix final_path (lit ".lock") in
            if fs_exists lock_path (files w) then (Json 429, w)
            else
              let files1 := fs_touch lock_path (files w) in
              let '(m, cache1) := get_metadata_with_cache u (cached_metadata w) in
              let resp :=
                match m with
                | None => Json 422
                | Some md =>
                    if negb (truthy (content md)) then Json 422
                    else
                      let text :=
                        if (MAX_CONTENT_LENGTH <? Z.of_nat (length (content md)))%Z
                        then slice_to (content md) MAX_CONTENT_LENGTH
                             ++ truncation_notice
                        else content md in
                      Streaming (Generate final_path text)
                end in
              let files2 :=
                if fs_exists lock_path files1 then fs_remove lock_path files1
                else files1 in
              (resp, mkWorld files2 cache1)
      end
  end.

End App.

(** ** Python floats

    A [float] is an IEEE 754 double: a rational [m * 2^e] whose mantissa
    [m] has at most 53 bits, or an infinity.  The one float this
    development computes is the size target of the cache, the product of
    an integer and of the quotient of an integer by 100: no operation on
    the way yields a NaN, none has a result other than zero below the
    smallest normal double, and the sign of a zero shows in no
    comparison. *)

Inductive float : Type :=
| Finite (q : Q)
| PosInf
| NegInf.

(** The integer nearest to [n / d], the even one of two that are equally
    near; [0 <= n] and [0 < d]. *)
Definition round_half_even (n d : Z) : Z :=
  let q := (n / d)%Z in
  match (2 * (n mod d) ?= d)%Z with
  | Lt => q
  | Gt => (q + 1)%Z
  | Eq => if Z.even q then q else (q + 1)%Z
  end.

(** [n / d] divided by [2^e], as a fraction of integers. *)
Definition scaled (n d e : Z) : Z * Z :=
  (n * 2 ^ Z.max 0 (- e), d * 2 ^ Z.max 0 e)%Z.

(** [m * 2^e] *)
Definition dyadic (m e : Z) : Q :=
  (m * 2 ^ Z.max 0 e) # Z.to_pos (2 ^ Z.max 0 (- e)).

(** The exponent of the last of the 53 bits of [n / d]: the integer part
    of its binary logarithm, less 52. *)
Definition ulp_exponent (n d : Z) : Z :=
  let e0 := (Z.log2 n - Z.log2 d - 52)%Z in
  let '(n0, d0) := scaled n d e0 in
  if (n0 / d0 <? 2 ^ 52)%Z then (e0 - 1)%Z else e0.

(** [n / d] rounded to 53 bits, for [0 < n] and [0 < d]. *)
Definition round53_pos (n d : Z) : Q :=
  let e := ulp_exponent n d in
  let '(n1, d1) := scaled n d e in
  dyadic (round_half_even n1 d1) e.

(** A rational rounded to the nearest number of 53 bits, to the one with
    an even mantissa when two are equally near; the exponent is not
    bounded here. *)
Definition round53 (x : Q) : Q :=
  match Qnum x with
  | Z0 => 0%Q
  | Zpos n => round53_pos (Zpos n) (Zpos (Qden x))
  | Zneg n => (- round53_pos (Zpos n) (Zpos (Qden x)))%Q
  end.

(** A rounded value out of the range of a double: [2^1024] or more in
    magnitude. *)
Definition too_large (r : Q) : bool :=
  Qle_bool (inject_Z (2 ^ 1024)) r || Qle_bool r (inject_Z (- 2 ^ 1024)).

(** The result of an operation on floats whose exact value is [x]: the
    nearest double, an infinity beyond the largest one. *)
Definition round_to_float (x : Q) : float :=
  let r := round53 x in
  if too_large r then (if Qle_bool 0 r then PosInf else NegInf)
  else Finite r.

(** [n < x] and [n <= x] for an [int] and a [float]: Python compares the
    two exactly. *)
Definition int_lt_float (n : Z) (x : float) : bool :=
  match x with
  | Finite q => negb (Qle_bool q (inject_Z n))
  | PosInf => true
  | NegInf => false
  end.

(** [x == q] for a float and a rational. *)
Definition float_is (x : float) (q : Q) : bool :=
  match x with
  | Finite r => Qeq_bool r q
  | _ => false
  end.


(** ** modules/Cache_manager.py: configuration *)

(** Line 37, [CACHE_MAX_SIZE_BYTES * (CACHE_CLEANUP_TARGET_PERCENT / 100)],
    raises [OverflowError] when the quotient of the two integers, or the
    integer [CACHE_MAX_SIZE_BYTES] converted for the product, is too large
    for a float.  The import of the module then fails. *)
Definition import_raises (max_size_mb target_percent : Z) : bool :=
  too_large (round53 (target_percent # 100))
  || too_large (round53 (inject_Z (max_size_mb * 1024 * 1024))).

(** The three limits of a module that was imported. *)
Record config : Type := mkConfig {
  CACHE_MAX_AGE_DAYS : Z;
  CACHE_MAX_SIZE_MB : Z;
  CACHE_CLEANUP_TARGET_PERCENT : Z;
  module_imported :
    import_raises CACHE_MAX_SIZE_MB CACHE_CLEANUP_TARGET_PERCENT = false
}.

(** The values used when the environment sets none. *)
Definition default_config : config := mkConfig 7 400 70 eq_refl.

Definition CACHE_MAX_SIZE_BYTES (cfg : config) : Z :=
  (CACHE_MAX_SIZE_MB cfg * 1024 * 1024)%Z.

(** The quotient is rounded, the integer is converted (and rounded, above
    [2^53]), and their product is rounded again.  With the default limits
    the result is [293601280.0]; with 400 MB and 55 per cent it is
    [230686720.00000003], not [230686720]. *)
Definition CACHE_CLEANUP_TARGET_BYTES (cfg : config) : float :=
  round_to_float
    (round53 (inject_Z (CACHE_MAX_SIZE_BYTES cfg))
     * round53 (CACHE_CLEANUP_TARGET_PERCENT cfg # 100))%Q.

Definition SECONDS_IN_A_DAY : Z := 86400.
Definition STALE_TEMP_FILE_SECONDS : Z := 3600.

(** [x < y] on rationals, as a boolean. *)
Definition Qltb (x y : Q) : bool := negb (Qle_bool y x).

(** ** modules/Cache_manager.py: what the directory answers

    A cleanup pass sees the cache directory through [iterdir], [is_file],
    [stat] and [unlink].  An entry records the answers the pass gets for
    one path, races with other processes included. *)

Inductive stat_result : Type :=
| StatOk (st_size : Z) (st_mtime : Q)
| StatNotFound
| StatOSError.

Inductive unlink_result : Type :=
| Unlinked
| UnlinkNotFound
| UnlinkOSError.

Record dir_entry : Type := mkEntry {
  e_path : Path;
  e_is_file : bool;
  e_stat : stat_result;
  e_unlink : unlink_result
}.

(** What a pass did with one path. *)
Inductive fate : Type :=
| Deleted
| AlreadyGone
| FailedOSError.

Record age_state : Type := mkAge {
  age_deleted_count : nat;
  age_log : list (Path * fate);
  age_errors : list Path
}.

Definition TEMP_SUFFIXES : list str := [lit ".tmp"; lit ".lock"].

Definition is_temp_suffix (s : str) : bool :=
  existsb (fun t => if str_eq_dec s t then true else false) TEMP_SUFFIXES.

Section Cleanup.

Variable cfg : config.

Definition cutoff_time (now : Q) : Q :=
  (now - inject_Z (CACHE_MAX_AGE_DAYS cfg * SECONDS_IN_A_DAY))%Q.

Definition stale_cutoff_time (now : Q) : Q :=
  (now - inject_Z STALE_TEMP_FILE_SECONDS)%Q.

(** The test [is_old_cache_file or is_stale_temp_file]. *)
Definition age_condemned (now : Q) (p : Path) (mtime : Q) : bool :=
  let is_stale_temp_file :=
    is_temp_suffix (suffix p) && Qltb mtime (stale_cutoff_time now) in
  let is_old_cache_file := Qltb mtime (cutoff_time now) in
  is_old_cache_file || is_stale_temp_file.

(** The body of the loop of [_cleanup_by_age] for one path. *)
Definition age_visit (now : Q) (st : age_state) (e : dir_entry) : age_state :=
  match e_stat e with
  | StatOk _ mtime =>
      if age_condemned now (e_path e) mtime then
        match e_unlink e with
        | Unlinked =>
            mkAge (S (age_deleted_count st))
                  (age_log st ++ [(e_path e, Deleted)]) (age_errors st)
        | UnlinkNotFound =>
            mkAge (age_deleted_count st)
                  (age_log st ++ [(e_path e, AlreadyGone)]) (age_errors st)
        | UnlinkOSError =>
            mkAge (age_deleted_count st)
                  (age_log st ++ [(e_path e, FailedOSError)])
                  (age_errors st ++ [e_path e])
        end
      else st
  | StatNotFound => st
  | StatOSError =>
      mkAge (age_deleted_count st) (age_log st) (age_errors st ++ [e_path e])
  end.

(** [_cleanup_by_age]; [None] for the listing is an [OSError] from
    [iterdir]. *)
Definition _cleanup_by_age (now : Q) (listing : option (list dir_entry))
  : age_state :=
  match listing with
  | Some entries => fold_left (age_visit now) entries (mkAge 0 [] [])
  | None => mkAge 0 [] [[CACHE_DIR_NAME]]
  end.

(** *** The size pass *)

Record file_info : Type := mkInfo {
  fi_entry : dir_entry;
  fi_size : Z;
  fi_mtime : Q
}.

(** The scan: regular files that can be statted, and their total size. *)
Fixpoint size_scan (entries : list dir_entry) (files_to_scan : list file_info)
    (total_size : Z) : list file_info * Z :=
  match entries with
  | [] => (files_to_scan, total_size)
  | e :: rest =>
      if negb (e_is_file e) then size_scan rest files_to_scan total_size
      else
        match e_stat e with
        | StatOk sz mt =>
            size_scan rest (files_to_scan ++ [mkInfo e sz mt])
                      (total_size + sz)%Z
        | StatNotFound => size_scan rest files_to_scan total_size
        | StatOSError => size_scan rest files_to_scan total_size
        end
  end.

(** [list.sort(key=lambda x: x['mtime'])]: ascending and stable. *)
Fixpoint insert_by_mtime (x : file_info) (l : list file_info) : list file_info :=
  match l with
  | [] => [x]
  | y :: l' =>
      if Qle_bool (fi_mtime x) (fi_mtime y) then x :: l
      else y :: insert_by_mtime x l'
  end.

Definition sort_by_mtime (l : list file_info) : list file_info :=
  fold_right insert_by_mtime [] l.

Record size_state : Type := mkSize {
  size_deleted_count : nat;
  size_total : Z;
  (** every [unlink] call: the path, the running total seen by the test
      just before it, and what became of the call *)
  size_log : list (Path * Z * fate)
}.

(** The deletion loop, from the test at its head. *)
Fixpoint size_loop (files : list file_info) (st : size_state) : size_state :=
  match files with
  | [] => st
  | fi :: rest =>
      if int_lt_float (size_total st) (CACHE_CLEANUP_TARGET_BYTES cfg) then st
      else
        let p := e_path (fi_entry fi) in
        let seen := size_total st in
        match e_unlink (fi_entry fi) with
        | Unlinked =>
            size_loop rest
              (mkSize (S (size_deleted_count st)) (seen - fi_size fi)%Z
                      (size_log st ++ [(p, seen, Deleted)]))
        | UnlinkNotFound =>
            size_loop rest
              (mkSize (size_deleted_count st) (seen - fi_size fi)%Z
                      (size_log st ++ [(p, seen, AlreadyGone)]))
        | UnlinkOSError =>
            size_loop rest
              (mkSize (size_deleted_count st) seen
                      (size_log st ++ [(p, seen, FailedOSError)]))
        end
  end.

(** [_cleanup_by_size]; [None] for the listing is an [OSError] from
    [iterdir]. *)
Definition _cleanup_by_size (listing : option (list dir_entry)) : size_state :=
  match listing with
  | None => mkSize 0 0 []
  | Some entries =>
      let '(files_to_scan, total_size) := size_scan entries [] 0%Z in
      if (total_size <? CACHE_MAX_SIZE_BYTES cfg)%Z then mkSize 0 total_size []
      else size_loop (sort_by_mtime files_to_scan) (mkSize 0 total_size [])
  end.

End Cleanup.

(** ** Statements of the specification kept for comparison *)

(** [chomp s] is [Some t] when [s] is [t] followed by one newline. *)
Fixpoint chomp (s : str) : option str :=
  match s with
  | [] => None
  | c :: s' =>
      match s' with
      | [] => if N.eqb c NL then Some [] else None
      | _ :: _ => option_map (cons c) (chomp s')
      end
  end.

(** The backpressure rule as the specification words it: an audio frame
    that meets a full queue displaces the oldest queued item. *)
Definition frames_displace_oldest : Prop :=
  forall (svc : service) (v r vol : str) data pending e todo (q : queue),
    length q = QUEUE_MAX_SIZE ->
    producer_step svc v r vol (PInChunk (AudioChunk data :: pending) e todo) q
    = Some (PInChunk pending e todo, tl q ++ [Audio data], []).

(** The fate recorded for an [unlink] call. *)
Definition fate_of (u : unlink_result) : fate :=
  match u with
  | Unlinked => Deleted
  | UnlinkNotFound => AlreadyGone
  | UnlinkOSError => FailedOSError
  end.


(** The [unlink] calls of the size pass on the files [done], starting from
    the running total [total]: the log they leave. *)
Fixpoint running (total : Z) (done : list file_info) : list (Path * Z * fate) :=
  match done with
  | [] => []
  | fi :: rest =>
      (e_path (fi_entry fi), total, fate_of (e_unlink (fi_entry fi)))
      :: running (match e_unlink (fi_entry fi) with
                  | UnlinkOSError => total
                  | _ => (total - fi_size fi)%Z
                  end) rest
  end.

(** The bytes taken off the running total by these calls: the sizes of the
    files deleted or found already missing. *)
Fixpoint freed (done : list file_info) : Z :=
  match done with
  | [] => 0%Z
  | fi :: rest =>
      match e_unlink (fi_entry fi) with
      | UnlinkOSError => freed rest
      | _ => (fi_size fi + freed rest)%Z
      end
  end.


Definition unlinked (fi : file_info) : bool :=
  match e_unlink (fi_entry fi) with Unlinked => true | _ => false end.


(** ** Proof automation *)

(** Case analysis on every character test left in the goal. *)
Ltac split_on_character_tests :=
  repeat (match goal with
          | |- context [N.eqb ?c NL] => destruct (N.eqb c NL)
          | |- context [is_sign ?c] => destruct (is_sign c)
          | |- context [is_digit ?c] => destruct (is_digit c)
          | |- context [is_percent ?c] => destruct (is_percent c)
          end;
          cbn [option_map signed_percentage andb orb]).

(** ** modules/Cache_manager.py: [stream_from_path] *)




(** ** modules/Tts.py: [create_tts_engine] and the start of app.py *)

(** The process environment, [os.getenv(name, default)]. *)
Definition environ := str -> option str.

Definition getenv (env : environ) (var default : str) : str :=
  match env var with Some v => v | None => default end.

(** [create_tts_engine]: the [ValueError] of the constructor is logged and
    raised again. *)
Definition create_tts_engine (env : environ) : result ValueError TTSEngine :=
  TTSEngine_init (getenv env (lit "TTS_VOICE") (lit "vi-VN-HoaiMyNeural"))
                 (getenv env (lit "TTS_RATE") (lit "+0%"))
                 (getenv env (lit "TTS_VOLUME") (lit "+0%")).

(** The module-level [tts_engine = create_tts_engine()] of app.py: the
    call stands outside any [try], so a [ValueError] ends the import; a
    [TTSEngine] object is true in [if not tts_engine]. *)
Definition app_tts_engine (env : environ) : result ValueError (option TTSEngine) :=
  match create_tts_engine env with
  | Ok e => Ok (Some e)
  | Raise e => Raise e
  end.

(** ** app.py: [get_metadata] *)

Inductive metadata_response : Type :=
| MetadataOk (title_ : str) (next_url_ prev_url_ : option str)
| MetadataError (status : nat).

Section Metadata.

Variable fetch_and_parse : str -> option metadata.

(** The view behind [/api/metadata].  [fetch_and_parse] catches its own
    errors and returns [None], so the [except] branch of the view (500) has
    no run here. *)
Definition get_metadata (url : option str) (c : metadata_cache)
  : metadata_response * metadata_cache :=
  match url with
  | None | Some [] => (MetadataError 400, c)
  | Some u =>
      let '(m, c') := get_metadata_with_cache fetch_and_parse u c in
      match m with
      | Some md =>
          if truthy (title md)
          then (MetadataOk (title md) (next_url md) (prev_url md), c')
          else (MetadataError 422, c')
      | None => (MetadataError 422, c')
      end
  end.

End Metadata.

(** ** Order-preserving selections *)

(** [subseq a b]: [a] is [b] with some elements left out. *)
Inductive subseq (A : Type) : list A -> list A -> Prop :=
| subseq_nil : subseq [] []
| subseq_keep (x : A) (a b : list A) : subseq a b -> subseq (x :: a) (x :: b)
| subseq_drop (x : A) (a b : list A) : subseq a b -> subseq a (x :: b).

(** ** The frames a run of the pipeline is about *)

Definition audio_of (chunks : list tts_chunk) : list bytes :=
  flat_map (fun c => match c with AudioChunk d => [d] | OtherChunk => [] end)
           chunks.

(** The audio data held in the queue, oldest first. *)
Definition queued (q : queue) : list bytes :=
  flat_map (fun x => match x with Audio d => [d] | _ => [] end) q.

Definition service_calls (evs : list event) : list str :=
  flat_map (fun ev => match ev with EvServiceCalled c => [c] | _ => [] end) evs.

Section Planned.

Variable svc : service.
Variable final_voice final_rate final_volume : str.

(** The audio data the service delivers for the chunks [todo], in order,
    up to and including the first chunk whose synthesis does not end well. *)
Fixpoint planned (todo : list str) : list bytes :=
  match todo with
  | [] => []
  | text_chunk :: rest =>
      if negb (truthy (strip text_chunk)) then planned rest
      else
        audio_of (fst (svc text_chunk final_voice final_rate final_volume))
        ++ match snd (svc text_chunk final_voice final_rate final_volume) with
           | SynthDone => planned rest
           | _ => []
           end
  end.

(** The audio data the producer has still to put. *)
Definition remaining (p : producer) : list bytes :=
  match p with
  | PNextChunk todo => planned todo
  | PInChunk pending e todo =>
      audio_of pending ++ match e with SynthDone => planned todo | _ => [] end
  | _ => []
  end.

(** The chunks for which the producer has still to call the service. *)
Definition chunks_ahead (p : producer) : list str :=
  match p with
  | PNextChunk todo => filter (fun c => truthy (strip c)) todo
  | PInChunk _ SynthDone todo => filter (fun c => truthy (strip c)) todo
  | _ => []
  end.

End Planned.

(** The sizes of some files, added up. *)
Definition sizes (l : list file_info) : Z :=
  fold_right (fun fi acc => (fi_size fi + acc)%Z) 0%Z l.

(** The files of [done] that an [unlink] failing with another [OSError]
    left in the directory. *)
Definition kept_by_error (done : list file_info) : list file_info :=
  filter (fun fi => match e_unlink (fi_entry fi) with
                    | UnlinkOSError => true
                    | _ => false
                    end) done.



(** The rate or volume in force for a call of [stream]: the override when
    one is given and is not empty, the engine's own value otherwise. *)
Definition in_force (override : option str) (own : str) : str :=
  match override with
  | Some s => if truthy s then s else own
  | None => own
  end.

(** The bound on the queue that the terminal items of the producer still
    need: one slot for the sentinel, one more for an error item before it. *)
Definition slots_needed (svc : service) (v r vol : str) (p : producer) : nat :=
  match p with
  | PNextChunk _ | PInChunk _ _ _ => length (remaining svc v r vol p) + 2
  | PHandler _ => 2
  | PFinally propagating => if propagating then 2 else 1
  | PSupervisor => 1
  | PExited => 0
  end.

Definition is_audio (x : item) : bool :=
  match x with Audio _ => true | _ => false end.

Definition in_loop (c : consumer) : bool :=
  match c with CGet | CYield => true | _ => false end.

Definition before_finally (p : producer) : bool :=
  match p with PNextChunk _ | PInChunk _ _ _ => true | _ => false end.

(** The frames yielded, the frames queued and the frames still to come. *)
Definition on_the_way (svc : service) (v r vol : str) (s : pipeline) : list bytes :=
  yielded s ++ queued (audio_queue s) ++ remaining svc v r vol (producer_of s).

(** A queue of audio items followed by terminal items only. *)
Fixpoint audio_then_terminal (q : queue) : bool :=
  match q with
  | [] => true
  | x :: q' =>
      if is_audio x then audio_then_terminal q'
      else forallb (fun y => negb (is_audio y)) q'
  end.

(** The cause with which the consumer has left its loop, if it has. *)
Definition ended (c : consumer) : option stream_end :=
  match c with
  | CDrain e | CJoin e | CDone e => Some e
  | CGet | CYield => None
  end.

(** What holds of a run in which the queue never fills: there is room for
    all that is still to be put; what was yielded is a first part of the
    frames [all] of the run; while the consumer is in its loop no frame is
    missing and the queue holds its audio items before its terminal items;
    and once the consumer has left the loop through the sentinel, all the
    frames were yielded. *)
Definition on_schedule (svc : service) (v r vol : str) (all : list bytes)
    (s : pipeline) : Prop :=
  length (audio_queue s) + slots_needed svc v r vol (producer_of s)
  <= QUEUE_MAX_SIZE
  /\ (exists rest, yielded s ++ rest = all)
  /\ (in_loop (consumer_of s) = true ->
      on_the_way svc v r vol s = all
      /\ audio_then_terminal (audio_queue s) = true
      /\ (before_finally (producer_of s) = true ->
          forallb is_audio (audio_queue s) = true))
  /\ (ended (consumer_of s) = Some Returned -> yielded s = all).

(** * Properties *)

(** ** Strings *)

Lemma last_index_lt (c : char) (s : str) (i : nat) :
  last_index c s = Some i -> i < length s.
Proof.
  revert i; induction s as [|x s IH]; simpl; intros i H; [discriminate|].
  destruct (last_index c s) as [j|].
  - injection H as <-. specialize (IH j eq_refl). lia.
  - destruct (N.eqb x c); [injection H as <-; lia | discriminate].
Qed.

Lemma slice_length_le (s : str) (a b : nat) : length (slice s a b) <= b - a.
Proof. unfold slice. rewrite length_firstn. lia. Qed.

Lemma rfind_bounds (c : char) (s : str) (a b e : nat) :
  rfind c s a b = Some e -> a <= e /\ e < a + (b - a).
Proof.
  unfold rfind. destruct (last_index c (slice s a b)) as [i|] eqn:E; simpl;
    [|discriminate].
  intros [= <-]. apply last_index_lt in E.
  pose proof (slice_length_le s a b). lia.
Qed.

Lemma lstrip_all_space (s : str) : forallb isspace s = true -> lstrip s = [].
Proof.
  induction s as [|c s IH]; simpl; [reflexivity|].
  destruct (isspace c); simpl; [exact IH | discriminate].
Qed.

Lemma strip_all_space (s : str) : forallb isspace s = true -> strip s = [].
Proof. intros H. unfold strip. rewrite (lstrip_all_space s H). reflexivity. Qed.

(** ** The chunker *)

(** The fuel given to the loop never runs out before the paragraph does. *)
Lemma force_split_loop_fuel (size : nat) (p : str) :
  forall n m start,
    length p - start <= n -> length p - start <= m ->
    force_split_loop size n p start = force_split_loop size m p start.
Proof.
  induction n as [|n IH]; intros m start Hn Hm.
  - destruct m as [|m]; simpl; [reflexivity|].
    destruct (Nat.ltb_spec start (length p)); [lia | reflexivity].
  - destruct m as [|m]; simpl.
    + destruct (Nat.ltb_spec start (length p)); [lia | reflexivity].
    + destruct (Nat.ltb_spec start (length p)); [|reflexivity].
      f_equal.
      destruct (rfind SP p start (start + size)) as [e|] eqn:E.
      * destruct (Nat.leb_spec e start); apply IH; lia.
      * apply IH; lia.
Qed.

Lemma force_split_loop_bound (size : nat) (p : str) :
  forall fuel start c,
    In c (force_split_loop size fuel p start) -> length c <= size.
Proof.
  induction fuel as [|fuel IH]; simpl; intros start c H; [contradiction|].
  destruct (start <? length p); [|contradiction].
  destruct H as [<- | H]; [|exact (IH _ _ H)].
  destruct (rfind SP p start (start + size)) as [e|] eqn:E.
  - apply rfind_bounds in E.
    destruct (Nat.leb_spec e start).
    + pose proof (slice_length_le p start (start + size)). lia.
    + pose proof (slice_length_le p start e). lia.
  - pose proof (slice_length_le p start (start + size)). lia.
Qed.

Lemma chunk_paragraphs_bound (size : nat) :
  forall paragraphs current_chunk c,
    length current_chunk <= size ->
    In c (chunk_paragraphs size paragraphs current_chunk) ->
    length c <= size.
Proof.
  induction paragraphs as [|p rest IH]; simpl; intros cur c Hcur H.
  - destruct (truthy (strip cur)); [|contradiction].
    destruct H as [<- | []]. exact Hcur.
  - destruct (Nat.leb_spec size (length p)).
    + apply in_app_or in H. destruct H as [H | H].
      * destruct (truthy cur); [|contradiction].
        destruct H as [<- | []]. exact Hcur.
      * apply in_app_or in H. destruct H as [H | H].
        -- exact (force_split_loop_bound _ _ _ _ _ H).
        -- apply (IH [] c); [simpl; lia | exact H].
    + destruct (Nat.ltb_spec (length cur + length p + 1) size).
      * apply (IH (cur ++ p ++ [NL]) c); [|exact H].
        rewrite !length_app. simpl. lia.
      * destruct H as [<- | H]; [exact Hcur|].
        apply (IH (p ++ [NL]) c); [|exact H]. rewrite length_app. simpl. lia.
Qed.

(** No chunk is longer than the limit. *)
Lemma chunk_text_length_bound (text c : str) :
  In c (_chunk_text text) -> length c <= TEXT_CHUNK_SIZE.
Proof.
  unfold _chunk_text, chunk_text_sized.
  destruct (negb (truthy text)); [contradiction|].
  apply chunk_paragraphs_bound. simpl. lia.
Qed.

(** *** What the chunker keeps

    When no paragraph reaches the limit, the oversized-paragraph loop is
    never entered and the chunks joined together hold the characters of the
    text that are not whitespace, all of them and in order. *)

Lemma non_space_app (a b : str) : non_space (a ++ b) = non_space a ++ non_space b.
Proof. apply filter_app. Qed.

Lemma split_not_nil (sep : char) (s : str) : split sep s <> [].
Proof.
  destruct s as [|c s]; cbn [split]; [discriminate|].
  destruct (N.eqb c sep); [discriminate|].
  destruct (split sep s); discriminate.
Qed.

Lemma non_space_split (s : str) : non_space (concat (split NL s)) = non_space s.
Proof.
  induction s as [|c s IH]; [reflexivity|]. cbn [split].
  destruct (N.eqb_spec c NL) as [->|_].
  - cbn [concat app]. rewrite IH. reflexivity.
  - destruct (split NL s) as [|p ps] eqn:E; [exfalso; exact (split_not_nil _ _ E)|].
    cbn [concat] in *. rewrite <- app_comm_cons.
    unfold non_space in *. cbn [filter]. rewrite IH. reflexivity.
Qed.

Lemma lstrip_nil (s : str) : lstrip s = [] -> forallb isspace s = true.
Proof.
  induction s as [|c s IH]; cbn [lstrip forallb]; [reflexivity|].
  destruct (isspace c); [exact IH | discriminate].
Qed.

Lemma lstrip_head (s : str) (c : char) (r : str) :
  lstrip s = c :: r -> isspace c = false.
Proof.
  induction s as [|x s IH]; cbn [lstrip]; [discriminate|].
  destruct (isspace x) eqn:E; [exact IH|]. intros [= <- _]. exact E.
Qed.

Lemma all_space_non_space (s : str) : forallb isspace s = true -> non_space s = [].
Proof.
  induction s as [|c s IH]; cbn [forallb]; [reflexivity|].
  intros H. apply andb_true_iff in H. destruct H as [Hc Hs].
  unfold non_space in *. cbn [filter]. rewrite Hc. cbn [negb]. exact (IH Hs).
Qed.

Lemma strip_blank (s : str) : truthy (strip s) = false -> non_space s = [].
Proof.
  unfold strip. intros H.
  destruct (lstrip s) as [|c r] eqn:E.
  - apply all_space_non_space, lstrip_nil. exact E.
  - exfalso. apply lstrip_head in E.
    destruct (lstrip (rev (c :: r))) as [|x t] eqn:E'.
    + apply lstrip_nil in E'. rewrite forallb_forall in E'.
      specialize (E' c). rewrite E' in E; [discriminate|].
      apply in_rev. rewrite rev_involutive. left. reflexivity.
    + cbn [rev] in H. destruct (rev t ++ [x]) eqn:E''; [|discriminate].
      destruct (rev t); discriminate.
Qed.

Lemma chunk_paragraphs_keeps (size : nat) :
  forall paragraphs current_chunk,
    Forall (fun p => length p < size) paragraphs ->
    non_space (concat (chunk_paragraphs size paragraphs current_chunk))
    = non_space current_chunk ++ non_space (concat paragraphs).
Proof.
  induction paragraphs as [|p rest IH]; intros cur Hall; cbn [chunk_paragraphs].
  - cbn [concat]. rewrite app_nil_r.
    destruct (truthy (strip cur)) eqn:E.
    + cbn [concat]. rewrite app_nil_r. reflexivity.
    + rewrite (strip_blank cur E). reflexivity.
  - inversion Hall as [|? ? Hp Hrest]; subst.
    destruct (Nat.leb_spec size (length p)); [lia|].
    cbn [concat]. rewrite (non_space_app p).
    destruct (length cur + length p + 1 <? size).
    + rewrite (IH _ Hrest), !non_space_app.
      change (non_space [NL]) with (@nil char).
      rewrite app_nil_r, app_assoc. reflexivity.
    + cbn [concat]. rewrite non_space_app, (IH _ Hrest), non_space_app.
      change (non_space [NL]) with (@nil char).
      rewrite app_nil_r. reflexivity.
Qed.

Lemma chunk_text_short_paragraphs (text : str) :
  Forall (fun p => length p < TEXT_CHUNK_SIZE) (split NL text) ->
  non_space (concat (_chunk_text text)) = non_space text.
Proof.
  intros H. unfold _chunk_text, chunk_text_sized.
  destruct text as [|c text]; [reflexivity|]. cbn [truthy negb].
  rewrite (chunk_paragraphs_keeps [] H). apply non_space_split.
Qed.

(** C5: the chunker run on a text of 2499 letters, one paragraph that is
    one character short of the limit.  The accumulating branch finds that
    the paragraph does not fit next to the (empty) current chunk and yields
    that empty chunk first; the chunks are the empty string and the
    paragraph with its newline.  The claim that no yielded chunk is empty
    fails here, while the length bound of the claim holds
    ([chunk_text_length_bound]). *)
Theorem chunk_text_yields_empty_chunk :
  let text := repeat (chr "a") 2499 in
  _chunk_text text = [[]; text ++ [NL]] /\ In [] (_chunk_text text).
Proof.
  assert (E : _chunk_text (repeat (chr "a") 2499)
              = [[]; repeat (chr "a") 2499 ++ [NL]]) by (vm_compute; reflexivity).
  cbv zeta. rewrite E. split; [reflexivity | left; reflexivity].
Qed.

(** C4: the chunker run on a paragraph of 2501 letters without a space.
    The forced cut yields the first 2500 letters and then moves [start] one
    past the cut, although no space stands there: the last letter is in no
    chunk, so the chunks joined together differ from the text by a
    character that is not whitespace. *)
Theorem chunk_text_loses_character :
  let text := repeat (chr "a") 2501 in
  _chunk_text text = [repeat (chr "a") 2500]
  /\ non_space (concat (_chunk_text text)) <> non_space text.
Proof.
  assert (E : _chunk_text (repeat (chr "a") 2501) = [repeat (chr "a") 2500])
    by (vm_compute; reflexivity).
  cbv zeta. rewrite E. split; [reflexivity|].
  intros H. apply (f_equal (@length char)) in H.
  vm_compute in H. discriminate.
Qed.

(** ** Percent strings *)

Lemma chomp_spec (s t : str) : chomp s = Some t <-> s = t ++ [NL].
Proof.
  revert t; induction s as [|c s IH]; intros t.
  - split; [discriminate | destruct t; discriminate].
  - destruct s as [|d s].
    + cbn [chomp]. destruct (N.eqb_spec c NL) as [->|Hc]; split.
      * intros [= <-]. reflexivity.
      * destruct t as [|x [|y t]]; intros [=]; subst; reflexivity.
      * discriminate.
      * destruct t as [|x [|y t]]; intros [=]; subst; congruence.
    + change (chomp (c :: d :: s)) with (option_map (cons c) (chomp (d :: s))).
      destruct (chomp (d :: s)) as [t'|]; cbn [option_map]; split.
      * intros [= <-]. rewrite (proj1 (IH t') eq_refl). reflexivity.
      * destruct t as [|x t]; [discriminate|].
        intros [= <- H]. apply IH in H. injection H as ->. reflexivity.
      * discriminate.
      * destruct t as [|x t]; [discriminate|].
        intros [= <- H]. apply IH in H. discriminate.
Qed.

Lemma signed_percentage_long (t : str) :
  6 <= length t -> signed_percentage t = false.
Proof.
  destruct t as [|a [|b [|c [|d [|e [|f t]]]]]]; cbn [length]; try lia.
  intros _. cbn [signed_percentage]. apply andb_false_r.
Qed.

(** What the pattern accepts: a signed percentage, or a signed percentage
    followed by one newline. *)
Lemma percent_re_accepts (s : str) :
  percent_re s
  = signed_percentage s
    || match chomp s with Some t => signed_percentage t | None => false end.
Proof.
  unfold percent_re.
  destruct s as [|c0 [|c1 [|c2 [|c3 [|c4 [|c5 [|c6 s]]]]]]].
  1-7: cbn [re_class re_repeat re_dollar signed_percentage chomp option_map
            pred Nat.eqb andb orb];
       split_on_character_tests; reflexivity.
  rewrite (signed_percentage_long (c0 :: c1 :: c2 :: c3 :: c4 :: c5 :: c6 :: s))
    by (cbn [length]; lia).
  destruct (chomp (c0 :: c1 :: c2 :: c3 :: c4 :: c5 :: c6 :: s)) as [t|] eqn:E.
  - apply chomp_spec in E.
    rewrite (signed_percentage_long t).
    + cbn [re_class re_repeat re_dollar pred Nat.eqb andb orb].
      split_on_character_tests; reflexivity.
    + apply (f_equal (@length char)) in E. rewrite length_app in E.
      cbn [length] in E. lia.
  - cbn [re_class re_repeat re_dollar pred Nat.eqb andb orb].
    split_on_character_tests; reflexivity.
Qed.

(** The validator accepts exactly those strings, and then returns them
    unchanged.  The digits are those of the class [\d]: on a [str] any
    decimal digit of Unicode, not only [0] to [9]. *)
Lemma validate_percent_string_accepts (value name_ : str) :
  (_validate_percent_string value name_ = Ok value
   <-> signed_percentage value = true
       \/ exists t, value = t ++ [NL] /\ signed_percentage t = true)
  /\ (_validate_percent_string value name_ = Ok value
      \/ _validate_percent_string value name_
         = Raise (InvalidFormat name_ value)).
Proof.
  unfold _validate_percent_string. rewrite percent_re_accepts.
  destruct (signed_percentage value) eqn:Es; cbn [orb negb].
  - split; [split; auto | auto].
  - destruct (chomp value) as [t|] eqn:Ec.
    + apply chomp_spec in Ec.
      destruct (signed_percentage t) eqn:Et; cbn [negb].
      * split; [split; eauto | auto].
      * split; [|auto]. split; [discriminate|].
        intros [H | (t' & Ht' & H)]; [discriminate|].
        rewrite Ht' in Ec. apply app_inj_tail in Ec. destruct Ec as [<- _].
        congruence.
    + cbn [negb]. split; [|auto]. split; [discriminate|].
      intros [H | (t' & Ht' & H)]; [discriminate|].
      apply chomp_spec in Ht'. congruence.
Qed.

(** A rate written with the Arabic-Indic digits one and zero (U+0661,
    U+0660) passes the validator. *)
Remark validate_accepts_other_digits :
  let value : str := [chr "+"; 0x661; 0x660; chr "%"]%N in
  _validate_percent_string value (lit "rate") = Ok value.
Proof. reflexivity. Qed.

(** C9: the validator run on ["+10%\n"].  The [$] of the pattern also
    matches just before a newline that ends the string, so this value, which
    is not a sign, digits and a percent character, is returned unchanged
    where the claim has [ValueError]; the engine is built with it. *)
Theorem validate_accepts_trailing_newline :
  let value := lit "+10%" ++ [NL] in
  signed_percentage value = false
  /\ _validate_percent_string value (lit "rate") = Ok value
  /\ TTSEngine_init (lit "vi-VN-HoaiMyNeural") value (lit "+0%")
     = Ok (mkTTSEngine (lit "vi-VN-HoaiMyNeural") value (lit "+0%")).
Proof. cbv zeta. repeat split; vm_compute; reflexivity. Qed.

(** ** [TTSEngine.stream] *)

(** C10: for a text that is empty or all whitespace, [stream] returns at
    once, whatever the service, the overrides and the schedule: nothing is
    yielded, nothing is raised, and the event list is empty, so no queue was
    created, no thread started and the service was not called. *)
Theorem stream_blank_text (svc : service) (self : TTSEngine) (text : str)
    (rate_arg volume_arg : option str) (sched : list action) :
  forallb isspace text = true ->
  stream svc self text rate_arg volume_arg sched = mkRun [] [] Returned.
Proof.
  intros H. unfold stream.
  rewrite (strip_all_space text H). simpl.
  rewrite orb_true_r. reflexivity.
Qed.

Lemma stream_blank_text_witness :
  forallb isspace (lit "  " ++ [NL]) = true
  /\ stream (fun _ _ _ _ => ([AudioChunk []], SynthDone))
            (mkTTSEngine (lit "v") (lit "+0%") (lit "+0%"))
            (lit "  " ++ [NL]) (Some (lit "fast")) None [Produce; Consume]
     = mkRun [] [] Returned.
Proof.
  split; [reflexivity|].
  apply stream_blank_text. reflexivity.
Defined.

(** ** The bounded queue *)

Lemma full_queue_cons (q : queue) :
  length q = QUEUE_MAX_SIZE ->
  exists x q', q = x :: q' /\ length q' = 99.
Proof.
  destruct q as [|x q']; simpl; intros H; [discriminate|].
  exists x, q'. split; [reflexivity|]. unfold QUEUE_MAX_SIZE in H. lia.
Qed.

Lemma put_nowait_full (q : queue) (x : item) :
  length q = QUEUE_MAX_SIZE -> put_nowait QUEUE_MAX_SIZE q x = Raise Full.
Proof. intros H. unfold put_nowait. rewrite H. reflexivity. Qed.

Lemma put_nowait_room (q : queue) (x : item) :
  length q < QUEUE_MAX_SIZE -> put_nowait QUEUE_MAX_SIZE q x = Ok (q ++ [x]).
Proof.
  intros H. unfold put_nowait.
  destruct (Nat.leb_spec QUEUE_MAX_SIZE (length q)); [lia|].
  rewrite andb_false_r. reflexivity.
Qed.

Lemma safe_put_full (q : queue) (x : item) :
  length q = QUEUE_MAX_SIZE -> _safe_put QUEUE_MAX_SIZE q x = Ok (tl q ++ [x]).
Proof.
  intros H. unfold _safe_put. rewrite (put_nowait_full q x H).
  destruct (full_queue_cons q H) as (y & q' & -> & Hq'). simpl.
  apply put_nowait_room. unfold QUEUE_MAX_SIZE. lia.
Qed.

(** [_safe_put] on the application's queue never lets [queue.Full] out. *)
Lemma safe_put_never_raises (q : queue) (x : item) :
  length q <= QUEUE_MAX_SIZE -> exists q', _safe_put QUEUE_MAX_SIZE q x = Ok q'.
Proof.
  intros H. destruct (Nat.eq_dec (length q) QUEUE_MAX_SIZE) as [E|E].
  - eexists. apply safe_put_full. exact E.
  - exists (q ++ [x]). unfold _safe_put. rewrite put_nowait_room by lia.
    reflexivity.
Qed.

(** C3, as stated, fails: with one hundred frames queued the producer's
    next audio frame displaces nothing, the producer has no move. *)
Lemma frames_do_not_displace_oldest : ~ frames_displace_oldest.
Proof.
  intros H.
  specialize (H (fun _ _ _ _ => ([], SynthDone)) [] [] [] [] [] SynthDone []
                (repeat (Audio []) QUEUE_MAX_SIZE) (repeat_length _ _)).
  vm_compute in H. discriminate.
Qed.

(** C3, amended: on a full queue an audio frame is not enqueued and nothing
    is dropped: the producer waits in the blocking [put], however often it
    is scheduled, and appends the frame once there is room.  The drop of the
    single oldest item is the policy of [_safe_put], which the producer
    uses for its error items and for the end-of-stream sentinel only. *)
Theorem full_queue_policy (svc : service) (v r vol : str) (q : queue) :
  length q = QUEUE_MAX_SIZE ->
  (forall data pending e todo,
      producer_step svc v r vol (PInChunk (AudioChunk data :: pending) e todo) q
      = None)
  /\ (forall data pending e todo c ys evs n,
         run_pipeline svc v r vol (repeat Produce n)
           (mkPipeline (PInChunk (AudioChunk data :: pending) e todo) c q ys evs)
         = mkPipeline (PInChunk (AudioChunk data :: pending) e todo) c q ys evs)
  /\ (forall data pending e todo,
         producer_step svc v r vol
           (PInChunk (AudioChunk data :: pending) e todo) (tl q)
         = Some (PInChunk pending e todo, tl q ++ [Audio data], []))
  /\ (forall x, _safe_put QUEUE_MAX_SIZE q x = Ok (tl q ++ [x])
                /\ length (tl q ++ [x]) = QUEUE_MAX_SIZE)
  /\ (forall e, producer_step svc v r vol (PHandler e) q
                = Some (PFinally false, tl q ++ [Failure e], []))
  /\ producer_step svc v r vol (PFinally false) q
     = Some (PExited, tl q ++ [EndOfStream], []).
Proof.
  intros H.
  assert (Hblock : forall data pending e todo,
             producer_step svc v r vol
               (PInChunk (AudioChunk data :: pending) e todo) q = None).
  { intros. simpl. rewrite H. reflexivity. }
  destruct (full_queue_cons q H) as (y & q' & Hq & Hq').
  repeat split.
  - exact Hblock.
  - intros. unfold run_pipeline.
    induction n as [|n IH]; [reflexivity|].
    cbn [repeat fold_left]. unfold pipeline_step at 2.
    cbn [producer_of audio_queue consumer_of]. rewrite Hblock. exact IH.
  - intros. subst q. unfold producer_step. cbn [tl].
    rewrite Hq'. reflexivity.
  - apply safe_put_full. exact H.
  - subst q. simpl. rewrite length_app. simpl. unfold QUEUE_MAX_SIZE. lia.
  - intros. simpl. rewrite (safe_put_full q _ H). reflexivity.
  - simpl. rewrite (safe_put_full q _ H). reflexivity.
Qed.

Lemma full_queue_policy_witness :
  let q := Audio [Byte.x01] :: repeat (Audio []) 99 in
  length q = QUEUE_MAX_SIZE
  /\ producer_step (fun _ _ _ _ => ([], SynthDone)) [] [] []
       (PInChunk [AudioChunk [Byte.x02]] SynthDone []) q = None
  /\ _safe_put QUEUE_MAX_SIZE q EndOfStream
     = Ok (repeat (Audio []) 99 ++ [EndOfStream]).
Proof.
  cbv zeta.
  pose proof (full_queue_policy (fun _ _ _ _ => ([], SynthDone)) [] [] []
                (Audio [Byte.x01] :: repeat (Audio []) 99) eq_refl)
    as (Hb & _ & _ & Hs & _).
  split; [reflexivity|]. split; [apply Hb | apply (Hs EndOfStream)].
Defined.

(** ** Paths *)

Lemma split_no_sep (sep : char) (s : str) :
  ~ In sep s -> split sep s = [s].
Proof.
  induction s as [|c s IH]; simpl; intros H; [reflexivity|].
  destruct (N.eqb_spec c sep) as [->|_]; [exfalso; auto|].
  rewrite IH by auto. reflexivity.
Qed.

Lemma last_index_app_mp3 (key : str) :
  last_index DOT (key ++ lit ".mp3") = Some (length key).
Proof.
  induction key as [|c key IH]; [reflexivity|].
  rewrite <- app_comm_cons. cbn [last_index]. rewrite IH. reflexivity.
Qed.

Lemma name_snoc (p : Path) (n : str) : name (p ++ [n]) = n.
Proof. unfold name. apply last_last. Qed.

Lemma name_suffix_mp3 (key : str) :
  key <> [] -> name_suffix (key ++ lit ".mp3") = lit ".mp3".
Proof.
  intros Hk. unfold name_suffix. rewrite last_index_app_mp3.
  rewrite length_app.
  assert (0 < length key) by (destruct key; [congruence | simpl; lia]).
  destruct (Nat.ltb_spec 0 (length key)); [|lia].
  destruct (Nat.ltb_spec (length key) (length key + length (lit ".mp3") - 1));
    [|simpl in *; lia].
  simpl andb. cbv iota. rewrite skipn_app, skipn_all, Nat.sub_diag. reflexivity.
Qed.

Lemma with_suffix_mp3 (p : Path) (key sfx : str) :
  key <> [] ->
  with_suffix (p ++ [key ++ lit ".mp3"]) sfx = p ++ [key ++ sfx].
Proof.
  intros Hk. unfold with_suffix. rewrite name_snoc.
  destruct (key ++ lit ".mp3") as [|c n] eqn:E.
  - destruct key; discriminate.
  - rewrite <- E. rewrite removelast_last, name_suffix_mp3 by exact Hk.
    rewrite length_app. replace (length key + length (lit ".mp3")
                                 - length (lit ".mp3")) with (length key) by lia.
    rewrite firstn_app, firstn_all, Nat.sub_diag. simpl firstn.
    rewrite app_nil_r. reflexivity.
Qed.

Lemma cache_dir_path (app_root : Path) :
  CACHE_DIR_PATH app_root = app_root ++ [CACHE_DIR_NAME].
Proof. reflexivity. Qed.

Lemma get_path_plain_key (app_root : Path) (key : str) :
  key <> [] -> ~ In SLASH key ->
  get_path_from_key app_root key
  = CACHE_DIR_PATH app_root ++ [key ++ lit ".mp3"].
Proof.
  intros Hk Hs. unfold get_path_from_key, joinpath.
  destruct key as [|c key]; [congruence|].
  rewrite <- app_comm_cons.
  destruct (N.eqb_spec c SLASH) as [->|_]; [exfalso; apply Hs; left; reflexivity|].
  f_equal. rewrite app_comm_cons.
  unfold parse_parts. rewrite split_no_sep.
  - cbn [filter truthy app andb].
    destruct (str_eq_dec (c :: key ++ lit ".mp3") [DOT]) as [E|_]; [|reflexivity].
    apply (f_equal (@length char)) in E. cbn [length] in E.
    rewrite length_app in E. simpl in E. lia.
  - intros Hin. apply in_app_or in Hin. destruct Hin as [Hin|Hin]; [auto|].
    vm_compute in Hin. repeat (destruct Hin as [Hin|Hin]; [discriminate|]).
    exact Hin.
Qed.

(** C8, as stated, fails: the final entry of a key is named [<key>.mp3],
    not [<key>.audio], and the temp artifact [<key>.mp3.tmp]. *)
Lemma final_path_is_not_dot_audio :
  let app_root := [lit "srv"; lit "radio"] in
  let key := lit "0cc175b9c0f1b6a831c399e269772661" in
  let final_path := get_path_from_key app_root key in
  final_path = [lit "srv"; lit "radio"; lit "audio_cache";
                lit "0cc175b9c0f1b6a831c399e269772661.mp3"]
  /\ final_path <> CACHE_DIR_PATH app_root ++ [key ++ lit ".audio"]
  /\ with_suffix final_path (lit ".mp3.tmp")
     <> CACHE_DIR_PATH app_root ++ [key ++ lit ".audio.tmp"].
Proof.
  cbv zeta. split; [vm_compute; reflexivity|].
  split; intros H; vm_compute in H; discriminate.
Qed.

(** C8, amended: for every key that is not empty and holds no path
    separator (such as the hexadecimal digests the application uses), the
    final entry is [<key>.mp3], the lock artifact [<key>.lock] and the temp
    artifact [<key>.mp3.tmp], each directly inside the cache directory. *)
Theorem cache_artifact_names (app_root : Path) (key : str) :
  key <> [] -> ~ In SLASH key ->
  let final_path := get_path_from_key app_root key in
  final_path = CACHE_DIR_PATH app_root ++ [key ++ lit ".mp3"]
  /\ with_suffix final_path (lit ".lock")
     = CACHE_DIR_PATH app_root ++ [key ++ lit ".lock"]
  /\ with_suffix final_path (lit ".mp3.tmp")
     = CACHE_DIR_PATH app_root ++ [key ++ lit ".mp3.tmp"].
Proof.
  intros Hk Hs. cbv zeta. rewrite (get_path_plain_key app_root Hk Hs).
  repeat split; apply with_suffix_mp3; exact Hk.
Qed.

Lemma cache_artifact_names_witness :
  let app_root := [lit "srv"; lit "radio"] in
  let key := lit "0cc175b9c0f1b6a831c399e269772661" in
  with_suffix (get_path_from_key app_root key) (lit ".lock")
  = [lit "srv"; lit "radio"; lit "audio_cache";
     lit "0cc175b9c0f1b6a831c399e269772661.lock"].
Proof.
  cbv zeta.
  refine (proj1 (proj2 (cache_artifact_names
                          [lit "srv"; lit "radio"]
                          (key := lit "0cc175b9c0f1b6a831c399e269772661") _ _))).
  - discriminate.
  - vm_compute. intuition discriminate.
Defined.

(** ** The store *)

Lemma fs_write_same (p : Path) (d : bytes) (f : fs) : fs_write p d f p = Some d.
Proof. unfold fs_write. destruct (path_eq_dec p p); congruence. Qed.

Lemma fs_write_other (p x : Path) (d : bytes) (f : fs) :
  x <> p -> fs_write p d f x = f x.
Proof. intros H. unfold fs_write. destruct (path_eq_dec x p); congruence. Qed.

Lemma fs_remove_same (p : Path) (f : fs) : fs_remove p f p = None.
Proof. unfold fs_remove. destruct (path_eq_dec p p); congruence. Qed.

Lemma fs_remove_other (p x : Path) (f : fs) : x <> p -> fs_remove p f x = f x.
Proof. intros H. unfold fs_remove. destruct (path_eq_dec x p); congruence. Qed.

(** ** [generate_and_cache] *)

Lemma last_cons_default (A : Type) (l : list A) (x d1 d2 : A) :
  last (x :: l) d1 = last (x :: l) d2.
Proof.
  revert x; induction l as [|y l IH]; intros x; [reflexivity|].
  change (last (y :: l) d1 = last (y :: l) d2). apply IH.
Qed.

Lemma write_frames_spec (temp_path : Path) (frames : list bytes) :
  forall written f tr w,
    write_frames temp_path frames written f = (tr, w) ->
    w = written ++ concat frames
    /\ (forall s, In s tr -> forall x, x <> temp_path -> s x = f x)
    /\ (f temp_path = Some written -> last tr f temp_path = Some w).
Proof.
  induction frames as [|chunk rest IH]; simpl; intros written f tr w H.
  - injection H as <- <-. rewrite app_nil_r. repeat split; auto.
    intros s [].
  - destruct (write_frames temp_path rest (written ++ chunk)
                (fs_write temp_path (written ++ chunk) f)) as [tr' w'] eqn:E.
    injection H as <- <-.
    destruct (IH _ _ _ _ E) as (Hw & Hother & Hlast).
    split; [rewrite Hw, app_assoc; reflexivity|]. split.
    + intros s [<- | Hs] x Hx.
      * apply fs_write_other. exact Hx.
      * rewrite (Hother s Hs x Hx). apply fs_write_other. exact Hx.
    + intros _. specialize (Hlast (fs_write_same _ _ _)).
      destruct tr' as [|s tr']; [exact Hlast|].
      change (last (s :: tr') f temp_path = Some w').
      rewrite (last_cons_default tr' s f (fs_write temp_path (written ++ chunk) f)).
      exact Hlast.
Qed.

(** Every state a run passes through agrees with the initial store away
    from the temp path and the final path. *)
Lemma generate_and_cache_frame (final_path : Path) (frames : list bytes)
    (e : loop_end) (f0 : fs) (s : fs) (x : Path) :
  In s (gen_trace (generate_and_cache final_path frames e f0)) ->
  x <> with_suffix final_path (lit ".mp3.tmp") -> x <> final_path ->
  s x = f0 x.
Proof.
  set (temp_path := with_suffix final_path (lit ".mp3.tmp")).
  intros Hin Hx Hx'.
  unfold generate_and_cache in Hin. fold temp_path in Hin.
  destruct (write_frames temp_path frames [] (fs_write temp_path [] f0))
    as [tr w] eqn:E.
  destruct (write_frames_spec _ _ _ _ E) as (_ & Hother & _). clear E.
  set (f1 := fs_write temp_path [] f0) in *.
  assert (H1 : f1 x = f0 x) by (apply fs_write_other; exact Hx).
  assert (Htr : forall s', In s' tr -> s' x = f0 x).
  { intros s' Hs'. rewrite (Hother s' Hs' x Hx). exact H1. }
  assert (Hlast : last tr f1 x = f0 x).
  { destruct tr as [|t tr _] using rev_ind; [exact H1|].
    rewrite last_last. apply Htr, in_or_app. right. left. reflexivity. }
  assert (Hfin : forall b s',
             In s' (gen_finally temp_path b (last tr f1)) -> s' x = f0 x).
  { intros b s' Hs'. unfold gen_finally in Hs'.
    destruct (negb b && fs_exists temp_path (last tr f1)); [|contradiction].
    destruct Hs' as [<- | []]. rewrite fs_remove_other by exact Hx. exact Hlast. }
  assert (Hgen : forall extra,
             (forall s', In s' extra -> s' x = f0 x) ->
             In s (f1 :: tr ++ extra) -> s x = f0 x).
  { intros extra Hextra [<- | Hs]; [exact H1|].
    apply in_app_or in Hs. destruct Hs as [Hs | Hs]; auto. }
  assert (Hrename : forall data s',
             In s' ([fs_write final_path data (fs_remove temp_path (last tr f1))]
                    ++ gen_finally temp_path true
                         (fs_write final_path data
                            (fs_remove temp_path (last tr f1)))) ->
             s' x = f0 x).
  { intros data s' [<- | []].
    rewrite fs_write_other, fs_remove_other by assumption. exact Hlast. }
  destruct frames as [|fr frames], e; cbn [gen_trace] in Hin;
    try contradiction; try (apply (Hgen _ (Hfin false) Hin)).
  all: destruct (last tr f1 temp_path) as [data|];
    cbn [gen_trace] in Hin;
    [apply (Hgen _ (Hrename data) Hin) | apply (Hgen _ (Hfin false) Hin)].
Qed.

(** A run of [generate_and_cache] taken alone, no other body at work on
    its paths: on any store, for any frames and any way of leaving the
    loop, provided the temp path differs from the final path.  If the
    stream ends without error, the run returns, the final path holds all
    the frames and the temp file is gone.  Otherwise the final path is as
    it was before the run and, if the run opened the temp file at all, that
    file is gone.  At every state the run passes through, the final path is
    as before the run or holds all the frames. *)
Lemma generate_and_cache_alone (final_path : Path)
    (frames : list bytes) (e : loop_end) (f0 : fs) :
  let temp_path := with_suffix final_path (lit ".mp3.tmp") in
  let r := generate_and_cache final_path frames e f0 in
  temp_path <> final_path ->
  (e = StreamReturned ->
     gen_end_ r = GenReturned /\ gen_yielded r = frames
     /\ gen_final f0 r final_path = Some (concat frames)
     /\ gen_final f0 r temp_path = None)
  /\ (e <> StreamReturned ->
      gen_final f0 r final_path = f0 final_path
      /\ (gen_trace r <> [] -> gen_final f0 r temp_path = None))
  /\ (forall s, In s (gen_trace r) ->
        s final_path = f0 final_path
        \/ (e = StreamReturned /\ s final_path = Some (concat frames))).
Proof.
  intros temp_path r Hne. subst r.
  assert (Hne' : final_path <> temp_path) by congruence.
  unfold generate_and_cache, gen_final. fold temp_path.
  destruct (write_frames temp_path frames [] (fs_write temp_path [] f0))
    as [tr w] eqn:E.
  destruct (write_frames_spec _ _ _ _ E) as (Hw & Hother & Hlast). clear E.
  simpl in Hw. subst w.
  set (f1 := fs_write temp_path [] f0) in *.
  specialize (Hlast (fs_write_same _ _ _)).
  assert (H1 : f1 final_path = f0 final_path)
    by (apply fs_write_other; exact Hne').
  assert (Htr : forall s, In s tr -> s final_path = f0 final_path).
  { intros s Hs. rewrite (Hother s Hs _ Hne'). exact H1. }
  assert (H2 : last tr f1 final_path = f0 final_path).
  { destruct tr as [|t tr _] using rev_ind; [exact H1|].
    rewrite last_last. apply Htr, in_or_app. right. left. reflexivity. }
  assert (Hfin : gen_finally temp_path false (last tr f1)
                 = [fs_remove temp_path (last tr f1)]).
  { unfold gen_finally, fs_exists. rewrite Hlast. reflexivity. }
  assert (Hfail : forall d : fs,
             last (f1 :: tr ++ [fs_remove temp_path (last tr f1)]) d final_path
             = f0 final_path
             /\ last (f1 :: tr ++ [fs_remove temp_path (last tr f1)]) d temp_path
                = None
             /\ forall s, In s (f1 :: tr ++ [fs_remove temp_path (last tr f1)]) ->
                          s final_path = f0 final_path).
  { intros d. rewrite app_comm_cons, last_last.
    rewrite fs_remove_other by exact Hne'. rewrite fs_remove_same.
    repeat split; auto.
    intros s [<- | Hs]; [exact H1|].
    apply in_app_or in Hs. destruct Hs as [Hs | [<- | []]]; [auto|].
    rewrite fs_remove_other by exact Hne'. exact H2. }
  destruct e.
  - (* the stream is exhausted *)
    assert (Hgoal :
      let r := mkGenRun frames
                 (f1 :: tr ++ [fs_write final_path (concat frames)
                                 (fs_remove temp_path (last tr f1))]
                     ++ gen_finally temp_path true
                          (fs_write final_path (concat frames)
                             (fs_remove temp_path (last tr f1))))
                 GenReturned in
      (gen_end_ r = GenReturned /\ gen_yielded r = frames
       /\ last (gen_trace r) f0 final_path = Some (concat frames)
       /\ last (gen_trace r) f0 temp_path = None)
      /\ forall s, In s (gen_trace r) ->
           s final_path = f0 final_path
           \/ (StreamReturned = StreamReturned
               /\ s final_path = Some (concat frames))).
    { cbv zeta. cbn [gen_end_ gen_yielded gen_trace gen_finally negb andb].
      rewrite app_nil_r, app_comm_cons, last_last.
      rewrite fs_write_same, fs_write_other, fs_remove_same by exact Hne.
      repeat split.
      intros s Hs. rewrite <- app_comm_cons in Hs.
      destruct Hs as [<- | Hs]; [left; exact H1|].
      apply in_app_or in Hs. destruct Hs as [Hs | [<- | []]]; [left; auto|].
      right. split; [reflexivity | apply fs_write_same]. }
    cbv zeta in Hgoal. destruct Hgoal as (Ha & Hc).
    destruct frames as [|fr frames]; rewrite Hlast.
    all: split; [intros _; exact Ha|].
    all: split; [intros Hcontra; congruence | exact Hc].
  - (* the stream raises *)
    destruct (Hfail f0) as (Ha & Hb & Hc).
    destruct frames as [|fr frames]; cbn [gen_trace]; rewrite Hfin.
    all: split; [discriminate|].
    all: split; [intros _; split; [exact Ha | intros _; exact Hb]|].
    all: intros s Hs; left; apply Hc; exact Hs.
  - (* the client closes the response *)
    destruct (Hfail f0) as (Ha & Hb & Hc).
    destruct frames as [|fr frames]; cbn [gen_trace]; try rewrite Hfin.
    all: split; [discriminate|].
    + split; [intros _; split; [reflexivity | intros Hc'; congruence]|].
      intros s [].
    + split; [intros _; split; [exact Ha | intros _; exact Hb]|].
      intros s Hs; left; apply Hc; exact Hs.
Qed.

(** ** [read_stream] *)

Section ReadStream.

Variable app_root : Path.
Variable md5_hexdigest : str -> str.
Variable fetch_and_parse : str -> option metadata.
Variable eng : TTSEngine.
Variable MAX_CONTENT_LENGTH : Z.
Variable notice : str.

(** A request that misses the cache and finds no lock: the response is the
    generating stream, and the store it leaves behind holds no lock already,
    the [finally] block of the view having run at the [return]. *)
Lemma read_stream_miss (url : str) (md : metadata) (f : fs)
    (c c' : metadata_cache) :
  url <> [] -> content md <> [] ->
  get_metadata_with_cache fetch_and_parse url c = (Some md, c') ->
  let final_path := get_path_from_key app_root (md5_hexdigest url) in
  let lock_path := with_suffix final_path (lit ".lock") in
  f final_path = None -> f lock_path = None ->
  read_stream app_root md5_hexdigest fetch_and_parse (Some eng)
              MAX_CONTENT_LENGTH notice (Some url) (mkWorld f c)
  = (Streaming
       (Generate final_path
          (if (MAX_CONTENT_LENGTH <? Z.of_nat (length (content md)))%Z
           then slice_to (content md) MAX_CONTENT_LENGTH ++ notice
           else content md)),
     mkWorld (fs_remove lock_path (fs_write lock_path [] f)) c').
Proof.
  intros Hu Hc Hm final_path lock_path Hf Hl.
  unfold read_stream.
  destruct url as [|ch u]; [congruence|]. cbv beta iota.
  fold final_path. fold lock_path.
  unfold check_cache_exists, fs_touch, fs_exists. cbn [files cached_metadata].
  rewrite Hf, Hl, Hm, fs_write_same.
  destruct (content md) as [|x t] eqn:E; [congruence|].
  reflexivity.
Qed.

(** A request that misses the cache while a lock file is present is
    answered 429 and changes nothing. *)
Lemma read_stream_locked (url : str) (w : world) :
  url <> [] ->
  let final_path := get_path_from_key app_root (md5_hexdigest url) in
  files w final_path = None ->
  files w (with_suffix final_path (lit ".lock")) <> None ->
  read_stream app_root md5_hexdigest fetch_and_parse (Some eng)
              MAX_CONTENT_LENGTH notice (Some url) w
  = (Json 429, w).
Proof.
  intros Hu final_path Hf Hl. unfold read_stream.
  destruct url as [|ch u]; [congruence|]. cbv beta iota.
  fold final_path. unfold check_cache_exists, fs_exists. rewrite Hf.
  destruct (files w (with_suffix final_path (lit ".lock"))); [reflexivity|].
  congruence.
Qed.

(** C1: the view run twice for one URL.  The first request misses the
    cache, creates the lock and is answered with the generating stream; when
    the view returns, before any frame of that stream is produced, the lock
    is already deleted.  At every state of the store that the generation
    passes through before its rename (the final path still absent), a second
    request for the same URL is therefore not answered 429 but with a second
    generating stream for the same key. *)
Theorem second_request_not_locked (url : str) (md : metadata) (f0 : fs) :
  url <> [] -> md5_hexdigest url <> [] -> ~ In SLASH (md5_hexdigest url) ->
  fetch_and_parse url = Some md -> content md <> [] ->
  let final_path := get_path_from_key app_root (md5_hexdigest url) in
  let lock_path := with_suffix final_path (lit ".lock") in
  f0 final_path = None -> f0 lock_path = None ->
  exists text w1,
    read_stream app_root md5_hexdigest fetch_and_parse (Some eng)
                MAX_CONTENT_LENGTH notice (Some url) (mkWorld f0 [])
    = (Streaming (Generate final_path text), w1)
    /\ files w1 lock_path = None
    /\ forall frames s,
         In s (gen_trace (generate_and_cache final_path frames StreamReturned
                            (files w1))) ->
         s final_path = None ->
         exists w2,
           read_stream app_root md5_hexdigest fetch_and_parse (Some eng)
                       MAX_CONTENT_LENGTH notice
                       (Some url) (mkWorld s (cached_metadata w1))
           = (Streaming (Generate final_path text), w2)
           /\ fst (read_stream app_root md5_hexdigest fetch_and_parse
                               (Some eng) MAX_CONTENT_LENGTH notice
                               (Some url) (mkWorld s (cached_metadata w1)))
              <> Json 429.
Proof.
  intros Hu Hk Hs Hfetch Hc final_path lock_path Hf Hl.
  assert (Efinal : final_path
                   = CACHE_DIR_PATH app_root ++ [md5_hexdigest url ++ lit ".mp3"])
    by (apply get_path_plain_key; assumption).
  assert (Elock : lock_path
                  = CACHE_DIR_PATH app_root ++ [md5_hexdigest url ++ lit ".lock"])
    by (unfold lock_path; rewrite Efinal; apply with_suffix_mp3; assumption).
  assert (Etemp : with_suffix final_path (lit ".mp3.tmp")
                  = CACHE_DIR_PATH app_root
                    ++ [md5_hexdigest url ++ lit ".mp3.tmp"])
    by (rewrite Efinal; apply with_suffix_mp3; assumption).
  assert (Hlf : lock_path <> final_path).
  { rewrite Elock, Efinal. intros H. apply app_inv_head in H.
    injection H as H. apply app_inv_head in H. vm_compute in H. discriminate. }
  assert (Hlt : lock_path <> with_suffix final_path (lit ".mp3.tmp")).
  { rewrite Elock, Etemp. intros H. apply app_inv_head in H.
    injection H as H. apply app_inv_head in H. vm_compute in H. discriminate. }
  assert (Hm0 : get_metadata_with_cache fetch_and_parse url []
                = (Some md, [(url, md)])).
  { unfold get_metadata_with_cache. cbn [cache_get]. rewrite Hfetch.
    destruct (content md); [congruence | reflexivity]. }
  assert (Hm1 : get_metadata_with_cache fetch_and_parse url [(url, md)]
                = (Some md, [(url, md)])).
  { unfold get_metadata_with_cache. cbn [cache_get].
    destruct (str_eq_dec url url); [reflexivity | congruence]. }
  eexists. eexists. split; [apply (@read_stream_miss url md f0 _ _ Hu Hc Hm0 Hf Hl)|].
  cbn [files cached_metadata]. fold final_path. fold lock_path.
  split; [apply fs_remove_same|].
  intros frames s Hin Hsf.
  assert (Hsl : s lock_path = None).
  { rewrite (@generate_and_cache_frame _ _ _ _ _ _ Hin Hlt Hlf).
    apply fs_remove_same. }
  eexists. split.
  - apply (@read_stream_miss url md s _ _ Hu Hc Hm1 Hsf Hsl).
  - rewrite (@read_stream_miss url md s _ _ Hu Hc Hm1 Hsf Hsl). discriminate.
Qed.

End ReadStream.

Lemma second_request_not_locked_witness :
  let app_root := [lit "srv"; lit "radio"] in
  let md5_hexdigest := fun _ : str => lit "0cc175b9c0f1b6a831c399e269772661" in
  let md := mkMetadata (lit "Chuong 1") (lit "Xin chao") None None in
  let fetch_and_parse := fun _ : str => Some md in
  let eng := mkTTSEngine (lit "vi-VN-HoaiMyNeural") (lit "+0%") (lit "+0%") in
  let final_path := get_path_from_key app_root (md5_hexdigest (lit "a")) in
  exists text w1,
    read_stream app_root md5_hexdigest fetch_and_parse (Some eng)
                DEFAULT_MAX_CONTENT_LENGTH [] (Some (lit "a"))
                (mkWorld fs_empty [])
    = (Streaming (Generate final_path text), w1)
    /\ files w1 (with_suffix final_path (lit ".lock")) = None.
Proof.
  cbv zeta.
  destruct (@second_request_not_locked
              [lit "srv"; lit "radio"]
              (fun _ : str => lit "0cc175b9c0f1b6a831c399e269772661")
              (fun _ : str => Some (mkMetadata (lit "Chuong 1") (lit "Xin chao")
                                               None None))
              (mkTTSEngine (lit "vi-VN-HoaiMyNeural") (lit "+0%") (lit "+0%"))
              DEFAULT_MAX_CONTENT_LENGTH [] (lit "a")
              (mkMetadata (lit "Chuong 1") (lit "Xin chao") None None)
              fs_empty)
    as (text & w1 & H1 & H2 & _).
  - discriminate.
  - discriminate.
  - vm_compute. intuition discriminate.
  - reflexivity.
  - discriminate.
  - reflexivity.
  - reflexivity.
  - exists text, w1. split; [exact H1 | exact H2].
Defined.

(** ** Two generations for one key *)

Lemma pwrite_append (b old : bytes) : pwrite (length old) b old = old ++ b.
Proof.
  unfold pwrite. destruct b as [|x b]; [rewrite app_nil_r; reflexivity|].
  rewrite firstn_all, Nat.sub_diag, skipn_all2 by lia.
  cbn [repeat app]. rewrite app_nil_r. reflexivity.
Qed.

Lemma store_same (i : nat) (b : bytes) (c : nat -> bytes) : store i b c i = b.
Proof. unfold store. rewrite Nat.eqb_refl. reflexivity. Qed.

Lemma store_other (i j : nat) (b : bytes) (c : nat -> bytes) :
  j <> i -> store i b c j = c j.
Proof.
  intros H. unfold store. destruct (Nat.eqb_spec j i); [contradiction | reflexivity].
Qed.

Lemma bind_same (p : Path) (i : option nat) (n : Path -> option nat) :
  bind p i n p = i.
Proof. unfold bind. destruct (path_eq_dec p p); congruence. Qed.

Lemma bind_other (p x : Path) (i : option nat) (n : Path -> option nat) :
  x <> p -> bind p i n x = n x.
Proof. intros H. unfold bind. destruct (path_eq_dec x p); congruence. Qed.

Lemma shared_run_first (g1 g2 : generation) (n : nat) :
  forall s,
    shared_run g1 g2 (repeat First n) s
    = mkShared (fst (gen_steps g1 n (first_body s) (the_disk s)))
               (second_body s)
               (snd (gen_steps g1 n (first_body s) (the_disk s))).
Proof.
  induction n as [|n IH]; intros [a b d]; [reflexivity|].
  cbn [repeat shared_run fold_left shared_step gen_steps first_body second_body
       the_disk].
  destruct (gen_step g1 a d) as [a' d']. apply IH.
Qed.

Lemma shared_run_second (g1 g2 : generation) (n : nat) :
  forall s,
    shared_run g1 g2 (repeat Second n) s
    = mkShared (first_body s)
               (fst (gen_steps g2 n (second_body s) (the_disk s)))
               (snd (gen_steps g2 n (second_body s) (the_disk s))).
Proof.
  induction n as [|n IH]; intros [a b d]; [reflexivity|].
  cbn [repeat shared_run fold_left shared_step gen_steps first_body second_body
       the_disk].
  destruct (gen_step g2 b d) as [b' d']. apply IH.
Qed.

Lemma shared_run_app (g1 g2 : generation) (l1 l2 : list turn) (s : shared) :
  shared_run g1 g2 (l1 ++ l2) s = shared_run g1 g2 l2 (shared_run g1 g2 l1 s).
Proof. apply fold_left_app. Qed.

Lemma gen_steps_add (g : generation) (n m : nat) :
  forall s d,
    gen_steps g (n + m) s d
    = gen_steps g m (fst (gen_steps g n s d)) (snd (gen_steps g n s d)).
Proof.
  induction n as [|n IH]; intros s d; [reflexivity|].
  cbn [Nat.add gen_steps]. destruct (gen_step g s d) as [s' d']. apply IH.
Qed.

(** The loop of a body that writes alone to its file: the file and the
    buffer together hold what they held and the frames, in order; no name
    and no other file changes. *)
Lemma gen_steps_loop (g : generation) (todo : list bytes) :
  forall (f : file) (d : disk),
    f_pos f = length (file_data d (f_file f)) ->
    exists f' d',
      gen_steps g (length todo) (GLoop f todo) d = (GLoop f' [], d')
      /\ f_file f' = f_file f
      /\ names d' = names d
      /\ f_pos f' = length (file_data d' (f_file f))
      /\ file_data d' (f_file f) ++ f_buffer f'
         = file_data d (f_file f) ++ f_buffer f ++ concat todo
      /\ forall j, j <> f_file f -> file_data d' j = file_data d j.
Proof.
  induction todo as [|chunk rest IH]; intros f d Hpos.
  - exists f, d. cbn [length gen_steps concat]. rewrite app_nil_r. auto 6.
  - cbn [length gen_steps gen_step]. unfold file_write.
    set (buffer := f_buffer f ++ chunk).
    set (n := g_handed g (length (f_buffer f)) (length chunk)).
    set (f1 := mkFile (f_file f) (f_pos f + length (firstn n buffer))
                      (skipn n buffer)).
    set (d1 := os_write f (firstn n buffer) d).
    assert (Hdata : file_data d1 (f_file f)
                    = file_data d (f_file f) ++ firstn n buffer).
    { unfold d1, os_write. cbn [file_data]. rewrite store_same, Hpos.
      apply pwrite_append. }
    destruct (IH f1 d1)
      as (f' & d' & Hrun & Hfile & Hnames & Hpos' & Hall & Hrest).
    { cbn [f1 f_pos f_file]. rewrite Hdata, length_app, Hpos. reflexivity. }
    cbn [f1 f_file f_buffer] in *.
    exists f', d'. split; [exact Hrun|]. split; [exact Hfile|].
    split; [rewrite Hnames; reflexivity|]. split; [exact Hpos'|]. split.
    + rewrite Hall, Hdata, <- !app_assoc. f_equal.
      rewrite (app_assoc (firstn n buffer)), firstn_skipn.
      unfold buffer. rewrite <- app_assoc. reflexivity.
    + intros j Hj. rewrite (Hrest j Hj). unfold d1, os_write. cbn [file_data].
      apply store_other. exact Hj.
Qed.

(** A body that opens its temp file and is left alone until it has closed
    it: the file then holds the frames. *)
Lemma gen_steps_to_close (g : generation) (d : disk) :
  let temp_path := with_suffix (g_final_path g) (lit ".mp3.tmp") in
  exists i d',
    gen_steps g (length (g_frames g) + 2) GOpen d
    = (match g_end g with
       | StreamReturned => GRename
       | StreamRaised err => GFinally (GenRaisedEngine err)
       | ClientClosed => GFinally GenClosed
       end, d')
    /\ names d' temp_path = Some i
    /\ file_data d' i = concat (g_frames g)
    /\ (forall x, x <> temp_path -> names d' x = names d x)
    /\ (names d temp_path = Some i
        \/ (names d temp_path = None /\ i = next_file d))
    /\ forall j, j <> i -> file_data d' j = file_data d j.
Proof.
  intros temp_path.
  replace (length (g_frames g) + 2) with (1 + (length (g_frames g) + 1)) by lia.
  rewrite gen_steps_add. cbn [gen_steps gen_step fst snd]. fold temp_path.
  assert (Hopen : exists i d1,
             open_wb temp_path d = (mkFile i 0 [], d1)
             /\ names d1 temp_path = Some i /\ file_data d1 i = []
             /\ (forall x, x <> temp_path -> names d1 x = names d x)
             /\ (names d temp_path = Some i
                 \/ (names d temp_path = None /\ i = next_file d))
             /\ forall j, j <> i -> file_data d1 j = file_data d j).
  { unfold open_wb. destruct (names d temp_path) as [i|] eqn:E.
    - eexists. eexists. split; [reflexivity|]. cbn [names file_data].
      rewrite store_same. repeat split; auto.
      intros j Hj. apply store_other. exact Hj.
    - eexists. eexists. split; [reflexivity|]. cbn [names file_data].
      rewrite store_same, bind_same. split; [reflexivity|].
      split; [reflexivity|]. split; [intros x Hx; apply bind_other; exact Hx|].
      split; [right; auto|]. intros j Hj. apply store_other. exact Hj. }
  destruct Hopen as (i & d1 & -> & Hname & Hdata & Hother & Hwhich & Hrest1).
  cbn [fst snd]. rewrite gen_steps_add.
  destruct (@gen_steps_loop g (g_frames g) (mkFile i 0 []) d1)
    as (f' & d2 & -> & Hfile & Hnames & Hpos & Hall & Hrest2).
  { cbn [f_pos f_file]. rewrite Hdata. reflexivity. }
  cbn [f_file f_buffer fst snd app] in *. rewrite Hdata in Hall. cbn [app] in Hall.
  exists i, (file_close f' d2). cbn [gen_steps gen_step].
  split; [destruct (g_end g); reflexivity|].
  unfold file_close, os_write. cbn [names file_data]. rewrite Hnames, Hfile.
  split; [exact Hname|]. split; [|split; [exact Hother|split; [exact Hwhich|]]].
  - rewrite store_same, Hpos, pwrite_append. exact Hall.
  - intros j Hj. rewrite store_other by exact Hj.
    rewrite (Hrest2 j Hj). apply Hrest1. exact Hj.
Qed.

(** A body whose file is already open, left alone until it has closed it. *)
Lemma gen_steps_loop_close (g : generation) (f : file) (d : disk) (todo : list bytes) :
  f_pos f = length (file_data d (f_file f)) ->
  exists d',
    gen_steps g (length todo + 1) (GLoop f todo) d
    = (match g_end g with
       | StreamReturned => GRename
       | StreamRaised err => GFinally (GenRaisedEngine err)
       | ClientClosed => GFinally GenClosed
       end, d')
    /\ names d' = names d
    /\ file_data d' (f_file f)
       = file_data d (f_file f) ++ f_buffer f ++ concat todo.
Proof.
  intros Hpos. rewrite gen_steps_add.
  destruct (@gen_steps_loop g todo f d Hpos)
    as (f' & d2 & -> & Hfile & Hnames & Hpos' & Hall & _).
  cbn [fst snd gen_steps gen_step].
  exists (file_close f' d2).
  split; [destruct (g_end g); reflexivity|].
  unfold file_close, os_write. cbn [names file_data]. rewrite Hfile.
  split; [exact Hnames|].
  rewrite store_same, Hpos', pwrite_append. exact Hall.
Qed.

Lemma gen_steps_done (g : generation) (n : nat) (e : gen_end) (d : disk) :
  gen_steps g n (GDone e) d = (GDone e, d).
Proof. induction n as [|n IH]; [reflexivity | exact IH]. Qed.

Lemma generate_and_cache_end (final_path : Path) (frames : list bytes)
    (e : loop_end) (f0 : fs) :
  gen_end_ (generate_and_cache final_path frames e f0)
  = match e with
    | StreamReturned => GenReturned
    | StreamRaised err => GenRaisedEngine err
    | ClientClosed => match frames with [] => GenNotStarted | _ => GenClosed end
    end.
Proof.
  set (temp_path := with_suffix final_path (lit ".mp3.tmp")).
  unfold generate_and_cache. fold temp_path.
  destruct (write_frames temp_path frames [] (fs_write temp_path [] f0))
    as [tr w] eqn:E.
  destruct (write_frames_spec _ _ _ _ E) as (_ & _ & Hlast).
  specialize (Hlast (fs_write_same _ _ _)).
  destruct frames as [|fr frames], e; try reflexivity; rewrite Hlast; reflexivity.
Qed.

Lemma generate_and_cache_final_other (final_path : Path) (frames : list bytes)
    (e : loop_end) (f0 : fs) (x : Path) :
  x <> with_suffix final_path (lit ".mp3.tmp") -> x <> final_path ->
  gen_final f0 (generate_and_cache final_path frames e f0) x = f0 x.
Proof.
  intros Hx Hx'. unfold gen_final.
  destruct (gen_trace (generate_and_cache final_path frames e f0))
    as [|s0 tr] eqn:E; [reflexivity|].
  apply (@generate_and_cache_frame final_path frames e f0 _ x); try assumption.
  rewrite E. destruct (@exists_last _ (s0 :: tr) ltac:(discriminate))
    as (l & a & El).
  rewrite El, last_last. apply in_or_app. right. left. reflexivity.
Qed.

(** The two models of a response body agree.  A body that runs alone in a
    directory without hard links ends as [generate_and_cache] says, and
    leaves every path holding what [generate_and_cache] says. *)
Lemma body_alone_as_generate_and_cache (g : generation) (d0 : disk) :
  disk_ok d0 ->
  with_suffix (g_final_path g) (lit ".mp3.tmp") <> g_final_path g ->
  let r := generate_and_cache (g_final_path g) (g_frames g) (g_end g)
                              (fs_of d0) in
  let sd := gen_steps g (length (g_frames g) + 4) (gen_start g) d0 in
  fst sd = GDone (gen_end_ r)
  /\ forall x, fs_of (snd sd) x = gen_final (fs_of d0) r x.
Proof.
  set (final_path := g_final_path g).
  set (temp_path := with_suffix final_path (lit ".mp3.tmp")).
  intros (Hinj & Hbound) Hne r sd. subst r sd.
  rewrite generate_and_cache_end.
  destruct (@generate_and_cache_alone final_path (g_frames g) (g_end g)
              (fs_of d0) Hne) as (Hret & Hfail & _).
  fold temp_path in Hret, Hfail.
  pose proof (@generate_and_cache_final_other final_path (g_frames g) (g_end g)
                (fs_of d0)) as Hother. fold temp_path in Hother.
  assert (Hstart : gen_start g = GOpen
                   \/ (g_frames g = [] /\ g_end g = ClientClosed)).
  { unfold gen_start. destruct (g_frames g), (g_end g); auto. }
  destruct Hstart as [Hstart | (Hfr & Hend)].
  2:{ unfold gen_start. rewrite Hfr, Hend. rewrite gen_steps_done.
      cbn [fst snd]. split; [reflexivity|]. intros x. reflexivity. }
  replace (length (g_frames g) + 4) with ((length (g_frames g) + 2) + 2) by lia.
  rewrite Hstart, gen_steps_add.
  destruct (@gen_steps_to_close g d0)
    as (i & d1 & -> & Hn1 & Hd1 & Ho1 & Hwhich & Hrest).
  fold final_path in Hn1, Ho1, Hwhich. fold temp_path in Hn1, Ho1, Hwhich.
  cbn [fst snd].
  assert (Hkeep : forall x j, x <> temp_path -> names d0 x = Some j ->
                              file_data d1 j = file_data d0 j).
  { intros x j Hx Hj. apply Hrest. intros ->.
    destruct Hwhich as [Hw | (_ & Hw)].
    - apply Hx. exact (Hinj _ _ _ Hj Hw).
    - apply Hbound in Hj. lia. }
  assert (Hfs : forall x, x <> temp_path -> fs_of d1 x = fs_of d0 x).
  { intros x Hx. unfold fs_of. rewrite (Ho1 x Hx).
    destruct (names d0 x) as [j|] eqn:Ej; [|reflexivity].
    cbn [option_map]. rewrite (Hkeep x j Hx Ej). reflexivity. }
  assert (Hfail' : forall cause,
             g_end g <> StreamReturned ->
             fst (gen_steps g 2 (GFinally cause) d1) = GDone cause
             /\ forall x, fs_of (snd (gen_steps g 2 (GFinally cause) d1)) x
                          = gen_final (fs_of d0)
                              (generate_and_cache final_path (g_frames g)
                                 (g_end g) (fs_of d0)) x).
  { intros cause He.
    repeat (cbn [gen_steps gen_step fst snd]; fold final_path; fold temp_path;
            rewrite ?Hn1).
    split; [reflexivity|]. intros x.
    destruct (Hfail He) as (Hfinal & Htemp).
    assert (Htrace : gen_trace (generate_and_cache final_path (g_frames g)
                                  (g_end g) (fs_of d0)) <> []).
    { unfold generate_and_cache. fold temp_path.
      destruct (write_frames temp_path (g_frames g) [] _) as [tr w].
      unfold gen_start in Hstart.
      destruct (g_frames g), (g_end g); cbn [gen_trace];
        try discriminate; try congruence;
        destruct (last tr _ temp_path); discriminate. }
    unfold fs_of at 1. unfold unlink. cbn [names file_data].
    destruct (path_eq_dec x temp_path) as [->|Hx].
    - rewrite bind_same, (Htemp Htrace). reflexivity.
    - rewrite bind_other by exact Hx. fold (fs_of d1 x). rewrite (Hfs x Hx).
      destruct (path_eq_dec x final_path) as [->|Hx'].
      + symmetry. exact Hfinal.
      + symmetry. apply Hother; assumption. }
  destruct (g_end g) as [|err|] eqn:Ee.
  - (* the rename *)
    repeat (cbn [gen_steps gen_step fst snd]; fold final_path; fold temp_path;
            rewrite ?Hn1).
    split; [reflexivity|]. intros x.
    destruct (Hret eq_refl) as (_ & _ & Hfinal & Htemp).
    unfold fs_of at 1. unfold rename_to. cbn [names file_data].
    destruct (path_eq_dec x final_path) as [->|Hx'].
    + rewrite bind_same. cbn [option_map]. rewrite Hd1, Hfinal. reflexivity.
    + rewrite bind_other by exact Hx'.
      destruct (path_eq_dec x temp_path) as [->|Hx].
      * rewrite bind_same, Htemp. reflexivity.
      * rewrite bind_other by exact Hx. fold (fs_of d1 x). rewrite (Hfs x Hx).
        symmetry. apply Hother; assumption.
  - destruct (Hfail' (GenRaisedEngine err) ltac:(discriminate)) as (Ha & Hb).
    split; [exact Ha | exact Hb].
  - destruct (Hfail' GenClosed ltac:(discriminate)) as (Ha & Hb).
    split; [|exact Hb]. rewrite Ha.
    unfold gen_start in Hstart.
    destruct (g_frames g); [rewrite Ee in Hstart; discriminate | reflexivity].
Qed.

Section TwoGenerations.

Variable app_root : Path.
Variable md5_hexdigest : str -> str.
Variable fetch_and_parse : str -> option metadata.
Variable eng : TTSEngine.
Variable MAX_CONTENT_LENGTH : Z.
Variable notice : str.

(** C2: two requests for one URL that is not cached.  The first is
    answered with a body that generates; that body opens its temp file,
    writes all its frames and closes the file.  The second request comes
    then: the final path is still absent and the lock is gone (see C1), so
    it is answered with a second body for the same temp path and the same
    final path.  The second body opens the temp path, which empties the
    file, and the first body renames.  The first body has ended without
    error, and the final path holds an empty file, not its frames.  The
    second body writes into the file that now has the final name: when its
    loop is left and the file closed, the final path holds the frames it
    got, also when its stream raised or its client went away; and a second
    body whose stream ended without error does not rename but ends with
    [FileNotFoundError].  This holds whatever the frames are and however
    the file objects buffer. *)
Theorem second_generation_breaks_entry (url : str) (md : metadata) (d0 : disk)
    (frames1 frames2 : list bytes) (end2 : loop_end)
    (handed1 handed2 : nat -> nat -> nat) :
  url <> [] -> md5_hexdigest url <> [] -> ~ In SLASH (md5_hexdigest url) ->
  fetch_and_parse url = Some md -> content md <> [] ->
  let final_path := get_path_from_key app_root (md5_hexdigest url) in
  let lock_path := with_suffix final_path (lit ".lock") in
  let temp_path := with_suffix final_path (lit ".mp3.tmp") in
  names d0 final_path = None -> names d0 lock_path = None ->
  let g1 := mkGeneration final_path frames1 StreamReturned handed1 in
  let g2 := mkGeneration final_path frames2 end2 handed2 in
  gen_start g2 = GOpen ->
  let start := mkShared (gen_start g1) (gen_start g2) d0 in
  let closed := shared_run g1 g2 (repeat First (length frames1 + 2)) start in
  let s1 := shared_run g1 g2 [Second; First] closed in
  let s2 := shared_run g1 g2 (repeat Second (length frames2 + 3)) s1 in
  (exists text w1 w2,
      read_stream app_root md5_hexdigest fetch_and_parse (Some eng)
                  MAX_CONTENT_LENGTH notice (Some url) (mkWorld (fs_of d0) [])
      = (Streaming (Generate final_path text), w1)
      /\ read_stream app_root md5_hexdigest fetch_and_parse (Some eng)
                     MAX_CONTENT_LENGTH notice (Some url)
                     (mkWorld (fs_of (the_disk closed)) (cached_metadata w1))
         = (Streaming (Generate final_path text), w2))
  /\ fs_of (the_disk closed) temp_path = Some (concat frames1)
  /\ first_body s1 = GDone GenReturned
  /\ fs_of (the_disk s1) final_path = Some []
  /\ fs_of (the_disk s1) temp_path = None
  /\ second_body s2
     = GDone (match end2 with
              | StreamReturned => GenRaisedFileNotFound
              | StreamRaised err => GenRaisedEngine err
              | ClientClosed => GenClosed
              end)
  /\ fs_of (the_disk s2) final_path = Some (concat frames2)
  /\ fs_of (the_disk s2) temp_path = None.
Proof.
  intros Hu Hk Hs Hfetch Hc final_path lock_path temp_path Hf Hl g1 g2 Hstart.
  assert (Efinal : final_path
                   = CACHE_DIR_PATH app_root ++ [md5_hexdigest url ++ lit ".mp3"])
    by (apply get_path_plain_key; assumption).
  assert (Elock : lock_path
                  = CACHE_DIR_PATH app_root ++ [md5_hexdigest url ++ lit ".lock"])
    by (unfold lock_path; rewrite Efinal; apply with_suffix_mp3; assumption).
  assert (Etemp : temp_path
                  = CACHE_DIR_PATH app_root
                    ++ [md5_hexdigest url ++ lit ".mp3.tmp"])
    by (unfold temp_path; rewrite Efinal; apply with_suffix_mp3; assumption).
  assert (Hlf : final_path <> lock_path).
  { rewrite Elock, Efinal. intros H. apply app_inv_head in H.
    injection H as H. apply app_inv_head in H. vm_compute in H. discriminate. }
  assert (Htf : temp_path <> final_path).
  { rewrite Etemp, Efinal. intros H. apply app_inv_head in H.
    injection H as H. apply app_inv_head in H. vm_compute in H. discriminate. }
  assert (Htl : lock_path <> temp_path).
  { rewrite Etemp, Elock. intros H. apply app_inv_head in H.
    injection H as H. apply app_inv_head in H. vm_compute in H. discriminate. }
  cbv zeta. rewrite shared_run_first.
  cbn [first_body second_body the_disk].
  assert (Hs1 : gen_start g1 = GOpen)
    by (unfold gen_start, g1; cbn; destruct frames1; reflexivity).
  rewrite Hs1, Hstart.
  destruct (@gen_steps_to_close g1 d0)
    as (i & d1 & E1 & Hn1 & Hd1 & Ho1 & _ & _).
  cbn [g1 g_frames g_end g_final_path] in E1, Hn1, Hd1, Ho1.
  fold final_path in Hn1, Ho1. fold temp_path in Hn1, Ho1.
  fold g1 in E1. rewrite E1. cbn [fst snd].
  split; [|split].
  - (* the two requests *)
    assert (Hm0 : get_metadata_with_cache fetch_and_parse url []
                  = (Some md, [(url, md)])).
    { unfold get_metadata_with_cache. cbn [cache_get]. rewrite Hfetch.
      destruct (content md); [congruence | reflexivity]. }
    assert (Hm1 : get_metadata_with_cache fetch_and_parse url [(url, md)]
                  = (Some md, [(url, md)])).
    { unfold get_metadata_with_cache. cbn [cache_get].
      destruct (str_eq_dec url url); [reflexivity | congruence]. }
    assert (Hf0 : fs_of d0 final_path = None) by (unfold fs_of; rewrite Hf; reflexivity).
    assert (Hl0 : fs_of d0 lock_path = None) by (unfold fs_of; rewrite Hl; reflexivity).
    assert (Hf1 : fs_of d1 final_path = None).
    { unfold fs_of. rewrite Ho1, Hf by congruence. reflexivity. }
    assert (Hl1 : fs_of d1 lock_path = None).
    { unfold fs_of. rewrite Ho1, Hl by exact Htl. reflexivity. }
    eexists. eexists. eexists. split.
    + apply (@read_stream_miss app_root md5_hexdigest fetch_and_parse eng
               MAX_CONTENT_LENGTH notice url md (fs_of d0) _ _ Hu Hc Hm0 Hf0 Hl0).
    + cbn [cached_metadata].
      apply (@read_stream_miss app_root md5_hexdigest fetch_and_parse eng
               MAX_CONTENT_LENGTH notice url md (fs_of d1) _ _ Hu Hc Hm1 Hf1 Hl1).
  - unfold fs_of. rewrite Hn1. cbn [option_map]. rewrite Hd1. reflexivity.
  - (* the second body opens, the first renames *)
    cbn [shared_run fold_left shared_step first_body second_body the_disk
         gen_step g_final_path].
    change (g_final_path g2) with final_path. change (g_final_path g1) with final_path.
    fold temp_path. unfold open_wb. rewrite Hn1.
    cbn [shared_step first_body second_body the_disk gen_step g_final_path
         names file_data next_file].
    change (g_final_path g1) with final_path. fold temp_path. rewrite Hn1.
    cbn [first_body second_body the_disk].
    set (d2 := rename_to temp_path final_path i
                 (mkDisk (names d1) (store i [] (file_data d1)) (next_file d1))).
    assert (Hfin2 : names d2 final_path = Some i)
      by (unfold d2, rename_to; cbn [names]; apply bind_same).
    assert (Htmp2 : names d2 temp_path = None).
    { unfold d2, rename_to. cbn [names].
      rewrite bind_other by exact Htf. apply bind_same. }
    assert (Hdat2 : file_data d2 i = [])
      by (unfold d2, rename_to; cbn [file_data]; apply store_same).
    split; [reflexivity|].
    split; [unfold fs_of; rewrite Hfin2; cbn [option_map]; rewrite Hdat2; reflexivity|].
    split; [unfold fs_of; rewrite Htmp2; reflexivity|].
    rewrite shared_run_second. cbn [first_body second_body the_disk].
    replace (length frames2 + 3) with ((length frames2 + 1) + 2) by lia.
    rewrite gen_steps_add.
    destruct (@gen_steps_loop_close g2 (mkFile i 0 []) d2 frames2)
      as (d3 & E3 & Hn3 & Hd3).
    { cbn [f_pos f_file]. rewrite Hdat2. reflexivity. }
    change (g_frames g2) with frames2. rewrite E3.
    cbn [fst snd f_file f_buffer app] in *.
    rewrite Hdat2 in Hd3. cbn [app] in Hd3.
    assert (Hfin3 : names d3 final_path = Some i) by (rewrite Hn3; exact Hfin2).
    assert (Htmp3 : names d3 temp_path = None) by (rewrite Hn3; exact Htmp2).
    assert (Hgoal : forall b, second_body (mkShared (GDone GenReturned) b d3) = b
                              /\ fs_of d3 final_path = Some (concat frames2)
                              /\ fs_of d3 temp_path = None).
    { intros b. split; [reflexivity|]. unfold fs_of.
      rewrite Hfin3, Htmp3. cbn [option_map]. rewrite Hd3. auto. }
    change (g_end g2) with end2.
    destruct end2 as [|err|];
      repeat (cbn [gen_steps gen_step fst snd];
              change (g_final_path g2) with final_path; fold temp_path;
              rewrite ?Htmp3);
      apply Hgoal.
Qed.

End TwoGenerations.

Lemma second_generation_breaks_entry_witness :
  let final_path :=
    get_path_from_key [lit "srv"] (lit "0cc175b9c0f1b6a831c399e269772661") in
  let g1 := mkGeneration final_path [[Byte.x01; Byte.x02]; [Byte.x03]]
                         StreamReturned (fun _ _ => 0) in
  let g2 := mkGeneration final_path [[Byte.x01]] ClientClosed (fun _ _ => 0) in
  let d0 := mkDisk (fun _ => None) (fun _ => []) 0 in
  let s1 := shared_run g1 g2 (repeat First 4 ++ [Second; First])
                       (mkShared GOpen GOpen d0) in
  first_body s1 = GDone GenReturned
  /\ fs_of (the_disk s1) final_path = Some []
  /\ second_body (shared_run g1 g2 (repeat Second 4) s1) = GDone GenClosed
  /\ fs_of (the_disk (shared_run g1 g2 (repeat Second 4) s1)) final_path
     = Some [Byte.x01].
Proof.
  cbv zeta.
  destruct (@second_generation_breaks_entry
              [lit "srv"]
              (fun _ : str => lit "0cc175b9c0f1b6a831c399e269772661")
              (fun _ : str => Some (mkMetadata (lit "Chuong 1") (lit "Xin chao")
                                               None None))
              (mkTTSEngine (lit "vi-VN-HoaiMyNeural") (lit "+0%") (lit "+0%"))
              DEFAULT_MAX_CONTENT_LENGTH [] (lit "a")
              (mkMetadata (lit "Chuong 1") (lit "Xin chao") None None)
              (mkDisk (fun _ => None) (fun _ => []) 0)
              [[Byte.x01; Byte.x02]; [Byte.x03]] [[Byte.x01]] ClientClosed
              (fun _ _ => 0) (fun _ _ => 0))
    as (_ & _ & H1 & H2 & _ & H3 & H4 & _).
  - discriminate.
  - discriminate.
  - vm_compute. intuition discriminate.
  - reflexivity.
  - discriminate.
  - reflexivity.
  - reflexivity.
  - reflexivity.
  - rewrite shared_run_app.
    split; [exact H1|]. split; [exact H2|]. split; [exact H3 | exact H4].
Defined.

(** ** Cleanup by age *)








(** The example of the specification: with a maximum age of seven days,
    of two entries eight days and one day old only the first is deleted,
    and a lock file two hours old is deleted as well. *)
Example cleanup_by_age_example :
  let day := 86400%Z in
  let now := inject_Z 1700000000 in
  let entry (n : string) age := mkEntry [lit "audio_cache"; lit n] true
                       (StatOk 1000 (inject_Z (1700000000 - age))) Unlinked in
  age_log (_cleanup_by_age default_config now
             (Some [entry "a.mp3"%string (8 * day)%Z;
                    entry "b.mp3"%string (1 * day)%Z;
                    entry "c.lock"%string 7200%Z;
                    entry "d.mp3"%string 7200%Z]))
  = [([lit "audio_cache"; lit "a.mp3"], Deleted);
     ([lit "audio_cache"; lit "c.lock"], Deleted)].
Proof. vm_compute. reflexivity. Qed.

(** ** Cleanup by size *)

Lemma insert_by_mtime_perm (x : file_info) (l : list file_info) :
  Permutation (x :: l) (insert_by_mtime x l).
Proof.
  induction l as [|y l IH]; cbn [insert_by_mtime]; [reflexivity|].
  destruct (Qle_bool (fi_mtime x) (fi_mtime y)); [reflexivity|].
  rewrite perm_swap. apply perm_skip. exact IH.
Qed.

Lemma sort_by_mtime_perm (l : list file_info) : Permutation l (sort_by_mtime l).
Proof.
  induction l as [|x l IH]; cbn [sort_by_mtime fold_right]; [reflexivity|].
  rewrite <- insert_by_mtime_perm. apply perm_skip. exact IH.
Qed.



Lemma sizes_app (a b : list file_info) : sizes (a ++ b) = (sizes a + sizes b)%Z.
Proof.
  induction a as [|x a IH]; cbn [app sizes fold_right]; [reflexivity|].
  fold (sizes (a ++ b)). fold (sizes a). rewrite IH. lia.
Qed.


Lemma size_loop_spec (cfg : config) (files : list file_info) :
  forall st,
  exists done rest,
    files = done ++ rest
    /\ size_log (size_loop cfg files st)
       = size_log st ++ running (size_total st) done
    /\ Forall (fun x => int_lt_float (snd (fst x)) (CACHE_CLEANUP_TARGET_BYTES cfg)
                        = false)
              (running (size_total st) done)
    /\ (rest = []
        \/ int_lt_float (size_total (size_loop cfg files st))
                        (CACHE_CLEANUP_TARGET_BYTES cfg) = true)
    /\ size_total (size_loop cfg files st) = (size_total st - freed done)%Z
    /\ size_deleted_count (size_loop cfg files st)
       = size_deleted_count st + length (filter unlinked done).
Proof.
  induction files as [|fi files IH]; intros st.
  - exists [], []. cbn. rewrite app_nil_r.
    repeat split; auto; lia.
  - cbn [size_loop].
    destruct (int_lt_float (size_total st) (CACHE_CLEANUP_TARGET_BYTES cfg))
      eqn:Elt.
    + exists [], (fi :: files). cbn.
      rewrite app_nil_r.
      repeat split; auto; lia.
    + destruct (e_unlink (fi_entry fi)) eqn:Eu;
        match goal with
        | |- context [size_loop cfg files ?s] =>
            destruct (IH s) as (done & rest & -> & Hlog & Hall & Hrest & Htot & Hcnt)
        end;
        exists (fi :: done), rest;
        cbn [size_log size_total size_deleted_count] in *;
        (split; [reflexivity|]);
        (split; [rewrite Hlog, <- app_assoc; cbn [running app fate_of];
                 rewrite Eu; reflexivity|]);
        (split; [cbn [running]; rewrite Eu; constructor; [exact Elt | exact Hall]|]);
        (split; [exact Hrest|]);
        cbn [freed filter]; unfold unlinked at 1; rewrite Eu;
        cbn [length]; split; lia.
Qed.

(** The float of the target for two sets of limits.  With the default
    limits it is [293601280.0].  With 400 MB and 55 per cent it is
    [7740561859543041 / 33554432], which Python prints as
    [230686720.00000003]: a running total of [230686720], the product one
    would write down, is below it and stops the pass. *)
Remark target_floats :
  float_is (CACHE_CLEANUP_TARGET_BYTES default_config) (inject_Z 293601280)
  = true
  /\ float_is (CACHE_CLEANUP_TARGET_BYTES (mkConfig 7 400 55 eq_refl))
              (7740561859543041 # 33554432) = true
  /\ int_lt_float 230686720
       (CACHE_CLEANUP_TARGET_BYTES (mkConfig 7 400 55 eq_refl)) = true.
Proof. repeat split; vm_compute; reflexivity. Qed.




(** * Further properties *)

(** ** Artifact names of different keys *)

Lemma snoc_suffix_inj (k1 k2 s : str) : k1 ++ s = k2 ++ s -> k1 = k2.
Proof. apply app_inv_tail. Qed.

Lemma last_char_differs (k1 k2 s1 s2 : str) (c1 c2 : char) :
  c1 <> c2 -> k1 ++ s1 ++ [c1] <> k2 ++ s2 ++ [c2].
Proof.
  intros Hc H. rewrite !app_assoc in H.
  apply app_inj_tail in H. destruct H as [_ H]. auto.
Qed.

(** Two keys that are not empty and hold no separator never share an
    artifact: equal final, lock or temp paths mean equal keys, and no lock,
    temp or final path of one key is a path of another kind of any key. *)
Theorem artifacts_never_collide (app_root : Path) (k1 k2 : str) :
  k1 <> [] -> ~ In SLASH k1 -> k2 <> [] -> ~ In SLASH k2 ->
  let final k := get_path_from_key app_root k in
  let lock k := with_suffix (final k) (lit ".lock") in
  let temp k := with_suffix (final k) (lit ".mp3.tmp") in
  (final k1 = final k2 -> k1 = k2)
  /\ (lock k1 = lock k2 -> k1 = k2)
  /\ (temp k1 = temp k2 -> k1 = k2)
  /\ lock k1 <> final k2 /\ temp k1 <> final k2 /\ lock k1 <> temp k2.
Proof.
  intros H1 S1 H2 S2. cbv beta zeta.
  rewrite (get_path_plain_key app_root H1 S1), (get_path_plain_key app_root H2 S2).
  rewrite !with_suffix_mp3 by assumption.
  assert (Hinj : forall a b : str,
             CACHE_DIR_PATH app_root ++ [a] = CACHE_DIR_PATH app_root ++ [b] ->
             a = b).
  { intros a b H. apply app_inv_head in H. injection H as H. exact H. }
  repeat split.
  - intros H. apply Hinj in H. exact (snoc_suffix_inj _ _ _ H).
  - intros H. apply Hinj in H. exact (snoc_suffix_inj _ _ _ H).
  - intros H. apply Hinj in H. exact (snoc_suffix_inj _ _ _ H).
  - intros H. apply Hinj in H. revert H.
    apply (@last_char_differs k1 k2 (lit ".loc") (lit ".mp") (chr "k") (chr "3")).
    discriminate.
  - intros H. apply Hinj in H. revert H.
    apply (@last_char_differs k1 k2 (lit ".mp3.tm") (lit ".mp") (chr "p") (chr "3")).
    discriminate.
  - intros H. apply Hinj in H. revert H.
    apply (@last_char_differs k1 k2 (lit ".loc") (lit ".mp3.tm") (chr "k") (chr "p")).
    discriminate.
Qed.

Lemma artifacts_never_collide_witness :
  let final k := get_path_from_key [lit "srv"] k in
  with_suffix (final (lit "ab")) (lit ".lock") <> final (lit "cd").
Proof.
  cbv beta zeta.
  refine (proj1 (proj2 (proj2 (proj2
            (@artifacts_never_collide [lit "srv"] (lit "ab") (lit "cd") _ _ _ _))))).
  - discriminate.
  - vm_compute. intuition discriminate.
  - discriminate.
  - vm_compute. intuition discriminate.
Defined.

(** ** [stream_from_path] *)



(** ** The metadata cache *)

Lemma cache_get_set_same (url : str) (m : metadata) (c : metadata_cache) :
  cache_get url (cache_set url m c) = Some m.
Proof.
  unfold cache_set. cbn [cache_get].
  destruct (str_eq_dec url url); [reflexivity | congruence].
Qed.

Lemma cache_get_filter_other (url u : str) (c : metadata_cache) :
  u <> url ->
  cache_get u (filter (fun kv => if str_eq_dec (fst kv) url then false else true) c)
  = cache_get u c.
Proof.
  intros Hne. induction c as [|[k v] c IH]; [reflexivity|].
  cbn [filter fst cache_get].
  destruct (str_eq_dec k url) as [->|Hk].
  - destruct (str_eq_dec url u); [congruence | exact IH].
  - cbn [cache_get]. destruct (str_eq_dec k u); [reflexivity | exact IH].
Qed.

Lemma cache_get_set_other (url u : str) (m : metadata) (c : metadata_cache) :
  u <> url -> cache_get u (cache_set url m c) = cache_get u c.
Proof.
  intros Hne. unfold cache_set. cbn [cache_get].
  destruct (str_eq_dec url u); [congruence|].
  apply cache_get_filter_other. exact Hne.
Qed.

Lemma cache_get_in (url : str) (m : metadata) (c : metadata_cache) :
  cache_get url c = Some m -> In (url, m) c.
Proof.
  induction c as [|[k v] c IH]; cbn [cache_get]; [discriminate|].
  destruct (str_eq_dec k url) as [->|_].
  - intros [= ->]. left. reflexivity.
  - intros H. right. exact (IH H).
Qed.

(** A lookup that brings back metadata with content is remembered: the
    next lookup of the same URL returns the same metadata and leaves the
    cache alone, whatever the extractor would answer then. *)
Theorem metadata_lookup_is_remembered
    (fetch_and_parse fetch_later : str -> option metadata)
    (url : str) (c c' : metadata_cache) (m : metadata) :
  get_metadata_with_cache fetch_and_parse url c = (Some m, c') ->
  content m <> [] ->
  get_metadata_with_cache fetch_later url c' = (Some m, c').
Proof.
  unfold get_metadata_with_cache. intros H Hc.
  destruct (cache_get url c) as [m0|] eqn:E.
  - injection H as <- <-. rewrite E. reflexivity.
  - destruct (fetch_and_parse url) as [m0|]; [|discriminate].
    destruct (content m0) as [|x t] eqn:Ec; cbn [truthy] in H;
      injection H as <- <-; [congruence|].
    rewrite cache_get_set_same. reflexivity.
Qed.

Lemma metadata_lookup_is_remembered_witness :
  let m := mkMetadata (lit "Chuong 1") (lit "Xin chao") None None in
  get_metadata_with_cache (fun _ => None) (lit "u") [(lit "u", m)]
  = (Some m, [(lit "u", m)]).
Proof.
  cbv zeta.
  apply (@metadata_lookup_is_remembered
           (fun _ => Some (mkMetadata (lit "Chuong 1") (lit "Xin chao") None None))
           (fun _ => None) (lit "u") [] [(lit "u", _)] _).
  - reflexivity.
  - discriminate.
Defined.

(** The cache holds complete results only: if every cached entry has
    content before a lookup, every cached entry has content after it; a
    lookup that brings back nothing, or metadata without content, leaves
    the cache as it was; and no lookup changes what is cached for another
    URL. *)
Theorem metadata_cache_only_complete
    (fetch_and_parse : str -> option metadata) (url : str) (c : metadata_cache) :
  let m := fst (get_metadata_with_cache fetch_and_parse url c) in
  let c' := snd (get_metadata_with_cache fetch_and_parse url c) in
  ((forall k v, In (k, v) c -> content v <> []) ->
   forall k v, In (k, v) c' -> content v <> [])
  /\ ((m = None \/ exists md, m = Some md /\ content md = []) -> c' = c)
  /\ (forall u, u <> url -> cache_get u c' = cache_get u c).
Proof.
  cbv zeta. unfold get_metadata_with_cache.
  destruct (cache_get url c) as [m0|] eqn:E; cbn [fst snd].
  - repeat split; auto.
  - destruct (fetch_and_parse url) as [m0|]; cbn [fst snd];
      [|repeat split; auto].
    destruct (content m0) as [|x t] eqn:Ec; cbn [truthy fst snd].
    + repeat split; auto.
    + split; [|split].
      * intros Hall k v [[= <- <-] | Hin]; [congruence|].
        unfold cache_set in Hin. apply filter_In in Hin.
        exact (Hall k v (proj1 Hin)).
      * intros [[=] | (md & [= <-] & Hmd)]. congruence.
      * intros u Hu. apply cache_get_set_other. exact Hu.
Qed.

(** ** [read_stream] as a whole *)

Section ReadStreamWhole.

Variable app_root : Path.
Variable md5_hexdigest : str -> str.
Variable fetch_and_parse : str -> option metadata.
Variable tts_engine : option TTSEngine.
Variable MAX_CONTENT_LENGTH : Z.
Variable notice : str.

(** Whatever the request and whatever it is answered, when the view
    returns every path of the store holds what it held before: the view
    creates no file that outlives it, its own lock file included, and it
    removes no file, a lock file found there included. *)
Theorem read_stream_leaves_store (url : option str) (w : world) (x : Path) :
  files (snd (read_stream app_root md5_hexdigest fetch_and_parse tts_engine
                          MAX_CONTENT_LENGTH notice url w)) x
  = files w x.
Proof.
  unfold read_stream.
  destruct url as [[|ch u]|]; [reflexivity| |reflexivity].
  destruct tts_engine; [|reflexivity].
  set (final_path := get_path_from_key app_root (md5_hexdigest (ch :: u))).
  set (lock_path := with_suffix final_path (lit ".lock")).
  destruct (check_cache_exists final_path (files w)); [reflexivity|].
  destruct (fs_exists lock_path (files w)) eqn:El; [reflexivity|].
  destruct (get_metadata_with_cache fetch_and_parse (ch :: u) (cached_metadata w))
    as [m c1].
  cbn [snd files]. unfold fs_touch. rewrite El.
  unfold fs_exists at 1. rewrite fs_write_same.
  destruct (path_eq_dec x lock_path) as [->|Hx].
  - rewrite fs_remove_same. unfold fs_exists in El.
    destruct (files w lock_path); [discriminate | reflexivity].
  - rewrite fs_remove_other, fs_write_other by exact Hx. reflexivity.
Qed.


End ReadStreamWhole.


(** ** The engine at start-up *)

(** Once the application has started, the 503 answer of [read_stream] is
    out of reach: [create_tts_engine] returns an engine or raises, so the
    engine the view tests is never missing. *)
Theorem started_app_never_answers_503 (env : environ) (engine : option TTSEngine)
    (app_root : Path) (md5_hexdigest : str -> str)
    (fetch_and_parse : str -> option metadata) (limit : Z) (notice : str)
    (url : option str) (w : world) :
  app_tts_engine env = Ok engine ->
  fst (read_stream app_root md5_hexdigest fetch_and_parse engine limit notice
                   url w)
  <> Json 503.
Proof.
  unfold app_tts_engine.
  destruct (create_tts_engine env) as [e|e]; [|discriminate].
  intros [= <-]. unfold read_stream.
  destruct url as [[|ch u]|]; [discriminate| |discriminate].
  destruct (check_cache_exists _ (files w)); [discriminate|].
  destruct (fs_exists _ (files w)); [discriminate|].
  destruct (get_metadata_with_cache fetch_and_parse (ch :: u) (cached_metadata w))
    as [[md|] c1]; cbn [fst]; [|discriminate].
  destruct (negb (truthy (content md))); discriminate.
Qed.

Lemma started_app_never_answers_503_witness :
  fst (read_stream [lit "srv"] (fun _ => lit "k") (fun _ => None)
                   (Some (mkTTSEngine (lit "vi-VN-HoaiMyNeural")
                                      (lit "+0%") (lit "+0%")))
                   DEFAULT_MAX_CONTENT_LENGTH [] None (mkWorld fs_empty []))
  <> Json 503.
Proof.
  apply (@started_app_never_answers_503 (fun _ => None)).
  reflexivity.
Defined.

(** ** From a generation to the next request *)








(** A generation changes no path of the store but its temp path and its
    final path, at any state it passes through. *)
Theorem generation_touches_two_paths (final_path : Path) (frames : list bytes)
    (e : loop_end) (f0 : fs) (s : fs) (x : Path) :
  In s (gen_trace (generate_and_cache final_path frames e f0)) ->
  x <> with_suffix final_path (lit ".mp3.tmp") -> x <> final_path ->
  s x = f0 x.
Proof. apply generate_and_cache_frame. Qed.

Lemma generation_touches_two_paths_witness :
  let final_path := [lit "d"; lit "k.mp3"] in
  let s := fs_write (with_suffix final_path (lit ".mp3.tmp")) [] fs_empty in
  s [lit "d"; lit "other.mp3"] = None.
Proof.
  cbv zeta.
  apply (@generation_touches_two_paths
           [lit "d"; lit "k.mp3"] [[Byte.x01]] (StreamRaised ChunkTimedOut)
           fs_empty _ [lit "d"; lit "other.mp3"]).
  - left. reflexivity.
  - intros H. vm_compute in H. discriminate.
  - discriminate.
Defined.

(** A metadata request prepares the read request: once [/api/metadata] has
    answered for a URL whose page has a title and content, [/api/read] for
    that URL (cache miss, no lock) builds its text from the remembered
    metadata, whatever the extractor would answer then. *)
Theorem metadata_request_prepares_read (app_root : Path)
    (md5_hexdigest : str -> str)
    (fetch_and_parse fetch_later : str -> option metadata)
    (eng : TTSEngine) (limit : Z) (notice : str)
    (url : str) (md : metadata) (c : metadata_cache) (f : fs) :
  url <> [] -> cache_get url c = None ->
  fetch_and_parse url = Some md -> title md <> [] -> content md <> [] ->
  let final_path := get_path_from_key app_root (md5_hexdigest url) in
  let lock_path := with_suffix final_path (lit ".lock") in
  f final_path = None -> f lock_path = None ->
  let r := get_metadata fetch_and_parse (Some url) c in
  fst r = MetadataOk (title md) (next_url md) (prev_url md)
  /\ read_stream app_root md5_hexdigest fetch_later (Some eng) limit notice
                 (Some url) (mkWorld f (snd r))
     = (Streaming
          (Generate final_path
             (if (limit <? Z.of_nat (length (content md)))%Z
              then slice_to (content md) limit ++ notice
              else content md)),
        mkWorld (fs_remove lock_path (fs_write lock_path [] f)) (snd r)).
Proof.
  intros Hu Hc Hf Ht Hcont final_path lock_path Hfin Hlock r.
  assert (Hm : get_metadata_with_cache fetch_and_parse url c
               = (Some md, cache_set url md c)).
  { unfold get_metadata_with_cache. rewrite Hc, Hf.
    destruct (content md); [congruence | reflexivity]. }
  assert (Hr : r = (MetadataOk (title md) (next_url md) (prev_url md),
                    cache_set url md c)).
  { unfold r, get_metadata. destruct url as [|ch u]; [congruence|].
    rewrite Hm. destruct (title md); [congruence | reflexivity]. }
  rewrite Hr. cbn [fst snd]. split; [reflexivity|].
  apply read_stream_miss; try assumption.
  unfold get_metadata_with_cache. rewrite cache_get_set_same. reflexivity.
Qed.

Lemma metadata_request_prepares_read_witness :
  let md := mkMetadata (lit "Chuong 1") (lit "Xin chao") None None in
  fst (get_metadata (fun _ => Some md) (Some (lit "a")) [])
  = MetadataOk (lit "Chuong 1") None None.
Proof.
  cbv zeta.
  refine (proj1 (@metadata_request_prepares_read
                   [lit "srv"] (fun _ => lit "k")
                   (fun _ => Some (mkMetadata (lit "Chuong 1") (lit "Xin chao")
                                              None None))
                   (fun _ => None)
                   (mkTTSEngine (lit "v") (lit "+0%") (lit "+0%"))
                   DEFAULT_MAX_CONTENT_LENGTH []
                   (lit "a")
                   (mkMetadata (lit "Chuong 1") (lit "Xin chao") None None)
                   [] fs_empty _ _ _ _ _ _ _)).
  - discriminate.
  - reflexivity.
  - reflexivity.
  - discriminate.
  - discriminate.
  - reflexivity.
  - reflexivity.
Defined.

(** ** The size pass: what it counts and what it may delete *)

Lemma size_scan_spec (entries : list dir_entry) :
  forall acc total,
    let r := size_scan entries acc total in
    exists found,
      fst r = acc ++ found
      /\ snd r = (total + sizes found)%Z
      /\ length found <= length entries
      /\ forall fi, In fi found ->
           In (fi_entry fi) entries
           /\ e_is_file (fi_entry fi) = true
           /\ e_stat (fi_entry fi) = StatOk (fi_size fi) (fi_mtime fi).
Proof.
  induction entries as [|e rest IH]; intros acc total; cbn [size_scan].
  - exists []. cbn. rewrite app_nil_r, Z.add_0_r. repeat split; auto.
    contradiction.
  - assert (Hskip :
      exists found,
        fst (size_scan rest acc total) = acc ++ found
        /\ snd (size_scan rest acc total) = (total + sizes found)%Z
        /\ length found <= length (e :: rest)
        /\ forall fi, In fi found ->
             In (fi_entry fi) (e :: rest)
             /\ e_is_file (fi_entry fi) = true
             /\ e_stat (fi_entry fi) = StatOk (fi_size fi) (fi_mtime fi)).
    { destruct (IH acc total) as (found & H1 & H2 & H3 & H4).
      exists found. cbn [length]. repeat split; auto; try lia;
        try (right; apply H4; assumption); apply H4; assumption. }
    destruct (e_is_file e) eqn:Ef; cbn [negb]; [|exact Hskip].
    destruct (e_stat e) as [sz mt| |] eqn:Es; try exact Hskip.
    destruct (IH (acc ++ [mkInfo e sz mt]) (total + sz)%Z)
      as (found & H1 & H2 & H3 & H4).
    exists (mkInfo e sz mt :: found). cbv zeta in *.
    rewrite H1, H2, <- app_assoc. cbn [app sizes fold_right fi_size length].
    split; [reflexivity|]. split; [unfold sizes; lia|]. split; [lia|].
    intros fi [<- | Hin]; cbn [fi_entry fi_size fi_mtime].
    + repeat split; auto. left. reflexivity.
    + destruct (H4 fi Hin) as (Ha & Hb & Hc). repeat split; auto. right. exact Ha.
Qed.

Lemma sizes_perm (a b : list file_info) : Permutation a b -> sizes a = sizes b.
Proof.
  induction 1 as [|x a b _ IH|x y a|a b c _ IH1 _ IH2].
  - reflexivity.
  - cbn [sizes fold_right]. fold (sizes a). fold (sizes b). lia.
  - cbn [sizes fold_right]. fold (sizes a). lia.
  - congruence.
Qed.

Lemma freed_kept (done : list file_info) :
  (freed done + sizes (kept_by_error done))%Z = sizes done.
Proof.
  induction done as [|fi done IH]; [reflexivity|].
  cbn [freed kept_by_error filter sizes fold_right].
  fold (kept_by_error done). fold (sizes done).
  destruct (e_unlink (fi_entry fi)); cbn [sizes fold_right];
    fold (sizes (kept_by_error done)); lia.
Qed.

Lemma running_length (total : Z) (done : list file_info) :
  length (running total done) = length done.
Proof.
  revert total; induction done as [|fi done IH]; intros total; [reflexivity|].
  cbn [running length]. rewrite IH. reflexivity.
Qed.

Lemma running_paths (total : Z) (done : list file_info) :
  map (fun x => fst (fst x)) (running total done)
  = map (fun fi => e_path (fi_entry fi)) done.
Proof.
  revert total; induction done as [|fi done IH]; intros total; [reflexivity|].
  cbn [running map fst]. rewrite IH. reflexivity.
Qed.

Lemma size_pass_total_is_what_is_left_aux (cfg : config) (entries : list dir_entry) :
  let files := fst (size_scan entries [] 0%Z) in
  let st := _cleanup_by_size cfg (Some entries) in
  let n := length (size_log st) in
  size_total st
  = (sizes (skipn n (sort_by_mtime files))
     + sizes (kept_by_error (firstn n (sort_by_mtime files))))%Z.
Proof.
  cbv zeta. unfold _cleanup_by_size.
  destruct (size_scan_spec entries [] 0%Z) as (found & Hf & Ht & _ & _).
  cbv zeta in Hf, Ht.
  destruct (size_scan entries [] 0%Z) as [files total]. cbn [fst snd app] in *.
  subst files. rewrite Z.add_0_l in Ht.
  destruct (total <? CACHE_MAX_SIZE_BYTES cfg)%Z.
  - cbn [size_log size_total length skipn firstn kept_by_error filter].
    rewrite <- (sizes_perm (sort_by_mtime_perm found)).
    change (sizes []) with 0%Z. lia.
  - destruct (size_loop_spec cfg (sort_by_mtime found) (mkSize 0 total []))
      as (done & rest & Hsplit & Hlog & _ & _ & Htot & _).
    cbn [size_log size_total app] in *.
    rewrite Hlog, running_length, Htot, Hsplit.
    rewrite skipn_app, firstn_app, Nat.sub_diag, skipn_all, firstn_all.
    cbn [skipn firstn app]. rewrite app_nil_r.
    pose proof (sizes_perm (sort_by_mtime_perm found)) as Hp.
    rewrite Hsplit, sizes_app in Hp.
    pose proof (freed_kept done). lia.
Qed.

(** The books of the size pass balance.  With [n] the number of [unlink]
    calls made, the total the pass ends with is the size of the files it
    did not reach plus the size of the files whose [unlink] failed with
    another [OSError]: the bytes of every file still in place, and of no
    other. *)
Theorem size_pass_total_is_what_is_left (cfg : config) (entries : list dir_entry) :
  let files := fst (size_scan entries [] 0%Z) in
  let st := _cleanup_by_size cfg (Some entries) in
  let n := length (size_log st) in
  size_total st
  = (sizes (skipn n (sort_by_mtime files))
     + sizes (kept_by_error (firstn n (sort_by_mtime files))))%Z.
Proof. apply size_pass_total_is_what_is_left_aux. Qed.

(** The size pass calls [unlink] only on paths of the listing that are
    regular files and could be statted, and on each such file at most as
    often as it is listed. *)
Theorem size_pass_only_regular_files (cfg : config) (entries : list dir_entry) :
  let st := _cleanup_by_size cfg (Some entries) in
  (forall p seen ft,
      In (p, seen, ft) (size_log st) ->
      exists e size mtime,
        In e entries /\ e_path e = p /\ e_is_file e = true
        /\ e_stat e = StatOk size mtime)
  /\ length (size_log st) <= length entries
  /\ size_deleted_count st <= length (size_log st).
Proof.
  cbv zeta. unfold _cleanup_by_size.
  destruct (size_scan_spec entries [] 0%Z) as (found & Hf & _ & Hlen & Hfound).
  cbv zeta in Hf.
  destruct (size_scan entries [] 0%Z) as [files total]. cbn [fst snd app] in *.
  subst files.
  destruct (total <? CACHE_MAX_SIZE_BYTES cfg)%Z.
  - cbn [size_log size_deleted_count length]. repeat split; try lia.
    intros p seen ft [].
  - destruct (size_loop_spec cfg (sort_by_mtime found) (mkSize 0 total []))
      as (done & rest & Hsplit & Hlog & _ & _ & _ & Hcnt).
    cbn [size_log size_deleted_count app] in *.
    assert (Hdone : length done <= length found).
    { rewrite (Permutation_length (sort_by_mtime_perm found)), Hsplit, length_app.
      lia. }
    rewrite Hlog, running_length, Hcnt. repeat split.
    + intros p seen ft Hin.
      apply (in_map (fun x => fst (fst x))) in Hin. cbn [fst] in Hin.
      rewrite running_paths in Hin. apply in_map_iff in Hin.
      destruct Hin as (fi & <- & Hfi).
      assert (Hin' : In fi found).
      { apply (Permutation_in fi (Permutation_sym (sort_by_mtime_perm found))).
        rewrite Hsplit. apply in_or_app. left. exact Hfi. }
      destruct (Hfound fi Hin') as (Ha & Hb & Hc).
      exists (fi_entry fi), (fi_size fi), (fi_mtime fi). auto.
    + lia.
    + pose proof (filter_length_le unlinked done). lia.
Qed.


(** *** The float of the target *)

Lemma round_half_even_nonneg (n d : Z) :
  (0 <= n)%Z -> (0 < d)%Z -> (0 <= round_half_even n d)%Z.
Proof.
  intros Hn Hd. unfold round_half_even.
  pose proof (Z.div_pos n d Hn Hd).
  destruct (2 * (n mod d) ?= d)%Z; [destruct (Z.even (n / d))|..]; lia.
Qed.

(** Rounding to the nearest integer adds at most one half. *)
Lemma round_half_even_upper (n d : Z) :
  (0 < d)%Z -> (2 * round_half_even n d * d <= 2 * n + d)%Z.
Proof.
  intros Hd. unfold round_half_even.
  pose proof (Z.div_mod n d ltac:(lia)) as E.
  pose proof (Z.mod_pos_bound n d Hd) as B.
  destruct (Z.compare_spec (2 * (n mod d)) d) as [H|H|H];
    [destruct (Z.even (n / d))|..]; nia.
Qed.

Lemma pow2_pos (e : Z) : (0 < 2 ^ Z.max 0 e)%Z.
Proof. apply Z.pow_pos_nonneg; lia. Qed.

Lemma ulp_exponent_le (n d : Z) :
  (ulp_exponent n d <= Z.log2 n - Z.log2 d - 52)%Z.
Proof.
  unfold ulp_exponent. destruct (scaled n d _) as [n0 d0].
  destruct (n0 / d0 <? 2 ^ 52)%Z; lia.
Qed.

(** At such an exponent the scaled fraction is [2^51] at least. *)
Lemma scaled_lower (n d e : Z) :
  (0 < n)%Z -> (0 < d)%Z -> (e <= Z.log2 n - Z.log2 d - 52)%Z ->
  (2 ^ 51 * snd (scaled n d e) <= fst (scaled n d e))%Z.
Proof.
  intros Hn Hd He. unfold scaled. cbn [fst snd].
  pose proof (Z.log2_spec n Hn) as [Hn1 _].
  pose proof (Z.log2_spec d Hd) as [_ Hd2].
  pose proof (Z.log2_nonneg n) as Ln. pose proof (Z.log2_nonneg d) as Ld.
  set (a := Z.max 0 (- e)). set (b := Z.max 0 e).
  assert (Hab : (51 + (Z.log2 d + 1) + b <= Z.log2 n + a)%Z) by (unfold a, b; lia).
  assert (H1 : (2 ^ 51 * (d * 2 ^ b) <= 2 ^ 51 * (2 ^ (Z.log2 d + 1) * 2 ^ b))%Z).
  { apply Z.mul_le_mono_nonneg_l; [apply Z.pow_nonneg; lia|].
    apply Z.mul_le_mono_nonneg_r; [apply Z.pow_nonneg; lia | lia]. }
  assert (H2 : (2 ^ 51 * (2 ^ (Z.log2 d + 1) * 2 ^ b)
                = 2 ^ (51 + (Z.log2 d + 1) + b))%Z).
  { rewrite !Z.pow_add_r by (unfold b; lia). ring. }
  assert (H3 : (2 ^ (51 + (Z.log2 d + 1) + b) <= 2 ^ (Z.log2 n + a))%Z)
    by (apply Z.pow_le_mono_r; lia).
  assert (H4 : (2 ^ (Z.log2 n + a) = 2 ^ Z.log2 n * 2 ^ a)%Z)
    by (rewrite Z.pow_add_r by (unfold a; lia); reflexivity).
  assert (H5 : (2 ^ Z.log2 n * 2 ^ a <= n * 2 ^ a)%Z)
    by (apply Z.mul_le_mono_nonneg_r; [apply Z.pow_nonneg; lia | lia]).
  lia.
Qed.

Lemma round53_pos_nonneg (n d : Z) :
  (0 < n)%Z -> (0 < d)%Z -> (0 <= round53_pos n d)%Q.
Proof.
  intros Hn Hd. unfold round53_pos, scaled, dyadic.
  unfold Qle. cbn [Qnum Qden]. rewrite Z.mul_1_r, Z.mul_0_l.
  apply Z.mul_nonneg_nonneg; [|apply Z.lt_le_incl, pow2_pos].
  apply round_half_even_nonneg.
  - apply Z.mul_nonneg_nonneg; [lia | apply Z.lt_le_incl, pow2_pos].
  - apply Z.mul_pos_pos; [lia | apply pow2_pos].
Qed.

Lemma round53_pos_upper (n d : Z) :
  (0 < n)%Z -> (0 < d)%Z ->
  (round53_pos n d * inject_Z (2 ^ 52)
   <= (n # Z.to_pos d) * inject_Z (2 ^ 52 + 1))%Q.
Proof.
  intros Hn Hd. unfold round53_pos.
  pose proof (scaled_lower Hn Hd (ulp_exponent_le n d)) as Hlow.
  set (e := ulp_exponent n d) in *. unfold scaled in *. cbn [fst snd] in Hlow.
  unfold dyadic.
  pose proof (pow2_pos e) as Hb. pose proof (pow2_pos (- e)) as Ha.
  set (a := (2 ^ Z.max 0 (- e))%Z) in *. set (b := (2 ^ Z.max 0 e)%Z) in *.
  assert (Hup := @round_half_even_upper (n * a) (d * b) ltac:(nia)).
  assert (Hm := @round_half_even_nonneg (n * a) (d * b) ltac:(nia) ltac:(nia)).
  set (m := round_half_even (n * a) (d * b)) in *.
  unfold Qle, Qmult, inject_Z. cbn [Qnum Qden].
  rewrite !Pos.mul_1_r, !Z2Pos.id by lia.
  assert (H : (m * b * d * 2 ^ 52 <= n * a * 2 ^ 52 + d * b * 2 ^ 51)%Z) by nia.
  nia.
Qed.

Lemma round53_nonpos (x : Q) : (x <= 0)%Q -> (round53 x <= 0)%Q.
Proof.
  destruct x as [n d]. intros H. unfold Qle in H. cbn [Qnum Qden] in H.
  unfold round53. cbn [Qnum Qden].
  destruct n as [|n|n]; [lra | lia |].
  pose proof (@round53_pos_nonneg (Zpos n) (Zpos d) ltac:(lia) ltac:(lia)) as Hp.
  lra.
Qed.

Lemma round53_nonneg (x : Q) : (0 <= x)%Q -> (0 <= round53 x)%Q.
Proof.
  destruct x as [n d]. intros H. unfold Qle in H. cbn [Qnum Qden] in H.
  unfold round53. cbn [Qnum Qden].
  destruct n as [|n|n]; [lra | | lia].
  apply round53_pos_nonneg; lia.
Qed.

(** Rounding adds at most one part in [2^52] to a positive rational. *)
Lemma round53_upper (x : Q) :
  (0 < x)%Q ->
  (round53 x * 4503599627370496 <= x * 4503599627370497)%Q.
Proof.
  destruct x as [n d]. intros H. unfold Qlt in H. cbn [Qnum Qden] in H.
  unfold round53. cbn [Qnum Qden].
  destruct n as [|n|n]; [lia | | lia].
  exact (@round53_pos_upper (Zpos n) (Zpos d) ltac:(lia) ltac:(lia)).
Qed.

Lemma too_large_false (r : Q) :
  too_large r = false -> (r < inject_Z (2 ^ 1024))%Q.
Proof.
  unfold too_large. intros H. apply orb_false_elim in H. destruct H as [H _].
  apply Qnot_le_lt. intros Hle. apply Qle_bool_iff in Hle. congruence.
Qed.

Lemma too_large_small (r : Q) :
  (0 <= r)%Q -> (r < inject_Z (2 ^ 1024))%Q -> too_large r = false.
Proof.
  intros H0 H1. unfold too_large. apply orb_false_intro.
  - destruct (Qle_bool (inject_Z (2 ^ 1024)) r) eqn:E; [|reflexivity].
    apply Qle_bool_iff in E. lra.
  - destruct (Qle_bool r (inject_Z (- 2 ^ 1024))) eqn:E; [|reflexivity].
    apply Qle_bool_iff in E. exfalso.
    assert (inject_Z (- 2 ^ 1024) < 0)%Q by (unfold Qlt; cbn; lia). lra.
Qed.

Lemma int_lt_float_finite (n : Z) (q : Q) :
  int_lt_float n (Finite q) = true -> (inject_Z n < q)%Q.
Proof.
  cbn. rewrite negb_true_iff. intros H. apply Qnot_le_lt. intros Hle.
  apply Qle_bool_iff in Hle. congruence.
Qed.

(** An integer below the float of a rational that is not positive is
    negative. *)
Lemma int_lt_float_nonpos (t : Z) (x : Q) :
  (x <= 0)%Q -> int_lt_float t (round_to_float x) = true -> (t < 0)%Z.
Proof.
  intros Hx. pose proof (round53_nonpos Hx) as Hr.
  unfold round_to_float. set (r := round53 x) in *. clearbody r.
  destruct (too_large r) eqn:El.
  - destruct (Qle_bool 0 r) eqn:E; [|discriminate].
    apply Qle_bool_iff in E.
    rewrite too_large_small in El; [discriminate | exact E |].
    assert (0 < inject_Z (2 ^ 1024))%Q by (unfold Qlt; cbn; lia). lra.
  - intros H. apply int_lt_float_finite in H.
    assert (Hlt : (inject_Z t < 0)%Q) by lra.
    unfold Qlt in Hlt. cbn in Hlt. lia.
Qed.

(** Three roundings of a product whose second factor is at most 99
    hundredths leave it below its first factor. *)
Lemma rounding_chain (M m f P r : Q) :
  (0 < M)%Q -> (0 <= m)%Q ->
  (m * 4503599627370496 <= M * 4503599627370497)%Q ->
  (0 <= f)%Q -> (P <= 99 # 100)%Q ->
  (f * 4503599627370496 <= P * 4503599627370497)%Q ->
  (r * 4503599627370496 <= m * f * 4503599627370497)%Q ->
  (r <= m /\ r < M)%Q.
Proof.
  intros HM Hm0 Hm Hf0 HP Hf Hr.
  assert (Hf1 : (f <= (99 # 100) * (4503599627370497 # 4503599627370496))%Q)
    by lra.
  assert (Hx1 : (m * f
                 <= m * ((99 # 100) * (4503599627370497 # 4503599627370496)))%Q)
    by nra.
  assert (Hrm : (r <= m * ((99 # 100)
                           * (4503599627370497 # 4503599627370496)
                           * (4503599627370497 # 4503599627370496)))%Q) by lra.
  split; lra.
Qed.




Lemma target_below_max (cfg : config) (t : Z) :
  (0 < CACHE_MAX_SIZE_MB cfg)%Z ->
  (CACHE_CLEANUP_TARGET_PERCENT cfg < 100)%Z ->
  int_lt_float t (CACHE_CLEANUP_TARGET_BYTES cfg) = true ->
  (t < CACHE_MAX_SIZE_BYTES cfg)%Z.
Proof.
  intros Hmb Hp. unfold CACHE_CLEANUP_TARGET_BYTES.
  pose proof (module_imported cfg) as Himp. unfold import_raises in Himp.
  apply orb_false_elim in Himp. destruct Himp as [_ Himp].
  fold (CACHE_MAX_SIZE_BYTES cfg) in Himp. apply too_large_false in Himp.
  assert (HM : (0 < CACHE_MAX_SIZE_BYTES cfg)%Z)
    by (unfold CACHE_MAX_SIZE_BYTES; lia).
  set (M := CACHE_MAX_SIZE_BYTES cfg) in *. clearbody M.
  set (pct := CACHE_CLEANUP_TARGET_PERCENT cfg) in *. clearbody pct.
  assert (HMq : (0 < inject_Z M)%Q) by (unfold Qlt; cbn; lia).
  pose proof (round53_upper HMq) as Hm.
  pose proof (round53_nonneg (Qlt_le_weak _ _ HMq)) as Hm0.
  set (m := round53 (inject_Z M)) in *. clearbody m.
  destruct (Qlt_le_dec 0 (m * round53 (pct # 100))) as [Hpos|Hneg].
  - destruct (Z_le_gt_dec pct 0) as [Hle|Hgt].
    { exfalso.
      assert (Hf : (round53 (pct # 100) <= 0)%Q)
        by (apply round53_nonpos; unfold Qle; cbn; lia).
      set (f := round53 (pct # 100)) in *. clearbody f. nra. }
    assert (Hpq : (0 < pct # 100)%Q) by (unfold Qlt; cbn; lia).
    assert (Hp99 : (pct # 100 <= 99 # 100)%Q) by (unfold Qle; cbn; lia).
    pose proof (round53_upper Hpq) as Hf.
    pose proof (round53_nonneg (Qlt_le_weak _ _ Hpq)) as Hf0.
    set (P := (pct # 100)%Q) in *. clearbody P.
    set (f := round53 P) in *. clearbody f.
    pose proof (round53_upper Hpos) as Hr.
    pose proof (round53_nonneg (Qlt_le_weak _ _ Hpos)) as Hr0.
    unfold round_to_float.
    set (r := round53 (m * f)) in *. clearbody r.
    destruct (rounding_chain HMq Hm0 Hm Hf0 Hp99 Hf Hr) as [Hrm HrM].
    rewrite too_large_small by lra.
    intros H. apply int_lt_float_finite in H.
    assert (Hlt : (inject_Z t < inject_Z M)%Q) by lra.
    unfold Qlt in Hlt. cbn in Hlt. lia.
  - intros H. apply int_lt_float_nonpos in H; [lia | exact Hneg].
Qed.

(** The target below the maximum gives the pass room: when the maximum
    size is positive and the target percentage below 100, and a pass that
    had to delete met no [OSError], a second pass over the files the first
    one left (in any order) finds the total below the maximum and deletes
    nothing. *)
Theorem size_pass_then_idle (cfg : config) (entries entries2 : list dir_entry) :
  (0 < CACHE_MAX_SIZE_MB cfg)%Z ->
  (CACHE_CLEANUP_TARGET_PERCENT cfg < 100)%Z ->
  let files := fst (size_scan entries [] 0%Z) in
  let st := _cleanup_by_size cfg (Some entries) in
  (CACHE_MAX_SIZE_BYTES cfg <= snd (size_scan entries [] 0%Z))%Z ->
  (forall p seen, ~ In (p, seen, FailedOSError) (size_log st)) ->
  Permutation (fst (size_scan entries2 [] 0%Z))
              (skipn (length (size_log st)) (sort_by_mtime files)) ->
  _cleanup_by_size cfg (Some entries2)
  = mkSize 0 (size_total st) [].
Proof.
  intros Hm Hp files st Hover Hnoerr Hperm.
  pose proof (size_pass_total_is_what_is_left_aux cfg entries) as Hacc.
  cbv zeta in Hacc. fold files in Hacc. fold st in Hacc.
  destruct (size_scan_spec entries2 [] 0%Z) as (found2 & Hf2 & Ht2 & _ & _).
  cbv zeta in Hf2, Ht2. cbn [app] in Hf2. rewrite Z.add_0_l in Ht2.
  assert (Hrest : st = _cleanup_by_size cfg (Some entries)) by reflexivity.
  unfold _cleanup_by_size in Hrest.
  destruct (size_scan_spec entries [] 0%Z) as (found & Hf & Ht & _ & _).
  cbv zeta in Hf, Ht. cbn [app] in Hf. rewrite Z.add_0_l in Ht.
  unfold files in *. clear files.
  destruct (size_scan entries [] 0%Z) as [files total]. cbn [fst snd] in *.
  subst files.
  apply Z.ltb_ge in Hover. rewrite Hover in Hrest.
  destruct (size_loop_spec cfg (sort_by_mtime found) (mkSize 0 total []))
    as (done & rest & Hsplit & Hlog & _ & Hstop & _ & _).
  rewrite <- Hrest in Hlog, Hstop. cbn [size_log app] in Hlog.
  assert (Hkept : kept_by_error done = []).
  { clear - Hlog Hnoerr. revert Hlog Hnoerr. generalize (size_log st).
    generalize total. induction done as [|fi done IH]; intros t l Hl Hno;
      [reflexivity|].
    cbn [running] in Hl. subst l. cbn [kept_by_error filter].
    destruct (e_unlink (fi_entry fi)) eqn:Eu; cbn [fate_of] in Hno.
    - eapply IH; [reflexivity|]. intros p seen Hin. eapply Hno. right. exact Hin.
    - eapply IH; [reflexivity|]. intros p seen Hin. eapply Hno. right. exact Hin.
    - exfalso. eapply Hno. left. reflexivity. }
  rewrite Hlog, running_length, Hsplit in Hacc, Hperm.
  rewrite skipn_app, Nat.sub_diag, skipn_all in Hacc, Hperm.
  rewrite firstn_app, Nat.sub_diag, firstn_all in Hacc.
  cbn [skipn firstn app] in Hacc, Hperm. rewrite app_nil_r in Hacc.
  rewrite Hkept in Hacc. change (sizes []) with 0%Z in Hacc.
  unfold _cleanup_by_size.
  destruct (size_scan entries2 [] 0%Z) as [files2 total2]. cbn [fst snd] in *.
  subst files2. rewrite (sizes_perm Hperm) in Ht2.
  assert (Htot : total2 = size_total st) by lia.
  assert (Hlt : (total2 < CACHE_MAX_SIZE_BYTES cfg)%Z).
  { destruct Hstop as [-> | Hstop].
    - change (sizes []) with 0%Z in Ht2. unfold CACHE_MAX_SIZE_BYTES. lia.
    - rewrite Htot. exact (@target_below_max cfg _ Hm Hp Hstop). }
  apply Z.ltb_lt in Hlt. rewrite Hlt, Htot. reflexivity.
Qed.

Lemma size_pass_then_idle_witness :
  let mb := (1024 * 1024)%Z in
  let entry (n : string) (t : Z) :=
    mkEntry [lit "audio_cache"; lit n] true
            (StatOk (100 * mb) (inject_Z t)) Unlinked in
  _cleanup_by_size default_config
                   (Some [entry "e.mp3"%string 5%Z; entry "d.mp3"%string 4%Z])
  = mkSize 0 (200 * mb) [].
Proof.
  cbv beta zeta.
  refine (@size_pass_then_idle default_config
            [mkEntry [lit "audio_cache"; lit "c.mp3"] true
                     (StatOk (100 * (1024 * 1024)) (inject_Z 3)) Unlinked;
             mkEntry [lit "audio_cache"; lit "a.mp3"] true
                     (StatOk (100 * (1024 * 1024)) (inject_Z 1)) Unlinked;
             mkEntry [lit "audio_cache"; lit "e.mp3"] true
                     (StatOk (100 * (1024 * 1024)) (inject_Z 5)) Unlinked;
             mkEntry [lit "audio_cache"; lit "b.mp3"] true
                     (StatOk (100 * (1024 * 1024)) (inject_Z 2)) Unlinked;
             mkEntry [lit "audio_cache"; lit "d.mp3"] true
                     (StatOk (100 * (1024 * 1024)) (inject_Z 4)) Unlinked]
            _ _ _ _ _ _).
  - reflexivity.
  - reflexivity.
  - vm_compute. discriminate.
  - intros p seen H. vm_compute in H.
    repeat (destruct H as [H | H]; [discriminate|]). exact H.
  - vm_compute. apply perm_swap.
Defined.

(** ** More on the chunker *)

Lemma chunk_text_length_bound_witness :
  In (lit "ab" ++ [NL]) (_chunk_text (lit "ab"))
  /\ length (lit "ab" ++ [NL]) <= TEXT_CHUNK_SIZE.
Proof.
  assert (H : In (lit "ab" ++ [NL]) (_chunk_text (lit "ab")))
    by (vm_compute; left; reflexivity).
  split; [exact H | exact (@chunk_text_length_bound _ _ H)].
Defined.

Lemma chunk_text_short_paragraphs_witness :
  non_space (concat (_chunk_text (lit "ab cd" ++ [NL] ++ lit "ef")))
  = lit "abcdef".
Proof.
  apply (@chunk_text_short_paragraphs (lit "ab cd" ++ [NL] ++ lit "ef")).
  assert (E : split NL (lit "ab cd" ++ [NL] ++ lit "ef") = [lit "ab cd"; lit "ef"])
    by reflexivity.
  rewrite E. unfold TEXT_CHUNK_SIZE.
  repeat (apply Forall_cons; [cbn [length lit list_ascii_of_string map]; lia|]).
  apply Forall_nil.
Defined.

Lemma slice_nonempty (p : str) (a b : nat) :
  a < length p -> a < b -> slice p a b <> [].
Proof.
  intros Ha Hb H. apply (f_equal (@length char)) in H.
  unfold slice in H. rewrite length_firstn, length_skipn in H.
  cbn [length] in H. lia.
Qed.

Lemma force_split_loop_nonempty (size : nat) (p : str) :
  0 < size ->
  forall fuel start, ~ In [] (force_split_loop size fuel p start).
Proof.
  intros Hs. induction fuel as [|fuel IH]; intros start; cbn [force_split_loop].
  - intros [].
  - destruct (Nat.ltb_spec start (length p)) as [Hlt|]; [|intros []].
    intros [H | H]; [|exact (IH _ H)].
    revert H. apply slice_nonempty; [exact Hlt|].
    destruct (rfind SP p start (start + size)) as [e|]; [|lia].
    destruct (Nat.leb_spec e start); lia.
Qed.

Lemma chunk_paragraphs_nonempty (size : nat) :
  0 < size ->
  forall paragraphs current_chunk,
    Forall (fun p => S (length p) <> size) paragraphs ->
    ~ In [] (chunk_paragraphs size paragraphs current_chunk).
Proof.
  intros Hs. induction paragraphs as [|p rest IH]; intros cur Hall;
    cbn [chunk_paragraphs].
  - destruct cur as [|c cur]; [cbn; auto|].
    destruct (truthy (strip (c :: cur))); [|intros []].
    intros [Hc | []]. discriminate.
  - inversion Hall as [|? ? Hp Hrest]; subst.
    destruct (Nat.leb_spec size (length p)) as [Hge|Hlt].
    + intros H. apply in_app_or in H. destruct H as [H | H].
      * destruct cur; cbn [truthy] in H; [contradiction|].
        destruct H as [H | []]. discriminate.
      * apply in_app_or in H. destruct H as [H | H].
        -- exact (force_split_loop_nonempty p Hs _ _ H).
        -- exact (IH _ Hrest H).
    + destruct (Nat.ltb_spec (length cur + length p + 1) size) as [Hfit|Hno].
      * apply IH. exact Hrest.
      * intros [Hc | Hc]; [|exact (IH _ Hrest Hc)].
        subst cur. cbn [length] in *. lia.
Qed.

(** An empty chunk needs a paragraph that is exactly one character short
    of the limit: for a text without such a paragraph no chunk is empty. *)
Theorem chunk_text_nonempty (text : str) :
  Forall (fun p => S (length p) <> TEXT_CHUNK_SIZE) (split NL text) ->
  ~ In [] (_chunk_text text).
Proof.
  intros H. unfold _chunk_text, chunk_text_sized.
  destruct (negb (truthy text)); [intros []|].
  apply chunk_paragraphs_nonempty; [unfold TEXT_CHUNK_SIZE; lia | exact H].
Qed.

Lemma chunk_text_nonempty_witness :
  ~ In [] (_chunk_text (lit "ab cd" ++ [NL] ++ lit "ef")).
Proof.
  apply (@chunk_text_nonempty (lit "ab cd" ++ [NL] ++ lit "ef")).
  vm_compute. repeat constructor; discriminate.
Defined.

(** *** Nothing is invented *)

Lemma subseq_refl (A : Type) (l : list A) : subseq l l.
Proof. induction l; constructor; assumption. Qed.

Lemma subseq_nil_l (A : Type) (l : list A) : subseq [] l.
Proof. induction l; constructor; assumption. Qed.

Lemma subseq_trans (A : Type) (a b c : list A) :
  subseq a b -> subseq b c -> subseq a c.
Proof.
  intros Hab Hbc. revert a Hab.
  induction Hbc as [|x b c _ IH|x b c _ IH]; intros a Hab.
  - exact Hab.
  - inversion Hab; subst.
    + constructor. apply IH. assumption.
    + apply subseq_drop. apply IH. assumption.
  - apply subseq_drop. apply IH. exact Hab.
Qed.

Lemma subseq_app (A : Type) (a a' b b' : list A) :
  subseq a a' -> subseq b b' -> subseq (a ++ b) (a' ++ b').
Proof.
  intros Ha Hb. induction Ha; cbn [app]; [exact Hb | |];
    constructor; assumption.
Qed.

Lemma subseq_app_r (A : Type) (a b : list A) : subseq b (a ++ b).
Proof. induction a; cbn [app]; [apply subseq_refl | constructor; assumption]. Qed.

Lemma subseq_app_l (A : Type) (a b : list A) : subseq a (a ++ b).
Proof.
  rewrite <- (app_nil_r a) at 1. apply subseq_app;
    [apply subseq_refl | apply subseq_nil_l].
Qed.

Lemma subseq_skipn (A : Type) (n : nat) (l : list A) : subseq (skipn n l) l.
Proof.
  revert l; induction n as [|n IH]; intros l; [apply subseq_refl|].
  destruct l as [|x l]; [constructor|]. cbn [skipn]. constructor. apply IH.
Qed.

Lemma subseq_firstn (A : Type) (n : nat) (l : list A) : subseq (firstn n l) l.
Proof.
  rewrite <- (firstn_skipn n l) at 2. apply subseq_app_l.
Qed.

Lemma subseq_filter (A : Type) (P : A -> bool) (a b : list A) :
  subseq a b -> subseq (filter P a) (filter P b).
Proof.
  induction 1 as [|x a b _ IH|x a b _ IH]; cbn [filter].
  - constructor.
  - destruct (P x); [constructor|]; exact IH.
  - destruct (P x); [apply subseq_drop|]; exact IH.
Qed.

Lemma subseq_length (A : Type) (a b : list A) : subseq a b -> length a <= length b.
Proof. induction 1; cbn [length]; lia. Qed.

Lemma skipn_skipn_le (A : Type) (a b : nat) (l : list A) :
  a <= b -> subseq (skipn b l) (skipn a l).
Proof.
  intros H. replace b with ((b - a) + a) by lia.
  rewrite <- skipn_skipn. apply subseq_skipn.
Qed.

Lemma force_split_loop_subseq (size : nat) (p : str) :
  forall fuel start,
    subseq (concat (force_split_loop size fuel p start)) (skipn start p).
Proof.
  induction fuel as [|fuel IH]; intros start; cbn [force_split_loop].
  - apply subseq_nil_l.
  - destruct (start <? length p); [|apply subseq_nil_l].
    set (end_ := match rfind SP p start (start + size) with
                 | Some e => if e <=? start then start + size else e
                 | None => start + size
                 end).
    assert (Hend : start <= end_).
    { unfold end_. destruct (rfind SP p start (start + size)) as [e|]; [|lia].
      destruct (Nat.leb_spec e start); lia. }
    cbn [concat].
    assert (Hsplit : skipn start p = slice p start end_ ++ skipn end_ p).
    { unfold slice. replace end_ with ((end_ - start) + start) at 2 by lia.
      rewrite <- skipn_skipn. symmetry. apply firstn_skipn. }
    rewrite Hsplit. apply subseq_app; [apply subseq_refl|].
    eapply subseq_trans; [apply IH|]. apply skipn_skipn_le. lia.
Qed.

Lemma chunk_paragraphs_subseq (size : nat) :
  forall paragraphs current_chunk,
    subseq (non_space (concat (chunk_paragraphs size paragraphs current_chunk)))
           (non_space current_chunk ++ non_space (concat paragraphs)).
Proof.
  induction paragraphs as [|p rest IH]; intros cur; cbn [chunk_paragraphs].
  - cbn [concat]. rewrite app_nil_r.
    destruct (truthy (strip cur)).
    + cbn [concat]. rewrite app_nil_r. apply subseq_refl.
    + apply subseq_nil_l.
  - cbn [concat]. rewrite (non_space_app p).
    destruct (size <=? length p).
    + rewrite concat_app, non_space_app, concat_app, non_space_app.
      apply subseq_app.
      * destruct cur; cbn [truthy concat]; [apply subseq_refl|].
        rewrite app_nil_r. apply subseq_refl.
      * apply subseq_app.
        -- apply subseq_filter.
           apply (force_split_loop_subseq size p (length p) 0).
        -- apply (IH []).
    + destruct (length cur + length p + 1 <? size).
      * eapply subseq_trans; [apply IH|].
        rewrite !non_space_app. change (non_space [NL]) with (@nil char).
        rewrite app_nil_r, app_assoc. apply subseq_refl.
      * cbn [concat]. rewrite non_space_app.
        apply subseq_app; [apply subseq_refl|].
        eapply subseq_trans; [apply IH|].
        rewrite non_space_app. change (non_space [NL]) with (@nil char).
        rewrite app_nil_r. apply subseq_refl.
Qed.

Lemma chunk_text_subseq (text : str) :
  subseq (non_space (concat (_chunk_text text))) (non_space text).
Proof.
  unfold _chunk_text, chunk_text_sized.
  destruct text as [|c text]; [constructor|]. cbn [truthy negb].
  eapply subseq_trans; [apply chunk_paragraphs_subseq|].
  cbn [non_space filter app]. fold (non_space (concat (split NL (c :: text)))).
  rewrite non_space_split. apply subseq_refl.
Qed.

(** The chunker invents nothing and keeps the order: for every text, the
    characters of the chunks that are not whitespace, read chunk after
    chunk, are characters of the text in the order of the text, none
    repeated. *)
Theorem chunk_text_invents_nothing (text : str) :
  subseq (non_space (concat (_chunk_text text))) (non_space text).
Proof. apply chunk_text_subseq. Qed.

(** ** The queue and the two threads *)

Lemma safe_put_outcome (q : queue) (x : item) :
  length q <= QUEUE_MAX_SIZE ->
  exists kept,
    _safe_put QUEUE_MAX_SIZE q x = Ok (kept ++ [x])
    /\ (kept = q \/ (length q = QUEUE_MAX_SIZE /\ kept = tl q))
    /\ length (kept ++ [x]) <= QUEUE_MAX_SIZE.
Proof.
  intros H. destruct (Nat.eq_dec (length q) QUEUE_MAX_SIZE) as [E|E].
  - exists (tl q). split; [apply safe_put_full; exact E|]. split; [auto|].
    destruct (full_queue_cons q E) as (y & q' & -> & Hq').
    cbn [tl]. rewrite length_app. cbn [length]. unfold QUEUE_MAX_SIZE. lia.
  - exists q. unfold _safe_put. rewrite put_nowait_room by lia.
    split; [reflexivity|]. split; [auto|]. rewrite length_app. cbn [length]. lia.
Qed.

(** [_safe_put] on a queue within its bound never raises and never loses
    the item it is given: the item ends up as the newest of the queue,
    behind all the items that were there or all but the oldest of them,
    and the queue stays within its bound. *)
Theorem safe_put_enqueues (q : queue) (x : item) :
  length q <= QUEUE_MAX_SIZE ->
  exists kept,
    _safe_put QUEUE_MAX_SIZE q x = Ok (kept ++ [x])
    /\ (kept = q \/ (length q = QUEUE_MAX_SIZE /\ kept = tl q))
    /\ length (kept ++ [x]) <= QUEUE_MAX_SIZE.
Proof. apply safe_put_outcome. Qed.

Lemma safe_put_enqueues_witness :
  exists kept,
    _safe_put QUEUE_MAX_SIZE [Audio [Byte.x01]] EndOfStream
    = Ok (kept ++ [EndOfStream])
    /\ (kept = [Audio [Byte.x01]]
        \/ (length [Audio [Byte.x01]] = QUEUE_MAX_SIZE
            /\ kept = tl [Audio [Byte.x01]]))
    /\ length (kept ++ [EndOfStream]) <= QUEUE_MAX_SIZE.
Proof.
  apply (@safe_put_enqueues [Audio [Byte.x01]] EndOfStream).
  unfold QUEUE_MAX_SIZE. cbn [length]. lia.
Defined.

Section PipelineFacts.

Variable svc : service.
Variable v r vol : str.

Lemma safe_put_bound (q q' : queue) (x : item) :
  length q <= QUEUE_MAX_SIZE ->
  _safe_put QUEUE_MAX_SIZE q x = Ok q' -> length q' <= QUEUE_MAX_SIZE.
Proof.
  intros H E. destruct (@safe_put_outcome q x H) as (kept & E' & _ & Hl).
  congruence.
Qed.

Lemma producer_step_bound (p p' : producer) (q q' : queue) (evs : list event) :
  length q <= QUEUE_MAX_SIZE ->
  producer_step svc v r vol p q = Some (p', q', evs) ->
  length q' <= QUEUE_MAX_SIZE.
Proof.
  intros H E. destruct p as [[|c todo]|[|[d|] pending] e todo|e|b| |];
    cbn [producer_step] in E.
  - injection E as <- <- <-. exact H.
  - destruct (negb (truthy (strip c))); [injection E as <- <- <-; exact H|].
    destruct (svc c v r vol). injection E as <- <- <-. exact H.
  - destruct e; injection E as <- <- <-; exact H.
  - destruct (Nat.leb_spec QUEUE_MAX_SIZE (length q)) as [Hf|Hf].
    + replace (0 <? QUEUE_MAX_SIZE) with true in E by reflexivity.
      discriminate.
    + rewrite andb_false_r in E. injection E as <- <- <-.
      rewrite length_app. cbn [length]. lia.
  - injection E as <- <- <-. exact H.
  - destruct (_safe_put QUEUE_MAX_SIZE q (Failure e)) as [q1|[]] eqn:Es;
      injection E as <- <- <-; [eapply safe_put_bound; eassumption | exact H].
  - destruct (_safe_put QUEUE_MAX_SIZE q EndOfStream) as [q1|[]] eqn:Es;
      injection E as <- <- <-; [eapply safe_put_bound; eassumption | exact H].
  - destruct (_safe_put QUEUE_MAX_SIZE q (Failure SupervisorFailed))
      as [q1|[]] eqn:Es;
      injection E as <- <- <-; [eapply safe_put_bound; eassumption | exact H].
  - discriminate.
Qed.

Lemma pipeline_step_bound (a : action) (s : pipeline) :
  length (audio_queue s) <= QUEUE_MAX_SIZE ->
  length (audio_queue (pipeline_step svc v r vol a s)) <= QUEUE_MAX_SIZE.
Proof.
  intros H. unfold pipeline_step.
  destruct a.
  - destruct (producer_step svc v r vol (producer_of s) (audio_queue s))
      as [[[p' q'] evs]|] eqn:E; [|destruct (consumer_of s); exact H].
    assert (length q' <= QUEUE_MAX_SIZE) by (eapply producer_step_bound; eauto).
    destruct (consumer_of s); assumption.
  - destruct (consumer_of s); try exact H.
    + destruct (audio_queue s) as [|[d|e|] q'] eqn:Eq; cbn [audio_queue];
        cbn [length] in H; try lia. rewrite Eq. cbn [length]. lia.
    + cbn [audio_queue length]. lia.
  - destruct (consumer_of s); try exact H.
    destruct (audio_queue s) eqn:Eq; cbn [audio_queue]; rewrite ?Eq; exact H.
  - destruct (consumer_of s); exact H.
Qed.

(** The queue never holds more than [QUEUE_MAX_SIZE] items, whatever the
    two threads and the client do and in whatever order. *)
Theorem queue_stays_bounded (sched : list action) (s : pipeline) :
  length (audio_queue s) <= QUEUE_MAX_SIZE ->
  length (audio_queue (run_pipeline svc v r vol sched s)) <= QUEUE_MAX_SIZE.
Proof.
  unfold run_pipeline. revert s.
  induction sched as [|a sched IH]; intros s H; [exact H|].
  cbn [fold_left]. apply IH. apply pipeline_step_bound. exact H.
Qed.

End PipelineFacts.

Lemma queue_stays_bounded_witness :
  length (audio_queue
            (run_pipeline (fun _ _ _ _ => ([AudioChunk [Byte.x01]], SynthDone))
                          [] [] [] [Produce; Produce; Consume]
                          (mkPipeline (PNextChunk [lit "a"]) CGet [] [] [])))
  <= QUEUE_MAX_SIZE.
Proof.
  apply queue_stays_bounded. cbn [audio_queue length]. lia.
Defined.

Lemma stream_final_value (o : option str) (own n fr : str) :
  (if override_given o
   then _validate_percent_string (match o with Some s => s | None => [] end) n
   else Ok own) = Ok fr ->
  fr = in_force o own.
Proof.
  unfold override_given, in_force, _validate_percent_string.
  destruct o as [s|]; [|intros [= <-]; reflexivity].
  destruct (truthy s); [|intros [= <-]; reflexivity].
  destruct (negb (percent_re s)); [discriminate | intros [= <-]; reflexivity].
Qed.

Lemma service_calls_app (a b : list event) :
  service_calls (a ++ b) = service_calls a ++ service_calls b.
Proof. apply flat_map_app. Qed.

Lemma queued_app (a b : queue) : queued (a ++ b) = queued a ++ queued b.
Proof. apply flat_map_app. Qed.

Section PipelineHistory.

Variable svc : service.
Variable v r vol : str.

(** *** The calls of the service *)

Lemma producer_step_calls (p p' : producer) (q q' : queue) (evs : list event) :
  producer_step svc v r vol p q = Some (p', q', evs) ->
  exists junk, chunks_ahead p = service_calls evs ++ chunks_ahead p' ++ junk.
Proof.
  intros E. destruct p as [[|c todo]|[|[d|] pending] e todo|e|b| |];
    cbn [producer_step] in E.
  - injection E as <- <- <-. exists []. reflexivity.
  - cbn [chunks_ahead filter].
    destruct (truthy (strip c)); cbn [negb] in E.
    + destruct (svc c v r vol) as [chunks e]. injection E as <- <- <-.
      cbn [service_calls flat_map app chunks_ahead].
      destruct e;
        [exists []; rewrite app_nil_r
        | exists (filter (fun c0 => truthy (strip c0)) todo)
        | exists (filter (fun c0 => truthy (strip c0)) todo)];
        reflexivity.
    + injection E as <- <- <-. exists []. rewrite app_nil_r. reflexivity.
  - destruct e; injection E as <- <- <-; exists [];
      rewrite app_nil_r; reflexivity.
  - destruct ((0 <? QUEUE_MAX_SIZE) && (QUEUE_MAX_SIZE <=? length q));
      [discriminate|].
    injection E as <- <- <-. exists []. rewrite app_nil_r. reflexivity.
  - injection E as <- <- <-. exists []. rewrite app_nil_r. reflexivity.
  - destruct (_safe_put QUEUE_MAX_SIZE q (Failure e)) as [q1|[]];
      injection E as <- <- <-; exists []; reflexivity.
  - destruct (_safe_put QUEUE_MAX_SIZE q EndOfStream) as [q1|[]];
      injection E as <- <- <-; exists []; destruct b; reflexivity.
  - destruct (_safe_put QUEUE_MAX_SIZE q (Failure SupervisorFailed)) as [q1|[]];
      injection E as <- <- <-; exists []; reflexivity.
  - discriminate.
Qed.

Lemma pipeline_step_calls (a : action) (s : pipeline) :
  exists junk,
    service_calls (events s) ++ chunks_ahead (producer_of s)
    = service_calls (events (pipeline_step svc v r vol a s))
      ++ chunks_ahead (producer_of (pipeline_step svc v r vol a s)) ++ junk.
Proof.
  assert (Hsame : exists junk,
             service_calls (events s) ++ chunks_ahead (producer_of s)
             = service_calls (events s) ++ chunks_ahead (producer_of s) ++ junk)
    by (exists []; rewrite app_nil_r; reflexivity).
  unfold pipeline_step. destruct a.
  - destruct (producer_step svc v r vol (producer_of s) (audio_queue s))
      as [[[p' q'] evs]|] eqn:E.
    + destruct (producer_step_calls _ _ E) as (junk & Hj).
      assert (exists junk0,
                 service_calls (events s) ++ chunks_ahead (producer_of s)
                 = service_calls (events s ++ evs) ++ chunks_ahead p' ++ junk0).
      { exists junk. rewrite Hj, service_calls_app, <- app_assoc. reflexivity. }
      destruct (consumer_of s); assumption.
    + destruct (consumer_of s); exact Hsame.
  - destruct (consumer_of s); try exact Hsame.
    + destruct (audio_queue s) as [|[d|e|] q']; exact Hsame.
    + cbn [events producer_of]. rewrite service_calls_app.
      exists []. destruct (producer_of s); cbn [service_calls flat_map];
        rewrite !app_nil_r; reflexivity.
  - destruct (consumer_of s); try exact Hsame.
    destruct (audio_queue s); exact Hsame.
  - destruct (consumer_of s); exact Hsame.
Qed.

Lemma run_calls (sched : list action) :
  forall s,
  exists junk,
    service_calls (events s) ++ chunks_ahead (producer_of s)
    = service_calls (events (run_pipeline svc v r vol sched s))
      ++ chunks_ahead (producer_of (run_pipeline svc v r vol sched s)) ++ junk.
Proof.
  unfold run_pipeline.
  induction sched as [|a sched IH]; intros s; cbn [fold_left].
  - exists []. rewrite app_nil_r. reflexivity.
  - destruct (pipeline_step_calls a s) as (j1 & H1).
    destruct (IH (pipeline_step svc v r vol a s)) as (j2 & H2).
    exists (j2 ++ j1). rewrite H1, app_assoc, H2, <- !app_assoc. reflexivity.
Qed.

(** *** The frames on their way *)

Lemma queued_tl (q : queue) : subseq (queued (tl q)) (queued q).
Proof.
  destruct q as [|x q]; [constructor|]. cbn [tl queued flat_map].
  apply subseq_app_r.
Qed.

Lemma safe_put_queued (q q' : queue) (x : item) :
  is_audio x = false ->
  _safe_put QUEUE_MAX_SIZE q x = Ok q' -> subseq (queued q') (queued q).
Proof.
  intros Hx. unfold _safe_put, put_nowait.
  assert (Htail : queued [x] = []) by (destruct x; [discriminate | | ]; reflexivity).
  destruct ((0 <? QUEUE_MAX_SIZE) && (QUEUE_MAX_SIZE <=? length q)).
  - destruct q as [|y q1]; cbn [get_nowait].
    + intros [= <-]. constructor.
    + destruct ((0 <? QUEUE_MAX_SIZE) && (QUEUE_MAX_SIZE <=? length q1));
        [discriminate|].
      intros [= <-]. rewrite queued_app, Htail, app_nil_r.
      apply (queued_tl (y :: q1)).
  - intros [= <-]. rewrite queued_app, Htail, app_nil_r. apply subseq_refl.
Qed.

Lemma producer_step_frames (p p' : producer) (q q' : queue) (evs : list event) :
  producer_step svc v r vol p q = Some (p', q', evs) ->
  subseq (queued q' ++ remaining svc v r vol p')
         (queued q ++ remaining svc v r vol p).
Proof.
  intros E. destruct p as [[|c todo]|[|[d|] pending] e todo|e|b| |];
    cbn [producer_step] in E.
  - injection E as <- <- <-. apply subseq_refl.
  - cbn [remaining planned].
    destruct (negb (truthy (strip c))); [injection E as <- <- <-; apply subseq_refl|].
    destruct (svc c v r vol) as [chunks e]. injection E as <- <- <-.
    cbn [fst snd remaining]. apply subseq_refl.
  - destruct e; injection E as <- <- <-; cbn [remaining audio_of flat_map app];
      apply subseq_refl.
  - destruct ((0 <? QUEUE_MAX_SIZE) && (QUEUE_MAX_SIZE <=? length q));
      [discriminate|].
    injection E as <- <- <-. rewrite queued_app.
    cbn [remaining audio_of flat_map queued app]. rewrite <- app_assoc.
    apply subseq_refl.
  - injection E as <- <- <-. apply subseq_refl.
  - destruct (_safe_put QUEUE_MAX_SIZE q (Failure e)) as [q1|[]] eqn:Es;
      injection E as <- <- <-; cbn [remaining]; rewrite ?app_nil_r;
      [eapply safe_put_queued; [|eassumption]; reflexivity | apply subseq_refl].
  - destruct (_safe_put QUEUE_MAX_SIZE q EndOfStream) as [q1|[]] eqn:Es;
      injection E as <- <- <-; [|apply subseq_refl].
    destruct b; cbn [remaining]; rewrite ?app_nil_r;
      (eapply safe_put_queued; [|eassumption]; reflexivity).
  - destruct (_safe_put QUEUE_MAX_SIZE q (Failure SupervisorFailed))
      as [q1|[]] eqn:Es;
      injection E as <- <- <-; cbn [remaining]; rewrite ?app_nil_r;
      [eapply safe_put_queued; [|eassumption]; reflexivity | apply subseq_refl].
  - discriminate.
Qed.

Lemma pipeline_step_frames (a : action) (s : pipeline) :
  subseq (on_the_way svc v r vol (pipeline_step svc v r vol a s)) (on_the_way svc v r vol s).
Proof.
  unfold on_the_way, pipeline_step. destruct a.
  - destruct (producer_step svc v r vol (producer_of s) (audio_queue s))
      as [[[p' q'] evs]|] eqn:E.
    + assert (subseq (yielded s ++ queued q' ++ remaining svc v r vol p')
                     (yielded s ++ queued (audio_queue s)
                      ++ remaining svc v r vol (producer_of s))).
      { apply subseq_app; [apply subseq_refl|].
        eapply producer_step_frames; eassumption. }
      destruct (consumer_of s); assumption.
    + destruct (consumer_of s); apply subseq_refl.
  - destruct (consumer_of s); try apply subseq_refl.
    + destruct (audio_queue s) as [|[d|e|] q'] eqn:Eq;
        cbn [yielded audio_queue producer_of]; rewrite ?Eq;
        cbn [queued flat_map app];
        rewrite <- ?app_assoc; apply subseq_refl.
    + cbn [yielded audio_queue producer_of queued flat_map app].
      apply subseq_app; [apply subseq_refl | apply subseq_app_r].
  - destruct (consumer_of s); try apply subseq_refl.
    destruct (audio_queue s) eqn:Eq; cbn [yielded audio_queue producer_of];
      rewrite ?Eq; apply subseq_refl.
  - destruct (consumer_of s); apply subseq_refl.
Qed.

Lemma run_frames (sched : list action) :
  forall s, subseq (on_the_way svc v r vol (run_pipeline svc v r vol sched s)) (on_the_way svc v r vol s).
Proof.
  unfold run_pipeline.
  induction sched as [|a sched IH]; intros s; cbn [fold_left];
    [apply subseq_refl|].
  eapply subseq_trans; [apply IH | apply pipeline_step_frames].
Qed.

End PipelineHistory.

(** The service is called on the chunks of the text that are not blank, in
    their order, each at most once, and on nothing else: in every run the
    calls made so far are a first part of that list. *)
Theorem service_called_on_chunks_in_order (svc : service) (self : TTSEngine)
    (text : str) (rate_arg volume_arg : option str) (sched : list action) :
  exists rest,
    service_calls (run_events (stream svc self text rate_arg volume_arg sched))
    ++ rest
    = filter (fun c => truthy (strip c)) (_chunk_text text).
Proof.
  unfold stream.
  destruct (negb (truthy text) || negb (truthy (strip text)));
    [eexists; reflexivity|].
  destruct (if override_given rate_arg then _ else _) as [fr|e];
    [|eexists; reflexivity].
  destruct (if override_given volume_arg then _ else _) as [fv|e];
    [|eexists; reflexivity].
  cbn [run_events].
  match goal with
  | |- context [run_pipeline ?a ?b ?c ?d sched ?s0] =>
      destruct (run_calls a b c d sched s0) as (junk & H)
  end.
  cbn [events producer_of service_calls flat_map chunks_ahead app] in H.
  eexists. symmetry. exact H.
Qed.

(** The frames a run of [stream] yields are frames the service delivered
    for the chunks of the text, in the order of delivery, none of them
    twice: whatever the schedule, the overrides and the way the run ends. *)
Theorem stream_yields_delivered_frames (svc : service) (self : TTSEngine)
    (text : str) (rate_arg volume_arg : option str) (sched : list action) :
  subseq (run_yielded (stream svc self text rate_arg volume_arg sched))
         (planned svc (voice self) (in_force rate_arg (rate self))
                  (in_force volume_arg (volume self)) (_chunk_text text)).
Proof.
  unfold stream.
  destruct (negb (truthy text) || negb (truthy (strip text)));
    [apply subseq_nil_l|].
  destruct (if override_given rate_arg then _ else _) as [fr|e] eqn:Er;
    [|apply subseq_nil_l].
  destruct (if override_given volume_arg then _ else _) as [fv|e] eqn:Ev;
    [|apply subseq_nil_l].
  apply stream_final_value in Er, Ev. subst fr fv. cbn [run_yielded].
  match goal with
  | |- context [run_pipeline ?a ?b ?c ?d sched ?s0] =>
      pose proof (@run_frames a b c d sched s0) as H;
      set (s1 := run_pipeline a b c d sched s0) in *
  end.
  unfold on_the_way at 2 in H.
  cbn [yielded audio_queue producer_of queued flat_map remaining app] in H.
  eapply subseq_trans; [|exact H].
  unfold on_the_way. apply subseq_app_l.
Qed.

(** *** Runs in which the queue never fills *)

Lemma audio_then_terminal_all (q : queue) :
  forallb is_audio q = true -> audio_then_terminal q = true.
Proof.
  induction q as [|x q IH]; cbn [forallb audio_then_terminal]; [reflexivity|].
  destruct (is_audio x); cbn [andb]; [exact IH | discriminate].
Qed.

Lemma audio_then_terminal_snoc (q : queue) (x : item) :
  is_audio x = false ->
  audio_then_terminal q = true -> audio_then_terminal (q ++ [x]) = true.
Proof.
  intros Hx. induction q as [|y q IH]; cbn [app audio_then_terminal].
  - rewrite Hx. reflexivity.
  - destruct (is_audio y); [exact IH|].
    intros H. rewrite forallb_app, H. cbn [forallb]. rewrite Hx. reflexivity.
Qed.

Lemma terminal_only_queued (q : queue) :
  forallb (fun y => negb (is_audio y)) q = true -> queued q = [].
Proof.
  induction q as [|x q IH]; cbn [forallb]; [reflexivity|].
  intros H. apply andb_true_iff in H. destruct H as [Hx Hq].
  cbn [queued flat_map]. fold (queued q). rewrite (IH Hq).
  destruct x; [discriminate | reflexivity | reflexivity].
Qed.

Lemma after_finally_nothing_left (svc : service) (v r vol : str) (p : producer) :
  before_finally p = false -> remaining svc v r vol p = [].
Proof. destruct p; [discriminate | discriminate | | | | ]; reflexivity. Qed.

Lemma put_nowait_below (q : queue) (x : item) (n : nat) :
  length q + S n <= QUEUE_MAX_SIZE ->
  _safe_put QUEUE_MAX_SIZE q x = Ok (q ++ [x]).
Proof.
  intros H. unfold _safe_put. rewrite put_nowait_room by lia. reflexivity.
Qed.

Section OnSchedule.

Variable svc : service.
Variable v r vol : str.
Variable all : list bytes.

Lemma producer_step_on_schedule (p p' : producer) (q q' : queue)
    (evs : list event) :
  length q + slots_needed svc v r vol p <= QUEUE_MAX_SIZE ->
  producer_step svc v r vol p q = Some (p', q', evs) ->
  length q' + slots_needed svc v r vol p' <= QUEUE_MAX_SIZE
  /\ queued q' ++ remaining svc v r vol p' = queued q ++ remaining svc v r vol p
  /\ (audio_then_terminal q = true ->
      (before_finally p = true -> forallb is_audio q = true) ->
      audio_then_terminal q' = true
      /\ (before_finally p' = true -> forallb is_audio q' = true)).
Proof.
  intros Hroom E.
  destruct p as [[|c todo]|[|[d|] pending] e todo|e|b| |];
    cbn [producer_step] in E.
  - injection E as <- <- <-. cbn [slots_needed remaining planned length] in *.
    repeat split; auto; try lia; try discriminate.
  - cbn [slots_needed remaining planned] in Hroom |- *.
    destruct (negb (truthy (strip c))).
    + injection E as <- <- <-. cbn [slots_needed remaining before_finally].
      repeat split; auto.
    + destruct (svc c v r vol) as [chunks e]. injection E as <- <- <-.
      cbn [fst snd slots_needed remaining before_finally] in *.
      repeat split; auto.
  - cbn [slots_needed remaining] in Hroom.
    change (audio_of []) with (@nil bytes) in Hroom. cbn [app] in Hroom.
    destruct e; injection E as <- <- <-;
      cbn [slots_needed remaining before_finally app];
      repeat split; auto; try lia; try discriminate.
  - destruct ((0 <? QUEUE_MAX_SIZE) && (QUEUE_MAX_SIZE <=? length q));
      [discriminate|].
    injection E as <- <- <-.
    assert (Ha : audio_of (AudioChunk d :: pending) = d :: audio_of pending)
      by reflexivity.
    cbn [slots_needed remaining before_finally] in Hroom |- *.
    rewrite Ha in *. rewrite <- app_comm_cons in *. cbn [length] in Hroom.
    rewrite length_app, queued_app. cbn [length queued flat_map app].
    split; [lia|]. split; [rewrite <- app_assoc; reflexivity|].
    intros _ Hall. specialize (Hall eq_refl).
    assert (forallb is_audio (q ++ [Audio d]) = true)
      by (rewrite forallb_app, Hall; reflexivity).
    split; [apply audio_then_terminal_all; assumption | auto].
  - injection E as <- <- <-.
    cbn [slots_needed remaining before_finally] in *.
    change (audio_of (OtherChunk :: pending)) with (audio_of pending) in *.
    repeat split; auto.
  - cbn [slots_needed] in Hroom.
    rewrite (@put_nowait_below q (Failure e) 1) in E by lia.
    injection E as <- <- <-. cbn [slots_needed remaining before_finally].
    rewrite length_app, queued_app. cbn [length queued flat_map app].
    rewrite !app_nil_r. split; [lia|]. split; [reflexivity|].
    intros Hs _. split; [|discriminate].
    apply audio_then_terminal_snoc; [reflexivity | exact Hs].
  - cbn [slots_needed] in Hroom.
    rewrite (@put_nowait_below q EndOfStream 0) in E by (destruct b; lia).
    injection E as <- <- <-. rewrite length_app, queued_app.
    destruct b;
      cbn [length queued flat_map app remaining slots_needed before_finally]
        in *;
      rewrite !app_nil_r;
      (split; [lia|]; split; [reflexivity|]; intros Hs _;
       split; [|discriminate];
       apply audio_then_terminal_snoc; [reflexivity | exact Hs]).
  - cbn [slots_needed] in Hroom.
    rewrite (@put_nowait_below q (Failure SupervisorFailed) 0) in E by lia.
    injection E as <- <- <-. rewrite length_app, queued_app.
    cbn [length queued flat_map app remaining slots_needed before_finally].
    rewrite !app_nil_r. split; [lia|]. split; [reflexivity|].
    intros Hs _. split; [|discriminate].
    apply audio_then_terminal_snoc; [reflexivity | exact Hs].
  - discriminate.
Qed.

Lemma pipeline_step_on_schedule (a : action) (s : pipeline) :
  on_schedule svc v r vol all s ->
  on_schedule svc v r vol all (pipeline_step svc v r vol a s).
Proof.
  intros H. destruct s as [p c q ys evs].
  pose proof H as (Hroom & Hpre & Hloop & Hend).
  cbn [audio_queue producer_of consumer_of yielded] in Hroom, Hpre, Hloop, Hend.
  unfold pipeline_step.
  cbn [audio_queue producer_of consumer_of yielded events].
  destruct a.
  - (* the producer moves *)
    destruct (producer_step svc v r vol p q) as [[[p' q'] evs']|] eqn:E;
      [|destruct c; exact H].
    destruct (producer_step_on_schedule _ _ Hroom E) as (Hroom' & Hsame & Hshape).
    assert (Hnew : on_schedule svc v r vol all (mkPipeline p' c q' ys (evs ++ evs'))).
    { unfold on_schedule, on_the_way in *.
      cbn [audio_queue producer_of consumer_of yielded] in *.
      split; [exact Hroom'|]. split; [exact Hpre|]. split; [|exact Hend].
      intros Hin. destruct (Hloop Hin) as (Hall & Hs & Ha).
      split; [rewrite Hsame; exact Hall|]. apply Hshape; assumption. }
    destruct c; exact Hnew.
  - (* the consumer is resumed *)
    destruct c as [| |e|e|e].
    + destruct (Hloop eq_refl) as (Hall & Hs & Ha).
      unfold on_the_way in Hall.
      cbn [audio_queue producer_of consumer_of yielded] in Hall.
      destruct q as [|[d|e|] q'].
      * exact H.
      * (* an audio frame *)
        unfold on_schedule, on_the_way.
        cbn [audio_queue producer_of consumer_of yielded in_loop ended length
             queued flat_map app audio_then_terminal is_audio forallb andb] in *.
        split; [lia|].
        split; [exists (queued q' ++ remaining svc v r vol p);
                rewrite <- app_assoc; exact Hall|].
        split; [|discriminate].
        intros _. split; [rewrite <- app_assoc; exact Hall|].
        split; [exact Hs | exact Ha].
      * (* an error item *)
        unfold on_schedule.
        cbn [audio_queue producer_of consumer_of yielded in_loop ended length] in *.
        split; [lia|]. split; [exact Hpre|]. split; discriminate.
      * (* the sentinel *)
        unfold on_schedule.
        cbn [audio_queue producer_of consumer_of yielded in_loop ended length
             audio_then_terminal is_audio] in *.
        split; [lia|]. split; [exact Hpre|]. split; [discriminate|].
        intros _.
        change (queued (EndOfStream :: q')) with (queued q') in Hall.
        rewrite (terminal_only_queued _ Hs) in Hall.
        destruct (before_finally p) eqn:Eb;
          [specialize (Ha eq_refl); discriminate|].
        rewrite (after_finally_nothing_left svc v r vol p Eb) in Hall.
        cbn [app] in Hall. rewrite app_nil_r in Hall. exact Hall.
    + (* back from the yield *)
      destruct (Hloop eq_refl) as (Hall & Hs & Ha).
      unfold on_schedule, on_the_way in *.
      cbn [audio_queue producer_of consumer_of yielded in_loop ended] in *.
      repeat split; auto; try discriminate.
    + (* the queue is drained *)
      unfold on_schedule.
      cbn [audio_queue producer_of consumer_of yielded in_loop ended length] in *.
      split; [lia|]. split; [exact Hpre|]. split; [discriminate | exact Hend].
    + unfold on_schedule.
      cbn [audio_queue producer_of consumer_of yielded in_loop ended] in *.
      split; [exact Hroom|]. split; [exact Hpre|].
      split; [discriminate | exact Hend].
    + exact H.
  - (* the wait for an item times out *)
    destruct c as [| |e|e|e]; try (exact H).
    destruct q as [|x q']; [|exact H].
    unfold on_schedule.
    cbn [audio_queue producer_of consumer_of yielded in_loop ended] in *.
    split; [exact Hroom|]. split; [exact Hpre|]. split; discriminate.
  - (* the client closes the stream *)
    destruct c as [| |e|e|e]; try (exact H).
    unfold on_schedule.
    cbn [audio_queue producer_of consumer_of yielded in_loop ended] in *.
    split; [exact Hroom|]. split; [exact Hpre|]. split; discriminate.
Qed.

Lemma run_on_schedule (sched : list action) :
  forall s,
    on_schedule svc v r vol all s ->
    on_schedule svc v r vol all (run_pipeline svc v r vol sched s).
Proof.
  unfold run_pipeline.
  induction sched as [|a sched IH]; intros s H; [exact H|].
  cbn [fold_left]. apply IH. apply pipeline_step_on_schedule. exact H.
Qed.

End OnSchedule.

Lemma subseq_of_nil (A : Type) (a : list A) : subseq a [] -> a = [].
Proof. inversion 1. reflexivity. Qed.

Lemma non_space_nil_blank (c : str) : non_space c = [] -> truthy (strip c) = false.
Proof.
  intros H. rewrite strip_all_space; [reflexivity|].
  induction c as [|x c IH]; [reflexivity|].
  unfold non_space in H. cbn [filter forallb] in *.
  destruct (isspace x); cbn [negb] in H; [|discriminate].
  cbn [andb]. apply IH. exact H.
Qed.

Lemma non_space_concat_nil (l : list str) (c : str) :
  non_space (concat l) = [] -> In c l -> non_space c = [].
Proof.
  induction l as [|x l IH]; [contradiction|].
  cbn [concat]. rewrite non_space_app. intros H.
  apply app_eq_nil in H. destruct H as [Hx Hl].
  intros [<- | Hin]; auto.
Qed.

Lemma chunks_of_blank_text (text c : str) :
  truthy (strip text) = false -> In c (_chunk_text text) ->
  truthy (strip c) = false.
Proof.
  intros Hb Hin. apply non_space_nil_blank.
  apply (non_space_concat_nil (_chunk_text text)); [|exact Hin].
  apply subseq_of_nil. rewrite <- (strip_blank text Hb).
  apply chunk_text_subseq.
Qed.

Lemma blank_chunks_plan_nothing (svc : service) (v r vol : str) (chunks : list str) :
  (forall c, In c chunks -> truthy (strip c) = false) ->
  planned svc v r vol chunks = [].
Proof.
  induction chunks as [|c chunks IH]; intros H; [reflexivity|].
  cbn [planned]. rewrite (H c) by (left; reflexivity). cbn [negb].
  apply IH. intros c' Hc'. apply H. right. exact Hc'.
Qed.

(** When the frames of a text fit the queue with two slots to spare, no
    frame is ever dropped: whatever the schedule, what a run has yielded is
    a first part of the frames the service delivers for the chunks, and a
    run that ends normally has yielded all of them. *)
Theorem stream_below_capacity (svc : service) (self : TTSEngine) (text : str)
    (rate_arg volume_arg : option str) (sched : list action) :
  let all := planned svc (voice self) (in_force rate_arg (rate self))
                     (in_force volume_arg (volume self)) (_chunk_text text) in
  let run := stream svc self text rate_arg volume_arg sched in
  length all + 2 <= QUEUE_MAX_SIZE ->
  (exists rest, run_yielded run ++ rest = all)
  /\ (run_end run = Returned -> run_yielded run = all).
Proof.
  intros all run Hfit. subst run. unfold stream.
  destruct (negb (truthy text) || negb (truthy (strip text))) eqn:Eb.
  - assert (Hnil : all = []).
    { unfold all. apply blank_chunks_plan_nothing. intros c Hc.
      destruct text as [|x text]; [contradiction|].
      cbn [truthy negb orb] in Eb. apply negb_true_iff in Eb.
      exact (@chunks_of_blank_text _ c Eb Hc). }
    rewrite Hnil. cbn [run_yielded run_end]. split; [exists []|]; reflexivity.
  - destruct (if override_given rate_arg then _ else _) as [fr|e] eqn:Er;
      [|cbn [run_yielded run_end]; split; [exists all; reflexivity | discriminate]].
    destruct (if override_given volume_arg then _ else _) as [fv|e] eqn:Ev;
      [|cbn [run_yielded run_end]; split; [exists all; reflexivity | discriminate]].
    apply stream_final_value in Er, Ev. subst fr fv.
    cbn [run_yielded run_end]. fold all.
    match goal with
    | |- context [run_pipeline ?a ?b ?c ?d sched ?s0] =>
        assert (H0 : on_schedule a b c d all s0);
        [|pose proof (@run_on_schedule a b c d all sched s0 H0)
            as (_ & Hpre & _ & Hend);
          set (s1 := run_pipeline a b c d sched s0) in *]
    end.
    { unfold on_schedule, on_the_way.
      cbn [audio_queue producer_of consumer_of yielded in_loop ended length
           queued flat_map app slots_needed remaining audio_then_terminal
           forallb].
      fold all. repeat split; auto; try discriminate.
      exists all. reflexivity. }
    split; [exact Hpre|].
    intros Hret. apply Hend.
    destruct (consumer_of s1); try discriminate.
    cbn [ended]. rewrite Hret. reflexivity.
Qed.

Lemma stream_below_capacity_witness :
  let svc : service := fun _ _ _ _ => ([AudioChunk [Byte.x01]; OtherChunk;
                                        AudioChunk [Byte.x02]], SynthDone) in
  let self := mkTTSEngine (lit "v") (lit "+0%") (lit "+0%") in
  exists rest,
    run_yielded (stream svc self (lit "xin chao") None None
                        [Produce; Produce; Consume])
    ++ rest = [[Byte.x01]; [Byte.x02]].
Proof.
  cbv zeta.
  refine (proj1 (@stream_below_capacity
                   (fun _ _ _ _ => ([AudioChunk [Byte.x01]; OtherChunk;
                                     AudioChunk [Byte.x02]], SynthDone))
                   (mkTTSEngine (lit "v") (lit "+0%") (lit "+0%"))
                   (lit "xin chao") None None [Produce; Produce; Consume] _)).
  vm_compute. repeat constructor.
Defined.

(** *** The end of a run *)

Section PipelineEnd.

Variable svc : service.
Variable v r vol : str.

Lemma consume_one (p : producer) (d : bytes) (q : queue) (ys : list bytes)
    (evs : list event) :
  pipeline_step svc v r vol Consume
    (pipeline_step svc v r vol Consume (mkPipeline p CGet (Audio d :: q) ys evs))
  = mkPipeline p CGet q (ys ++ [d]) evs.
Proof. reflexivity. Qed.

Lemma consume_frames (frames : list bytes) :
  forall p rest ys evs,
    run_pipeline svc v r vol (repeat Consume (2 * length frames))
                 (mkPipeline p CGet (map Audio frames ++ rest) ys evs)
    = mkPipeline p CGet rest (ys ++ frames) evs.
Proof.
  unfold run_pipeline.
  induction frames as [|d frames IH]; intros p rest ys evs.
  - cbn. rewrite app_nil_r. reflexivity.
  - replace (2 * length (d :: frames)) with (S (S (2 * length frames)))
      by (cbn [length]; lia).
    cbn [repeat fold_left map app]. rewrite consume_one, IH, <- app_assoc.
    reflexivity.
Qed.

(** A run can end normally one frame short.  If the producer comes to its
    end while the queue is full of audio frames, the sentinel takes the place
    of the oldest of them: the consumer, resumed until it is done, yields
    every queued frame but that one and ends as after a complete stream. *)
Theorem sentinel_displaces_oldest_frame (frames : list bytes) (ys : list bytes)
    (evs : list event) :
  length frames = QUEUE_MAX_SIZE ->
  let s0 := mkPipeline (PFinally false) CGet (map Audio frames) ys evs in
  let s1 := run_pipeline svc v r vol
              (Produce :: repeat Consume (2 * length (tl frames) + 3)) s0 in
  yielded s1 = ys ++ tl frames
  /\ consumer_of s1 = CDone Returned
  /\ producer_of s1 = PExited
  /\ length (tl frames) + 1 = length frames.
Proof.
  intros Hlen s0 s1. subst s1 s0.
  destruct frames as [|d0 frames]; [discriminate|].
  assert (Hfirst : pipeline_step svc v r vol Produce
                     (mkPipeline (PFinally false) CGet
                                 (map Audio (d0 :: frames)) ys evs)
                   = mkPipeline PExited CGet
                                (map Audio frames ++ [EndOfStream]) ys (evs ++ [])).
  { unfold pipeline_step.
    cbn [consumer_of audio_queue producer_of yielded events producer_step].
    rewrite safe_put_full by (rewrite length_map; exact Hlen). reflexivity. }
  unfold run_pipeline. cbn [fold_left tl]. rewrite Hfirst.
  rewrite repeat_app, fold_left_app.
  pose proof (consume_frames frames PExited [EndOfStream] ys (evs ++ [])) as Hc.
  unfold run_pipeline in Hc. rewrite Hc.
  cbn [repeat fold_left]. unfold pipeline_step.
  cbn [consumer_of audio_queue producer_of yielded events length].
  repeat split. lia.
Qed.

End PipelineEnd.

Lemma sentinel_displaces_oldest_frame_witness :
  let frames := [Byte.x01] :: repeat [Byte.x02] 99 in
  let s0 := mkPipeline (PFinally false) CGet (map Audio frames) [] [] in
  yielded (run_pipeline (fun _ _ _ _ => ([], SynthDone)) [] [] []
             (Produce :: repeat Consume (2 * length (tl frames) + 3)) s0)
  = repeat [Byte.x02] 99.
Proof.
  cbv zeta.
  refine (proj1 (@sentinel_displaces_oldest_frame
                   (fun _ _ _ _ => ([], SynthDone)) [] [] []
                   ([Byte.x01] :: repeat [Byte.x02] 99) [] [] _)).
  reflexivity.
Defined.
